(** * Liquidity-regime pipeline: a shallow embedding and its properties

    The development follows the pipeline stage by stage:
    series readers and the incremental merge ([Normalizer]), the outer-join /
    forward-fill aligner ([Aligner]), the feature master with its rolling
    statistics ([Features], [ZScore]), then the sequential model's
    transition smoothing ([Smooth]) and restart search ([Restarts]) and the
    canonical relabeling of both model backends ([Regime]).  Each module
    states the embedding first and its properties after.

    pandas, numpy, scikit-learn and hmmlearn are library code: what the
    scripts use of them is modelled from their documented behaviour, and the
    model fits themselves ([fit], [score], the raw states and posteriors) are
    inputs.

    Numbers.  The Python code computes on IEEE doubles.  Finite values are
    modelled by exact rationals ([Q]) and, where a square root is taken, by
    real numbers ([R]); the three special values a pandas column can hold
    (+inf, -inf and NaN, the latter being what pandas calls "missing") are
    explicit constructors of [fval].  Rounding error, overflow and underflow
    are not modelled. *)

From stdpp Require Import gmap strings.
From Stdlib Require Import List ZArith QArith Qabs Reals Lia Lra Lqa.
From Stdlib Require Import Permutation Sorted.
Import ListNotations.

Set Implicit Arguments.

(* ===================================================================== *)
(** * Float values with infinities and NaN                                *)
(* ===================================================================== *)

Inductive fval (A : Type) : Type :=
| Fin (x : A)
| PInf
| NInf
| NaN.

Arguments Fin {A} x.
Arguments PInf {A}.
Arguments NInf {A}.
Arguments NaN {A}.

(** The arithmetic the pipeline needs from the carrier of finite values. *)
Class Arith (A : Type) : Type := {
  a_zero : A;
  a_sub : A -> A -> A;
  a_div : A -> A -> A;
  a_is_zero : A -> bool;
  a_is_neg : A -> bool
}.

#[export] Instance Arith_Q : Arith Q := {
  a_zero := 0%Q;
  a_sub := Qminus;
  a_div := Qdiv;
  a_is_zero := fun x => Qeq_bool x 0;
  a_is_neg := fun x => negb (Qle_bool 0 x)
}.

#[export] Instance Arith_R : Arith R := {
  a_zero := 0%R;
  a_sub := Rminus;
  a_div := Rdiv;
  a_is_zero := fun x => if Req_dec_T x 0 then true else false;
  a_is_neg := fun x => if Rlt_dec x 0 then true else false
}.

(** pandas [isna]: only NaN is missing, an infinity is not. *)
Definition isna {A} (x : fval A) : bool :=
  match x with NaN => true | _ => false end.

(** IEEE subtraction. *)
Definition fsub {A} `{Arith A} (x y : fval A) : fval A :=
  match x, y with
  | NaN, _ | _, NaN => NaN
  | Fin a, Fin b => Fin (a_sub a b)
  | PInf, PInf | NInf, NInf => NaN
  | PInf, _ | _, NInf => PInf
  | NInf, _ | _, PInf => NInf
  end.

(** IEEE division as numpy performs it: a finite non-zero value over zero is
    an infinity, zero over zero is NaN, and nothing raises.  The zero divisor
    is taken as +0. *)
Definition fdiv {A} `{Arith A} (x y : fval A) : fval A :=
  match x, y with
  | NaN, _ | _, NaN => NaN
  | Fin a, Fin b =>
      if a_is_zero b then
        if a_is_zero a then NaN else if a_is_neg a then NInf else PInf
      else Fin (a_div a b)
  | Fin _, _ => Fin a_zero
  | PInf, Fin b => if a_is_neg b then NInf else PInf
  | NInf, Fin b => if a_is_neg b then PInf else NInf
  | _, _ => NaN
  end.

(** Python's [x > y] on floats: false as soon as one side is NaN. *)
Definition fgt (x y : fval Q) : bool :=
  match x, y with
  | NaN, _ | _, NaN => false
  | PInf, PInf => false
  | PInf, _ => true
  | _, PInf => false
  | NInf, _ => false
  | Fin _, NInf => true
  | Fin a, Fin b => negb (Qle_bool a b)
  end.

(** Row-wise combination of two columns of equal index (pandas aligns on the
    index; the columns combined here always share it). *)
Fixpoint zip_with {A B C} (f : A -> B -> C) (xs : list A) (ys : list B) : list C :=
  match xs, ys with
  | x :: xs', y :: ys' => f x y :: zip_with f xs' ys'
  | _, _ => []
  end.

Fixpoint Qsum (l : list Q) : Q :=
  match l with
  | [] => 0%Q
  | x :: l' => (x + Qsum l')%Q
  end.


(* ===================================================================== *)
(** * Sorting ([sort_values])                                             *)
(* ===================================================================== *)

(** pandas' [sort_values] is modelled by a stable insertion sort on a boolean
    "not after" test.  Nothing proved below depends on how ties are ordered,
    except where stated. *)
Section InsertionSort.

Context {A : Type} (leb : A -> A -> bool).

Fixpoint insert_sorted (x : A) (l : list A) : list A :=
  match l with
  | [] => [x]
  | y :: l' => if leb x y then x :: l else y :: insert_sorted x l'
  end.

Fixpoint isort (l : list A) : list A :=
  match l with
  | [] => []
  | x :: l' => insert_sorted x (isort l')
  end.

Definition sorted_by (l : list A) : Prop :=
  StronglySorted (fun a b => leb a b = true) l.

End InsertionSort.

(** Tables keyed by a timestamp (days since some epoch, UTC). *)
Definition date_leb {A} (r1 r2 : Z * A) : bool := (fst r1 <=? fst r2)%Z.

(** [df.sort_values("date")]. *)
Definition sort_by_date {A} (df : list (Z * A)) : list (Z * A) :=
  isort date_leb df.

Section InsertionSortFacts.

Context {A : Type} (leb : A -> A -> bool).

Lemma insert_sorted_perm (x : A) (l : list A) :
  Permutation (insert_sorted leb x l) (x :: l).
Proof.
  induction l as [|y l IH]; simpl; [reflexivity|].
  destruct (leb x y); [reflexivity|].
  rewrite IH. apply perm_swap.
Qed.

Lemma isort_perm (l : list A) : Permutation (isort leb l) l.
Proof.
  induction l as [|x l IH]; simpl; [reflexivity|].
  rewrite insert_sorted_perm. now apply perm_skip.
Qed.

Lemma isort_In (l : list A) (x : A) : In x (isort leb l) <-> In x l.
Proof.
  split; apply Permutation_in; [|symmetry]; apply isort_perm.
Qed.

Hypothesis leb_total : forall a b, leb a b = true \/ leb b a = true.
Hypothesis leb_trans : forall a b c, leb a b = true -> leb b c = true -> leb a c = true.

Lemma insert_sorted_sorted (x : A) (l : list A) :
  sorted_by leb l -> sorted_by leb (insert_sorted leb x l).
Proof.
  induction 1 as [|y l Hs IH Hy]; simpl.
  - repeat constructor.
  - destruct (leb x y) eqn:E.
    + constructor; [now constructor|].
      constructor; [assumption|].
      eapply Forall_impl; [|exact Hy]. intros z Hz. eauto.
    + constructor; [assumption|].
      assert (Hyx : leb y x = true) by (destruct (leb_total x y); congruence).
      rewrite Forall_forall in *. intros z Hz.
      apply (Permutation_in _ (insert_sorted_perm x l)) in Hz.
      destruct Hz as [<-|Hz]; auto.
Qed.

Lemma isort_sorted (l : list A) : sorted_by leb (isort leb l).
Proof.
  induction l as [|x l IH]; simpl; [constructor|].
  now apply insert_sorted_sorted.
Qed.

End InsertionSortFacts.

Lemma date_leb_total {A} (a b : Z * A) :
  date_leb a b = true \/ date_leb b a = true.
Proof. unfold date_leb. destruct (Z.leb_spec (fst a) (fst b)); [now left|right]. apply Z.leb_le. lia. Qed.

Lemma date_leb_trans {A} (a b c : Z * A) :
  date_leb a b = true -> date_leb b c = true -> date_leb a c = true.
Proof. unfold date_leb. rewrite !Z.leb_le. lia. Qed.

Lemma sorted_by_date_le {A} (df : list (Z * A)) :
  sorted_by date_leb df -> StronglySorted Z.le (map fst df).
Proof.
  induction 1 as [|r l Hs IH Hr]; simpl; constructor; [assumption|].
  rewrite Forall_map. eapply Forall_impl; [|exact Hr].
  intros r'. unfold date_leb. now rewrite Z.leb_le.
Qed.

Lemma sort_by_date_sorted {A} (df : list (Z * A)) :
  StronglySorted Z.le (map fst (sort_by_date df)).
Proof.
  apply sorted_by_date_le, isort_sorted.
  - apply date_leb_total.
  - apply date_leb_trans.
Qed.

(* ===================================================================== *)
(** * Series readers and the incremental merge                            *)
(** (02/03/04 [_read_series], [_read]; run_ingest_incremental.py;
    ingest/fred.py)                                                     *)
(* ===================================================================== *)

Module Normalizer.


Inductive outcome (A : Type) : Type :=
| Returned (a : A)
| SystemExit.

Arguments Returned {A} a.
Arguments SystemExit {A}.

(** [df.drop_duplicates(subset=key, keep="last")]: a row stays when no later
    row has its key; the order of the rows that stay is unchanged. *)
Fixpoint drop_duplicates_last {A K} `{EqDecision K} (key : A -> K) (l : list A)
  : list A :=
  match l with
  | [] => []
  | x :: rest =>
      if existsb (fun y => bool_decide (key y = key x)) rest
      then drop_duplicates_last key rest
      else x :: drop_duplicates_last key rest
  end.

(** [df.dropna(subset=["date"])] on rows whose date cell went through
    [to_datetime(errors="coerce")]: [None] is NaT. *)
Definition dropna_date {X} (l : list (option Z * X)) : list (Z * X) :=
  flat_map (fun r => match fst r with Some d => [(d, snd r)] | None => [] end) l.

Section Readers.

(** A raw cell, and the two pandas coercions with [errors="coerce"]: a cell
    that does not parse becomes NaT, respectively NaN ([None]). *)
Variable Raw : Type.
Variable to_datetime : Raw -> option Z.
Variable to_numeric : Raw -> option Q.

(** A parquet file as read: its column names and, per row, the cells of the
    columns "date" and "value". *)
Record frame : Type := {
  columns : list string;
  rows : list (Raw * Raw)
}.

Definition has_column (df : frame) (c : string) : bool :=
  existsb (String.eqb c) (columns df).

Definition coerce (r : Raw * Raw) : option Z * option Q :=
  (to_datetime (fst r), to_numeric (snd r)).

(** [df.dropna(subset=["date", "value"])]. *)
Definition dropna (l : list (option Z * option Q)) : list (Z * Q) :=
  flat_map (fun r => match r with
                     | (Some d, Some v) => [(d, v)]
                     | _ => []
                     end) l.

(** [_read_series] of 02 and 03, [_read] of 04 (the three bodies are the
    same); [None] is a path that does not exist. *)
Definition _read_series (file : option frame) : outcome (list (Z * Q)) :=
  match file with
  | None => SystemExit
  | Some df =>
      if negb (has_column df "date"%string) || negb (has_column df "value"%string)
      then SystemExit
      else Returned (sort_by_date (dropna (map coerce (rows df))))
  end.

Variable Rest : Type.

(** A bronze row: the date cell, the series id (read only when the frame has
    a "series_id" column) and the remaining cells. *)
Record bronze_row : Type := {
  b_date : Raw;
  b_series : string;
  b_rest : Rest
}.

(** [_merge_append]; [old = None] when [old_path] does not exist.  The frame
    always has its "date" column. *)
Definition _merge_append (has_series_id : bool) (old : option (list bronze_row))
    (new_df : list bronze_row) : list (Z * (string * Rest)) :=
  let df := match old with
            | Some o => o ++ new_df
            | None => new_df
            end in
  let df := map (fun r => (to_datetime (b_date r), (b_series r, b_rest r))) df in
  let df := if has_series_id
            then drop_duplicates_last (fun r => (fst r, fst (snd r))) df
            else drop_duplicates_last fst df in
  sort_by_date (dropna_date df).

(** The rows [_merge_append] works on, before and after the date coercion. *)
Definition all_rows (old : option (list bronze_row))
    (new_df : list bronze_row) : list bronze_row :=
  match old with
  | Some o => o ++ new_df
  | None => new_df
  end.

Definition coerced_rows (old : option (list bronze_row))
    (new_df : list bronze_row) : list (option Z * (string * Rest)) :=
  map (fun r => (to_datetime (b_date r), (b_series r, b_rest r)))
      (all_rows old new_df).

End Readers.

Arguments columns {Raw} _.
Arguments rows {Raw} _.

(** ** A revised observation on a date already present *)

(** Cells that parse are [Some], cells that do not are [None]. *)
Definition republished : frame (option Z) :=
  {| columns := ["date"; "value"]%string;
     rows := [(Some 5, Some 1); (None, Some 7); (Some 5, Some 2); (Some 3, None)]%Z |}.

Definition parse_date (c : option Z) : option Z := c.

Definition parse_value (c : option Z) : option Q := option_map inject_Z c.

(** ** From a bronze file to the canonical series *)

Section Bronze.

(** [stamp d] is the "date" cell that a written timestamp is read back as;
    [value_cell] picks the "value" cell among the remaining cells of a
    row. *)
Variables Raw Rest : Type.
Variable stamp : Z -> Raw.
Variable value_cell : Rest -> Raw.

(** [df.to_parquet(out, index=False)] as a later [read_parquet(out)] of a
    reader sees it; [cols] are the columns of the frame. *)
Definition to_parquet (cols : list string) (df : list (Z * (string * Rest)))
  : frame Raw :=
  {| columns := cols;
     rows := map (fun r => (stamp (fst r), value_cell (snd (snd r)))) df |}.

End Bronze.

(** ** The frame a FRED response becomes (ingest/fred.py) *)

Section Fetch.

(** The strings of a response and what pandas parses them to. *)
Variable Str : Type.
Variable date_of : Str -> option Z.
Variable number_of : Str -> option Q.

Inductive fred_frame : Type :=
| Frame (rows : list (Z * (string * Q)))
| EmptyFrame
| ParserError.

(** [pd.to_datetime(df["date"], utc=True)], without [errors="coerce"]: one
    string that does not parse raises. *)
Fixpoint strict_dates (obs : list (Str * Str)) : option (list (Z * Str)) :=
  match obs with
  | [] => Some []
  | r :: rest =>
      match date_of (fst r), strict_dates rest with
      | Some d, Some l => Some ((d, snd r) :: l)
      | _, _ => None
      end
  end.

(** [fetch_fred_series] from the response on (lines 28-38); [obs] holds the
    "date" and "value" strings of [js.get("observations", [])].  An empty
    response is returned as the empty frame it is; otherwise the dates are
    parsed, the values coerced, the rows without a value dropped, the rest
    sorted by date and tagged with the series id.  Nothing removes a date
    that the response carries twice. *)
Definition fetch_fred_series (series_id : string) (obs : list (Str * Str))
  : fred_frame :=
  match obs with
  | [] => EmptyFrame
  | _ =>
      match strict_dates obs with
      | None => ParserError
      | Some df =>
          let df := flat_map (fun r => match number_of (snd r) with
                                       | Some v => [(fst r, v)]
                                       | None => []
                                       end) df in
          Frame (map (fun r => (fst r, (series_id, snd r))) (sort_by_date df))
      end
  end.

End Fetch.

(** The cells of a bronze file, for the examples: a timestamp, a float, or a
    string that is neither.  The "date" column of a written file holds
    timestamps and its "value" column floats. *)
Inductive cell : Type :=
| Day (d : Z)
| Num (q : Q)
| Text (s : string).

Definition cell_date (c : cell) : option Z :=
  match c with Day d => Some d | _ => None end.

Definition cell_value (c : cell) : option Q :=
  match c with Num q => Some q | _ => None end.

Definition bronze_columns : list string := ["date"; "value"; "series_id"]%string.

(** A response that carries day 5 twice, the second time with a revised
    value, and day 4 without a value. *)
Definition response_ex : list (option Z * option Z) :=
  [(Some 3, Some 9); (Some 5, Some 1); (Some 4, None); (Some 5, Some 2)]%Z.

(** The file of a series after an incremental run, and what the next run
    fetches: day 5 again, revised, and day 6. *)
Definition bronze_ex : list (bronze_row cell Q) :=
  [ {| b_date := Day 3; b_series := "WALCL"; b_rest := 9%Q |};
    {| b_date := Day 5; b_series := "WALCL"; b_rest := 1%Q |} ].

Definition fetched_ex : list (bronze_row cell Q) :=
  [ {| b_date := Day 5; b_series := "WALCL"; b_rest := 2%Q |};
    {| b_date := Day 6; b_series := "WALCL"; b_rest := 7%Q |} ].

(** ** Properties of the readers and the merge *)

Lemma drop_duplicates_last_In {A K} `{EqDecision K} (key : A -> K) (l : list A) (x : A) :
  In x (drop_duplicates_last key l) <->
  exists pre post, l = pre ++ x :: post /\ Forall (fun y => key y <> key x) post.
Proof.
  induction l as [|a l IH]; simpl.
  - split; [tauto|]. intros ([|? ?] & post & Heq & _); discriminate.
  - destruct (existsb (fun y => bool_decide (key y = key a)) l) eqn:E.
    + rewrite IH. split.
      * intros (pre & post & -> & Hp). exists (a :: pre), post. auto.
      * intros ([|b pre] & post & Heq & Hp); simpl in Heq.
        -- injection Heq as -> ->. apply existsb_exists in E.
           destruct E as (y & Hy & Hk). apply bool_decide_eq_true_1 in Hk.
           rewrite Forall_forall in Hp. exfalso. eapply Hp; eauto.
        -- injection Heq as -> ->. eauto.
    + simpl. rewrite IH. split.
      * intros [->|(pre & post & -> & Hp)].
        -- exists [], l. split; [reflexivity|]. rewrite Forall_forall.
           intros y Hy Hk. assert (existsb (fun y => bool_decide (key y = key x)) l = true);
             [|congruence].
           apply existsb_exists. exists y. split; [exact Hy|].
           now apply bool_decide_eq_true_2.
        -- exists (a :: pre), post. auto.
      * intros ([|b pre] & post & Heq & Hp); simpl in Heq.
        -- injection Heq as -> ->. now left.
        -- injection Heq as -> ->. right. eauto.
Qed.

Lemma drop_duplicates_last_incl {A K} `{EqDecision K} (key : A -> K) (l : list A) (x : A) :
  In x (drop_duplicates_last key l) -> In x l.
Proof.
  rewrite drop_duplicates_last_In. intros (pre & post & -> & _).
  apply in_or_app. right. now left.
Qed.

Lemma drop_duplicates_last_NoDup {A K} `{EqDecision K} (key : A -> K) (l : list A) :
  List.NoDup (map key (drop_duplicates_last key l)).
Proof.
  induction l as [|a l IH]; simpl; [constructor|].
  destruct (existsb (fun y => bool_decide (key y = key a)) l) eqn:E; [exact IH|].
  simpl. constructor; [|exact IH].
  intros Hin. apply in_map_iff in Hin. destruct Hin as (y & Hk & Hy).
  apply drop_duplicates_last_incl in Hy.
  assert (existsb (fun y => bool_decide (key y = key a)) l = true); [|congruence].
  apply existsb_exists. exists y. split; [exact Hy|].
  now apply bool_decide_eq_true_2.
Qed.

Lemma dropna_date_In {X} (l : list (option Z * X)) (d : Z) (x : X) :
  In (d, x) (dropna_date l) <-> In (Some d, x) l.
Proof.
  unfold dropna_date. rewrite in_flat_map. split.
  - intros ([[d'|] x'] & Hin & Hd); simpl in Hd; [|tauto].
    destruct Hd as [Hd|[]]. now injection Hd as -> ->.
  - intros Hin. exists (Some d, x). split; [exact Hin|now left].
Qed.

Lemma dropna_date_NoDup {X K} (key : option Z * X -> K) (key' : Z * X -> K)
    (l : list (option Z * X)) :
  (forall d x, key (Some d, x) = key' (d, x)) ->
  List.NoDup (map key l) -> List.NoDup (map key' (dropna_date l)).
Proof.
  intros Hk. induction l as [|[[d|] x] l IH]; simpl; intros Hnd.
  - constructor.
  - inversion Hnd as [|? ? Hni Hnd']; subst. constructor; [|now apply IH].
    intros Hin. apply Hni. apply in_map_iff in Hin.
    destruct Hin as ([d' x'] & Heq & Hin'). apply dropna_date_In in Hin'.
    apply in_map_iff. exists (Some d', x'). split; [|exact Hin'].
    now rewrite !Hk.
  - inversion Hnd; subst. now apply IH.
Qed.

Section ReaderFacts.

Variables Raw Rest : Type.
Variable to_datetime : Raw -> option Z.
Variable to_numeric : Raw -> option Q.

Lemma dropna_In (l : list (option Z * option Q)) (d : Z) (v : Q) :
  In (d, v) (dropna l) <-> In (Some d, Some v) l.
Proof.
  unfold dropna. rewrite in_flat_map. split.
  - intros ([[d'|] [v'|]] & Hin & Hd); simpl in Hd; try tauto.
    destruct Hd as [Hd|[]]. now injection Hd as -> ->.
  - intros Hin. exists (Some d, Some v). split; [exact Hin|now left].
Qed.

Lemma merge_append_facts {K} `{EqDecision K}
    (key : option Z * (string * Rest) -> K) (key' : Z * (string * Rest) -> K)
    (l : list (option Z * (string * Rest))) :
  (forall d x, key (Some d, x) = key' (d, x)) ->
  StronglySorted Z.le (map fst (sort_by_date (dropna_date (drop_duplicates_last key l)))) /\
  List.NoDup (map key' (sort_by_date (dropna_date (drop_duplicates_last key l)))) /\
  (forall d x,
     In (d, x) (sort_by_date (dropna_date (drop_duplicates_last key l))) <->
     exists pre post,
       l = pre ++ (Some d, x) :: post /\
       Forall (fun y => key y <> key (Some d, x)) post).
Proof.
  intros Hk. split; [apply sort_by_date_sorted|]. split.
  - eapply Permutation_NoDup.
    + apply Permutation_map. symmetry. apply isort_perm.
    + eapply dropna_date_NoDup; [exact Hk|]. apply drop_duplicates_last_NoDup.
  - intros d x. unfold sort_by_date. rewrite isort_In, dropna_date_In.
    apply drop_duplicates_last_In.
Qed.

Lemma dropna_written (stamp : Z -> Raw) (value_cell : Rest -> Raw)
    (df : list (Z * (string * Rest))) :
  (forall d, to_datetime (stamp d) = Some d) ->
  dropna (map (coerce to_datetime to_numeric)
              (map (fun r => (stamp (fst r), value_cell (snd (snd r)))) df)) =
  flat_map (fun r => match to_numeric (value_cell (snd (snd r))) with
                     | Some v => [(fst r, v)]
                     | None => []
                     end) df.
Proof.
  intros Hstamp. induction df as [|r df IH]; [reflexivity|].
  cbn [map]. unfold dropna in *. cbn [flat_map]. rewrite IH.
  unfold coerce. cbn [fst snd]. rewrite Hstamp. reflexivity.
Qed.

Lemma NoDup_dates_kept {X} (f : Z * X -> option Q) (df : list (Z * X)) :
  List.NoDup (map fst df) ->
  List.NoDup (map fst (flat_map (fun r => match f r with
                                          | Some v => [(fst r, v)]
                                          | None => []
                                          end) df)).
Proof.
  induction df as [|r df IH]; simpl; intros Hnd; [constructor|].
  inversion Hnd as [|? ? Hni Hnd']; subst.
  destruct (f r) as [v|]; simpl; [|now apply IH].
  constructor; [|now apply IH].
  intros Hin. apply Hni. apply in_map_iff in Hin.
  destruct Hin as ([d v'] & Hd & Hin). apply in_flat_map in Hin.
  destruct Hin as (r' & Hr' & Hin). simpl in Hd. subst d.
  apply in_map_iff. exists r'. split; [|exact Hr'].
  destruct (f r'); simpl in Hin; [|tauto].
  destruct Hin as [E|[]]. now injection E as -> _.
Qed.

Lemma has_column_In (df : frame Raw) (c : string) :
  In c (columns df) -> has_column df c = true.
Proof.
  intros Hin. unfold has_column. apply existsb_exists.
  exists c. split; [exact Hin|apply String.eqb_refl].
Qed.

Lemma merge_append_series (has_series_id : bool)
    (old : option (list (bronze_row Raw Rest))) new_df (sid : string) d x :
  Forall (fun r => b_series r = sid) (all_rows old new_df) ->
  In (d, x) (_merge_append to_datetime has_series_id old new_df) ->
  fst x = sid.
Proof.
  intros Hsid Hin. unfold _merge_append in Hin. cbv zeta in Hin.
  fold (all_rows old new_df) in Hin.
  unfold sort_by_date in Hin. rewrite isort_In, dropna_date_In in Hin.
  assert (Hc : In (Some d, x)
                  (map (fun r => (to_datetime (b_date r), (b_series r, b_rest r)))
                       (all_rows old new_df))).
  { destruct has_series_id; eapply drop_duplicates_last_incl; exact Hin. }
  apply in_map_iff in Hc. destruct Hc as (r & E & Hr).
  rewrite Forall_forall in Hsid. injection E as _ <-. cbn [fst]. now apply Hsid.
Qed.

Lemma merge_append_dates_NoDup (has_series_id : bool)
    (old : option (list (bronze_row Raw Rest))) new_df (sid : string) :
  (has_series_id = true ->
   Forall (fun r => b_series r = sid) (all_rows old new_df)) ->
  List.NoDup (map fst (_merge_append to_datetime has_series_id old new_df)).
Proof.
  intros Hsid. destruct has_series_id.
  - destruct (@merge_append_facts _ _
                (fun r : option Z * (string * Rest) => (fst r, fst (snd r)))
                (fun r : Z * (string * Rest) => (Some (fst r), fst (snd r)))
                (coerced_rows to_datetime old new_df)) as (_ & Hnd & _);
      [reflexivity|].
    change (sort_by_date (dropna_date (drop_duplicates_last
              (fun r : option Z * (string * Rest) => (fst r, fst (snd r)))
              (coerced_rows to_datetime old new_df))))
      with (_merge_append to_datetime true old new_df) in Hnd.
    apply (NoDup_map_inv (fun d : Z => (Some d, sid))).
    rewrite map_map.
    erewrite map_ext_in; [exact Hnd|].
    intros [d x] Hin. cbn [fst snd]. f_equal. symmetry.
    exact (@merge_append_series true old new_df sid d x (Hsid eq_refl) Hin).
  - destruct (@merge_append_facts _ _
                (fun r : option Z * (string * Rest) => fst r)
                (fun r : Z * (string * Rest) => Some (fst r))
                (coerced_rows to_datetime old new_df)) as (_ & Hnd & _);
      [reflexivity|].
    apply (NoDup_map_inv (@Some Z)). rewrite map_map. exact Hnd.
Qed.

(** C9 (as the code has it). The readers of the build scripts coerce both
    columns, drop the rows in which either coercion fails and sort by
    timestamp; they keep every other row, duplicates of a timestamp
    included.  Deduplication is done by the incremental merge: it coerces the
    timestamp only, keeps for every (timestamp, series id) - or timestamp,
    when there is no series id column - the last row that has it, then drops
    the rows without a timestamp and sorts.  Together: when a reader reads a
    file that the incremental merge wrote for one series id, the canonical
    series is sorted, no two of its observations share a timestamp, and its
    observations are the rows of the merge whose value is numeric. *)
Theorem readers_coerce_sort_and_merge_append_dedups :
  (forall df : frame Raw,
     has_column df "date" = true -> has_column df "value" = true ->
     exists out,
       _read_series to_datetime to_numeric (Some df) = Returned out /\
       Permutation out (dropna (map (coerce to_datetime to_numeric) (rows df))) /\
       StronglySorted Z.le (map fst out) /\
       (forall d v, In (d, v) out <->
          exists r, In r (rows df) /\
                    to_datetime (fst r) = Some d /\ to_numeric (snd r) = Some v)) /\
  (forall (old : option (list (bronze_row Raw Rest))) new_df,
     StronglySorted Z.le (map fst (_merge_append to_datetime true old new_df)) /\
     List.NoDup (map (fun x => (fst x, fst (snd x)))
                     (_merge_append to_datetime true old new_df)) /\
     (forall d x,
        In (d, x) (_merge_append to_datetime true old new_df) <->
        exists pre post,
          coerced_rows to_datetime old new_df = pre ++ (Some d, x) :: post /\
          Forall (fun y => (fst y, fst (snd y)) <> (Some d, fst x)) post)) /\
  (forall (old : option (list (bronze_row Raw Rest))) new_df,
     StronglySorted Z.le (map fst (_merge_append to_datetime false old new_df)) /\
     List.NoDup (map fst (_merge_append to_datetime false old new_df)) /\
     (forall d x,
        In (d, x) (_merge_append to_datetime false old new_df) <->
        exists pre post,
          coerced_rows to_datetime old new_df = pre ++ (Some d, x) :: post /\
          Forall (fun y => fst y <> Some d) post)) /\
  (forall (stamp : Z -> Raw) (value_cell : Rest -> Raw) (cols : list string)
          (has_series_id : bool) (old : option (list (bronze_row Raw Rest)))
          new_df (sid : string),
     (forall d, to_datetime (stamp d) = Some d) ->
     In "date"%string cols -> In "value"%string cols ->
     (has_series_id = true ->
      Forall (fun r => b_series r = sid) (all_rows old new_df)) ->
     exists out,
       _read_series to_datetime to_numeric
         (Some (to_parquet stamp value_cell cols
                  (_merge_append to_datetime has_series_id old new_df)))
       = Returned out /\
       StronglySorted Z.le (map fst out) /\
       List.NoDup (map fst out) /\
       (forall d v, In (d, v) out <->
          exists x, In (d, x) (_merge_append to_datetime has_series_id old new_df) /\
                    to_numeric (value_cell (snd x)) = Some v)).
Proof.
  split; [|split; [|split]].
  - intros df Hd Hv. unfold _read_series. rewrite Hd, Hv. simpl.
    eexists. split; [reflexivity|]. split; [apply isort_perm|].
    split; [apply sort_by_date_sorted|].
    intros d v. unfold sort_by_date. rewrite isort_In, dropna_In, in_map_iff.
    unfold coerce. split.
    + intros (r & Heq & Hr). injection Heq as Hd' Hv'. eauto.
    + intros (r & Hr & Hd' & Hv'). exists r. now rewrite Hd', Hv'.
  - intros old new_df.
    destruct (@merge_append_facts _ _
                (fun r : option Z * (string * Rest) => (fst r, fst (snd r)))
                (fun r : Z * (string * Rest) => (Some (fst r), fst (snd r)))
                (coerced_rows to_datetime old new_df)) as (Hs & Hnd & Hin); [reflexivity|].
    split; [exact Hs|]. split; [|exact Hin].
    apply (NoDup_map_inv (fun k : Z * string => (Some (fst k), snd k))).
    rewrite map_map. exact Hnd.
  - intros old new_df.
    destruct (@merge_append_facts _ _
                (fun r : option Z * (string * Rest) => fst r)
                (fun r : Z * (string * Rest) => Some (fst r))
                (coerced_rows to_datetime old new_df)) as (Hs & Hnd & Hin); [reflexivity|].
    split; [exact Hs|]. split; [|exact Hin].
    apply (NoDup_map_inv (@Some Z)). rewrite map_map. exact Hnd.
  - intros stamp value_cell cols has_series_id old new_df sid Hstamp Hdate Hvalue Hsid.
    set (merged := _merge_append to_datetime has_series_id old new_df).
    unfold _read_series.
    rewrite (@has_column_In (to_parquet stamp value_cell cols merged) "date" Hdate).
    rewrite (@has_column_In (to_parquet stamp value_cell cols merged) "value" Hvalue).
    cbn [negb orb]. eexists. split; [reflexivity|].
    split; [apply sort_by_date_sorted|].
    unfold to_parquet. cbn [rows].
    rewrite (@dropna_written stamp value_cell merged Hstamp).
    split.
    + eapply Permutation_NoDup.
      * apply Permutation_map. symmetry. apply isort_perm.
      * apply (@NoDup_dates_kept _ (fun r => to_numeric (value_cell (snd (snd r))))).
        exact (@merge_append_dates_NoDup has_series_id old new_df sid Hsid).
    + intros d v. unfold sort_by_date. rewrite isort_In, in_flat_map. split.
      * intros ([d' x] & Hin & Hv). cbn [fst snd] in Hv.
        destruct (to_numeric (value_cell (snd x))) as [v'|] eqn:E; simpl in Hv; [|tauto].
        destruct Hv as [Hv|[]]. injection Hv as -> ->. eauto.
      * intros (x & Hin & Hv). exists (d, x). split; [exact Hin|].
        cbn [fst snd]. rewrite Hv. now left.
Qed.

End ReaderFacts.

(** A reader on the file the incremental merge writes from [bronze_ex] and
    [fetched_ex]: day 5 comes out once, with the value fetched last. *)
Lemma readers_coerce_sort_and_merge_append_dedups_witness :
  exists out,
    _read_series cell_date cell_value
      (Some (to_parquet Day Num bronze_columns
               (_merge_append cell_date true (Some bronze_ex) fetched_ex)))
    = Returned out /\
    StronglySorted Z.le (map fst out) /\
    List.NoDup (map fst out) /\
    (forall d v, In (d, v) out <->
       exists x, In (d, x) (_merge_append cell_date true (Some bronze_ex) fetched_ex) /\
                 cell_value (Num (snd x)) = Some v).
Proof.
  destruct (@readers_coerce_sort_and_merge_append_dedups cell Q cell_date cell_value)
    as (_ & _ & _ & Hend).
  apply (Hend Day Num bronze_columns true (Some bronze_ex) fetched_ex "WALCL"%string).
  - intros d. reflexivity.
  - simpl. auto.
  - simpl. auto.
  - intros _. repeat constructor.
Defined.

Example read_after_merge_append :
  _read_series cell_date cell_value
    (Some (to_parquet Day Num bronze_columns
             (_merge_append cell_date true (Some bronze_ex) fetched_ex)))
  = Returned [(3%Z, 9%Q); (5%Z, 2%Q); (6%Z, 7%Q)].
Proof. reflexivity. Qed.

(** C9 (as the claim has it) fails on the full ingestion path: run_ingest.py
    saves the frame [fetch_fred_series] returns as it is, no step of the
    fetcher or of a reader removes a repeated date, and both rows of day 5
    of [response_ex] come out of [_read_series]. *)
Lemma read_series_keeps_duplicate_timestamps :
  exists saved,
    fetch_fred_series parse_date parse_value "WALCL" response_ex = Frame saved /\
    _read_series cell_date cell_value (Some (to_parquet Day Num bronze_columns saved))
      = Returned [(3%Z, inject_Z 9); (5%Z, inject_Z 1); (5%Z, inject_Z 2)] /\
    ~ List.NoDup (map fst [(3%Z, inject_Z 9); (5%Z, inject_Z 1); (5%Z, inject_Z 2)]).
Proof.
  eexists. split; [reflexivity|]. split; [reflexivity|].
  intros H. inversion H as [|? ? _ H']; subst.
  inversion H' as [|? ? Hni _]; subst. apply Hni. now left.
Qed.

(** The readers alone, on a frame with a date that does not parse and a
    repeated one: the first is dropped, the second kept twice. *)
Example read_series_on_republished :
  _read_series parse_date parse_value (Some republished)
    = Returned [(5%Z, inject_Z 1); (5%Z, inject_Z 2)].
Proof. reflexivity. Qed.

(** The incremental merge on the same dates keeps the later row. *)
Example merge_append_keeps_last :
  _merge_append parse_date true
    (Some [ {| b_date := Some 5%Z; b_series := "WALCL"; b_rest := 1%Z |};
            {| b_date := Some 3%Z; b_series := "WALCL"; b_rest := 9%Z |} ])
    [ {| b_date := Some 5%Z; b_series := "WALCL"; b_rest := 2%Z |};
      {| b_date := None; b_series := "WALCL"; b_rest := 4%Z |} ]
  = [(3%Z, ("WALCL"%string, 9%Z)); (5%Z, ("WALCL"%string, 2%Z))].
Proof. reflexivity. Qed.

End Normalizer.

(* ===================================================================== *)
(** * The multi-series aligner (02, 03, 04: merge, ffill, dropna)         *)
(* ===================================================================== *)

Module Aligner.


Open Scope Z_scope.

(** A series as a reader returns it: rows (date, value), no missing cell. *)
Definition series : Type := list (Z * Q).

(** A row of the merged frame: the date and one cell per merged series, in
    merge order; [None] is NaN. *)
Definition row : Type := Z * list (option Q).

Definition table : Type := list row.

Definition dates {X} (l : list (Z * X)) : list Z := map fst l.

Definition rows_at {X} (k : Z) (l : list (Z * X)) : list (Z * X) :=
  filter (fun r => fst r =? k) l.

(** The frame of the first series. *)
Definition of_series (s : series) : table :=
  map (fun r => (fst r, [Some (snd r)])) s.

(** The join keys of an outer merge: the union of the keys of both frames,
    sorted. *)
Definition outer_keys (l r : list Z) : list Z :=
  isort Z.leb (nodup Z.eq_dec (l ++ r)).

(** [left.merge(right, on="date", how="outer")] where [left] has [width]
    value columns: per key, every left row of the key paired with every
    right row of the key; a key that one side lacks gets NaN in that side's
    columns. *)
Definition merge_outer (width : nat) (left : table) (right : series) : table :=
  flat_map
    (fun k =>
       match rows_at k left, rows_at k right with
       | [], rs => map (fun r => (k, repeat None width ++ [Some (snd r)])) rs
       | ls, [] => map (fun l => (k, snd l ++ [None])) ls
       | ls, rs =>
           flat_map (fun l => map (fun r => (k, snd l ++ [Some (snd r)])) rs) ls
       end)
    (outer_keys (dates left) (dates right)).

(** [a.merge(b, ...).merge(c, ...)...]: the merges run left to right. *)
Definition merge_all (ss : list series) : table :=
  match ss with
  | [] => []
  | s :: rest =>
      fst (fold_left (fun acc s' => (merge_outer (snd acc) (fst acc) s', S (snd acc)))
                     rest (of_series s, 1%nat))
  end.

(** [df[cols] = df[cols].ffill()]: every column takes, where it is NaN, its
    value of the row above (after that row was filled). *)
Definition fill_cell (cell above : option Q) : option Q :=
  match cell with
  | Some v => Some v
  | None => above
  end.

Fixpoint ffill_rows (above : list (option Q)) (t : table) : table :=
  match t with
  | [] => []
  | (d, cells) :: rest =>
      let filled := zip_with fill_cell cells above in
      (d, filled) :: ffill_rows filled rest
  end.

Definition ffill (width : nat) (t : table) : table :=
  ffill_rows (repeat None width) t.

(** [df.dropna(subset=cols)]: rows with a NaN in any column go. *)
Definition dropna (t : table) : table :=
  filter (fun r => forallb (fun c => match c with Some _ => true | None => false end)
                           (snd r)) t.

(** Lines 40-47 of 02, 107-109 of 03, 48-59 of 04. *)
Definition build_aligned (ss : list series) : table :=
  dropna (ffill (length ss) (sort_by_date (merge_all ss))).

(** A weekly series, a daily series that starts later, a third one. *)
Definition weekly : series := [(1, inject_Z 100); (8, inject_Z 110)].
Definition daily : series := [(3, inject_Z 5); (4, inject_Z 6); (9, inject_Z 7)].
Definition other : series := [(2, inject_Z 1); (8, inject_Z 2)].

(** Two series that never overlap in time: the first ends before the second
    starts. *)
Definition early : series := [(1, inject_Z 10); (2, inject_Z 11)].
Definition late : series := [(5, inject_Z 20); (6, inject_Z 21)].

Definition never_overlap (s1 s2 : series) : Prop :=
  (forall d1 d2, In d1 (dates s1) -> In d2 (dates s2) -> d1 < d2) \/
  (forall d1 d2, In d1 (dates s1) -> In d2 (dates s2) -> d2 < d1).

(** ** What the merged frame holds *)

Definition unique_dates (s : series) : Prop := List.NoDup (dates s).

(** The value a series has at a date, if it has one. *)
Definition lookup_date (s : series) (k : Z) : option Q :=
  match rows_at k s with
  | [] => None
  | r :: _ => Some (snd r)
  end.

(** The row of date k in the outer join of the series [ss]. *)
Definition expected_row (ss : list series) (k : Z) : row :=
  (k, map (fun s => lookup_date s k) ss).

(** The merged frame has one row per date of the union, holding what each
    series has at that date. *)
Definition joined (ss : list series) (t : table) : Prop :=
  t = map (expected_row ss) (dates t) /\
  List.NoDup (dates t) /\
  (forall d, In d (dates t) <-> exists s, In s ss /\ In d (dates s)).

(** ** Forward fill carries the last observation *)

(** [o] is what series [s] last showed at a date <= t (resp. < t): the value
    of its latest such date, or nothing if it has no such date. *)
Definition last_at_or_before (s : series) (t : Z) (o : option Q) : Prop :=
  match o with
  | Some v =>
      exists d, In (d, v) s /\ d <= t /\
                forall d', In d' (dates s) -> d' <= t -> d' <= d
  | None => forall d', In d' (dates s) -> t < d'
  end.

Definition last_before (s : series) (t : Z) (o : option Q) : Prop :=
  match o with
  | Some v =>
      exists d, In (d, v) s /\ d < t /\
                forall d', In d' (dates s) -> d' < t -> d' <= d
  | None => forall d', In d' (dates s) -> t <= d'
  end.

(** Every date of every series is a row of [L], or lies before all of them. *)
Definition covers (ss : list series) (L : table) : Prop :=
  forall s d, In s ss -> In d (dates s) ->
    In d (dates L) \/ forall t, In t (dates L) -> d < t.

Definition all_present (cells : list (option Q)) : bool :=
  forallb (fun c => match c with Some _ => true | None => false end) cells.

(** ** Properties of the aligner *)

Example aligned_three :
  build_aligned [weekly; daily; other] =
  [ (3, [Some (inject_Z 100); Some (inject_Z 5); Some (inject_Z 1)]);
    (4, [Some (inject_Z 100); Some (inject_Z 6); Some (inject_Z 1)]);
    (8, [Some (inject_Z 110); Some (inject_Z 6); Some (inject_Z 2)]);
    (9, [Some (inject_Z 110); Some (inject_Z 7); Some (inject_Z 2)]) ].
Proof. reflexivity. Qed.

Example aligned_disjoint :
  build_aligned [early; late] =
  [ (5, [Some (inject_Z 11); Some (inject_Z 20)]); (6, [Some (inject_Z 11); Some (inject_Z 21)]) ].
Proof. reflexivity. Qed.

Lemma rows_at_In {X} (k : Z) (l : list (Z * X)) (r : Z * X) :
  In r (rows_at k l) <-> In r l /\ fst r = k.
Proof. unfold rows_at. rewrite filter_In, Z.eqb_eq. reflexivity. Qed.

Lemma rows_at_nil {X} (k : Z) (l : list (Z * X)) :
  rows_at k l = [] <-> ~ In k (dates l).
Proof.
  unfold dates. split.
  - intros E Hin. apply in_map_iff in Hin. destruct Hin as (r & Hk & Hr).
    assert (H : In r (rows_at k l)) by (apply rows_at_In; auto).
    rewrite E in H. destruct H.
  - intros Hni. destruct (rows_at k l) as [|r rs] eqn:E; [reflexivity|].
    exfalso. apply Hni. assert (H : In r (rows_at k l)) by (rewrite E; now left).
    apply rows_at_In in H. destruct H as [H <-]. now apply in_map.
Qed.

Lemma rows_at_unique {X} (k : Z) (l : list (Z * X)) :
  List.NoDup (dates l) ->
  rows_at k l = [] \/ exists x, rows_at k l = [(k, x)] /\ In (k, x) l.
Proof.
  induction l as [|[d x] l IH]; simpl; intros Hnd; [now left|].
  inversion Hnd as [|? ? Hni Hnd']; subst.
  destruct (Z.eqb_spec d k) as [->|Hne].
  - right. exists x. split; [|now left].
    f_equal. now apply rows_at_nil.
  - destruct (IH Hnd') as [E|(y & E & Hy)]; [now left|].
    right. exists y. split; [exact E|now right].
Qed.

Lemma lookup_date_Some (s : series) (k : Z) (v : Q) :
  unique_dates s -> (lookup_date s k = Some v <-> In (k, v) s).
Proof.
  intros Hnd. unfold lookup_date.
  destruct (rows_at_unique k s Hnd) as [E|(x & E & Hx)]; rewrite E.
  - split; [discriminate|]. intros Hin.
    apply rows_at_nil in E. exfalso. apply E.
    change k with (fst (k, v)). now apply in_map.
  - simpl. split.
    + intros H. injection H as <-. exact Hx.
    + intros Hin. f_equal.
      assert (H : In (k, v) (rows_at k s)) by (apply rows_at_In; auto).
      rewrite E in H. destruct H as [H|[]]. now inversion H.
Qed.

Lemma lookup_date_None (s : series) (k : Z) :
  lookup_date s k = None <-> ~ In k (dates s).
Proof.
  unfold lookup_date. rewrite <- rows_at_nil.
  destruct (rows_at k s); split; congruence.
Qed.

Lemma flat_map_singleton {A B} (f : A -> list B) (g : A -> B) (l : list A) :
  (forall x, In x l -> f x = [g x]) -> flat_map f l = map g l.
Proof.
  induction l as [|x l IH]; simpl; intros H; [reflexivity|].
  rewrite H by now left. simpl. f_equal. apply IH. intros; apply H; now right.
Qed.

Lemma dates_expected (ss : list series) (keys : list Z) :
  dates (map (expected_row ss) keys) = keys.
Proof. unfold dates. rewrite map_map. simpl. apply map_id. Qed.

Lemma outer_keys_In (l r : list Z) (k : Z) :
  In k (outer_keys l r) <-> In k l \/ In k r.
Proof. unfold outer_keys. rewrite isort_In, nodup_In. apply in_app_iff. Qed.

Lemma outer_keys_NoDup (l r : list Z) : List.NoDup (outer_keys l r).
Proof.
  unfold outer_keys. eapply Permutation_NoDup; [symmetry; apply isort_perm|].
  apply List.NoDup_nodup.
Qed.

Lemma joined_row (ss : list series) (t : table) (k : Z) (cells : list (option Q)) :
  joined ss t -> In (k, cells) t -> cells = map (fun s => lookup_date s k) ss.
Proof.
  intros (Heq & _ & _) Hin. rewrite Heq in Hin. apply in_map_iff in Hin.
  destruct Hin as (k' & Hr & _). unfold expected_row in Hr.
  injection Hr as -> <-. reflexivity.
Qed.

Lemma joined_of_series (s : series) : unique_dates s -> joined [s] (of_series s).
Proof.
  intros Hnd. unfold joined, of_series, dates. rewrite !map_map. simpl.
  split; [|split].
  - apply map_ext_in. intros [d v] Hin. unfold expected_row. simpl.
    do 2 f_equal. symmetry. now apply lookup_date_Some.
  - exact Hnd.
  - intros d. split.
    + intros H. exists s. split; [now left|exact H].
    + intros (s' & [<-|[]] & H). exact H.
Qed.

Lemma map_lookup_none (ss : list series) (k : Z) :
  (forall s, In s ss -> ~ In k (dates s)) ->
  map (fun s => lookup_date s k) ss = repeat None (length ss).
Proof.
  induction ss as [|s ss IH]; simpl; intros H; [reflexivity|].
  f_equal.
  - apply lookup_date_None, H. now left.
  - apply IH. intros s0 Hs0. apply H. now right.
Qed.

Lemma joined_merge_outer (ss : list series) (t : table) (s' : series) :
  joined ss t -> unique_dates s' ->
  joined (ss ++ [s']) (merge_outer (length ss) t s').
Proof.
  intros Hj Hnd'. pose proof Hj as (Heq & Hnd & Hdates).
  assert (Hm : merge_outer (length ss) t s' =
               map (expected_row (ss ++ [s'])) (outer_keys (dates t) (dates s'))).
  { unfold merge_outer. apply flat_map_singleton. intros k Hk.
    apply outer_keys_In in Hk.
    unfold expected_row. rewrite map_app. simpl.
    destruct (rows_at_unique k t Hnd) as [El|(cells & El & Hcells)];
      destruct (rows_at_unique k s' Hnd') as [Er|(v & Er & Hv)];
      rewrite El, Er; simpl.
    - exfalso. apply rows_at_nil in El, Er. tauto.
    - apply (@lookup_date_Some s' k v Hnd') in Hv. rewrite Hv.
      do 3 f_equal. symmetry. apply map_lookup_none.
      intros s Hs Hin. apply rows_at_nil in El. apply El, Hdates. eauto.
    - rewrite (@joined_row ss t k cells Hj Hcells).
      assert (E : lookup_date s' k = None) by (unfold lookup_date; now rewrite Er).
      now rewrite E.
    - rewrite (@joined_row ss t k cells Hj Hcells).
      apply (@lookup_date_Some s' k v Hnd') in Hv. now rewrite Hv. }
  rewrite Hm. unfold joined. rewrite dates_expected.
  split; [reflexivity|]. split; [apply outer_keys_NoDup|].
  intros d. rewrite outer_keys_In, Hdates. split.
  - intros [(s & Hs & Hd)|Hd].
    + exists s. split; [apply in_or_app; now left|exact Hd].
    + exists s'. split; [apply in_or_app; right; now left|exact Hd].
  - intros (s & Hs & Hd). apply in_app_or in Hs. destruct Hs as [Hs|[<-|[]]].
    + left. eauto.
    + now right.
Qed.

Lemma joined_merge_all (ss : list series) :
  ss <> [] -> Forall unique_dates ss -> joined ss (merge_all ss).
Proof.
  intros Hne Hall. destruct ss as [|s rest]; [congruence|]. clear Hne.
  inversion Hall as [|? ? Hs Hrest]; subst. unfold merge_all.
  change (s :: rest) with ([s] ++ rest).
  assert (H0 : joined [s] (of_series s)) by now apply joined_of_series.
  assert (Hw : 1%nat = length [s]) by reflexivity.
  revert H0 Hw. generalize (of_series s) as t. generalize 1%nat as w.
  generalize [s] as done. clear Hs Hall.
  induction Hrest as [|s' rest Hs' Hrest IH]; intros done w t Hj Hw; simpl.
  - now rewrite app_nil_r.
  - replace (done ++ s' :: rest) with ((done ++ [s']) ++ rest)
      by now rewrite <- app_assoc.
    apply IH.
    + subst w. now apply joined_merge_outer.
    + rewrite length_app. simpl. lia.
Qed.

Lemma sorted_le_NoDup_lt (l : list Z) :
  StronglySorted Z.le l -> List.NoDup l -> StronglySorted Z.lt l.
Proof.
  induction 1 as [|x l Hs IH Hx]; intros Hnd; constructor;
    inversion Hnd as [|? ? Hni Hnd']; subst.
  - now apply IH.
  - rewrite Forall_forall in *. intros y Hy.
    specialize (Hx y Hy). assert (x <> y) by (intros ->; contradiction). lia.
Qed.

(** The frame that is forward-filled: the sorted outer join. *)
Lemma sorted_join (ss : list series) :
  ss <> [] -> Forall unique_dates ss ->
  StronglySorted Z.lt (dates (sort_by_date (merge_all ss))) /\
  (forall k cells, In (k, cells) (sort_by_date (merge_all ss)) ->
     cells = map (fun s => lookup_date s k) ss) /\
  (forall d, In d (dates (sort_by_date (merge_all ss))) <->
     exists s, In s ss /\ In d (dates s)).
Proof.
  intros Hne Hall. pose proof (joined_merge_all Hne Hall) as Hj.
  pose proof Hj as (_ & Hnd & Hdates).
  assert (Hperm : Permutation (dates (sort_by_date (merge_all ss)))
                              (dates (merge_all ss))).
  { unfold dates, sort_by_date. apply Permutation_map, isort_perm. }
  split; [|split].
  - apply sorted_le_NoDup_lt; [apply sort_by_date_sorted|].
    eapply Permutation_NoDup; [symmetry; exact Hperm|exact Hnd].
  - intros k cells Hin. unfold sort_by_date in Hin. apply isort_In in Hin.
    exact (@joined_row ss _ k cells Hj Hin).
  - intros d. rewrite <- Hdates.
    split; apply Permutation_in; [|symmetry]; exact Hperm.
Qed.

Lemma fill_cell_last (s : series) (t : Z) (above : option Q) :
  unique_dates s -> last_before s t above ->
  last_at_or_before s t (fill_cell (lookup_date s t) above).
Proof.
  intros Hnd Hab. destruct (lookup_date s t) as [v|] eqn:E; simpl.
  - apply (@lookup_date_Some s t v Hnd) in E.
    exists t. split; [exact E|]. split; [lia|auto].
  - apply lookup_date_None in E. destruct above as [v|]; simpl in *.
    + destruct Hab as (d & Hd & Hlt & Hmax). exists d.
      split; [exact Hd|]. split; [lia|].
      intros d' Hd' Hle. apply Hmax; [exact Hd'|].
      assert (d' <> t) by (intros ->; contradiction). lia.
    + intros d' Hd'. specialize (Hab d' Hd').
      assert (d' <> t) by (intros ->; contradiction). lia.
Qed.

Lemma last_carries_over (s : series) (t t' : Z) (o : option Q) :
  last_at_or_before s t o -> t < t' ->
  (forall d, In d (dates s) -> ~ (t < d < t')) ->
  last_before s t' o.
Proof.
  intros Hlo Hlt Hgap. destruct o as [v|]; simpl in *.
  - destruct Hlo as (d & Hd & Hle & Hmax). exists d.
    split; [exact Hd|]. split; [lia|].
    intros d' Hd' Hlt'. apply Hmax; [exact Hd'|].
    specialize (Hgap d' Hd'). lia.
  - intros d' Hd'. specialize (Hlo d' Hd'). specialize (Hgap d' Hd'). lia.
Qed.

Lemma Forall2_fill (ss : list series) (t : Z) (above : list (option Q)) :
  Forall unique_dates ss ->
  Forall2 (fun s o => last_before s t o) ss above ->
  Forall2 (fun s o => last_at_or_before s t o) ss
          (zip_with fill_cell (map (fun s => lookup_date s t) ss) above).
Proof.
  intros Hall H. induction H as [|s o ss above Hso H IH]; simpl; [constructor|].
  inversion Hall; subst. constructor; [now apply fill_cell_last|now apply IH].
Qed.

Lemma Forall2_impl_In {A B} (P R : A -> B -> Prop) (l : list A) (l' : list B) :
  (forall a b, In a l -> P a b -> R a b) -> Forall2 P l l' -> Forall2 R l l'.
Proof.
  intros H HF. induction HF as [|a b l l' Hab HF IH]; constructor.
  - apply H; [now left|exact Hab].
  - apply IH. intros a' b' Ha'. apply H. now right.
Qed.

Lemma ffill_rows_spec (ss : list series) (L : table) (above : list (option Q)) :
  Forall unique_dates ss ->
  StronglySorted Z.lt (dates L) ->
  (forall k cells, In (k, cells) L -> cells = map (fun s => lookup_date s k) ss) ->
  covers ss L ->
  (forall r, head L = Some r ->
     Forall2 (fun s o => last_before s (fst r) o) ss above) ->
  Forall2 (fun r r' =>
             fst r' = fst r /\
             Forall2 (fun s o => last_at_or_before s (fst r) o) ss (snd r'))
          L (ffill_rows above L).
Proof.
  intros Hall. revert above.
  induction L as [|[t cells] rest IH]; intros above Hs Hrows Hcov Hab; simpl;
    [constructor|].
  assert (Ecells : cells = map (fun s => lookup_date s t) ss)
    by (apply Hrows; now left).
  assert (Hfilled : Forall2 (fun s o => last_at_or_before s t o) ss
                            (zip_with fill_cell cells above)).
  { rewrite Ecells. apply Forall2_fill; [exact Hall|]. now apply (Hab (t, cells)). }
  simpl in Hs. inversion Hs as [|? ? Hs' Hlt]; subst.
  constructor; [split; [reflexivity|exact Hfilled]|].
  apply IH.
  - exact Hs'.
  - intros k c Hin. apply Hrows. now right.
  - intros s d Hsin Hd. destruct (Hcov s d Hsin Hd) as [[<-|Hin]|Hbefore].
    + right. intros t' Ht'. rewrite Forall_forall in Hlt. now apply Hlt.
    + now left.
    + right. intros t' Ht'. apply Hbefore. now right.
  - intros [t' c'] Hhead. destruct rest as [|r0 rest']; [discriminate|].
    injection Hhead as ->. simpl.
    assert (Htt' : t < t').
    { rewrite Forall_forall in Hlt. apply Hlt. now left. }
    eapply Forall2_impl_In; [|exact Hfilled]. simpl.
    intros s o Hsin Hlo. apply (@last_carries_over s t t' o Hlo Htt').
    intros d Hd Hgap. simpl in Hs'. inversion Hs' as [|? ? _ Hlt']; subst.
    rewrite Forall_forall in Hlt'.
    destruct (Hcov s d Hsin Hd) as [[<-|[<-|Hin]]|Hbefore].
    + simpl in Hgap. lia.
    + simpl in Hgap. lia.
    + specialize (Hlt' d Hin). lia.
    + specialize (Hbefore t). simpl in Hbefore.
      assert (d < t) by (apply Hbefore; now left). lia.
Qed.

Lemma Forall2_repeat {A B} (P : A -> B -> Prop) (l : list A) (b : B) :
  (forall a, In a l -> P a b) -> Forall2 P l (repeat b (length l)).
Proof.
  induction l as [|a l IH]; simpl; intros H; constructor.
  - apply H. now left.
  - apply IH. intros a' Ha'. apply H. now right.
Qed.

Lemma Forall2_In_r {A B} (P : A -> B -> Prop) (l : list A) (l' : list B) (b : B) :
  Forall2 P l l' -> In b l' -> exists a, In a l /\ P a b.
Proof.
  induction 1 as [|a b' l l' Hab _ IH]; simpl; [tauto|].
  intros [<-|Hin].
  - exists a. auto.
  - destruct (IH Hin) as (a' & Ha' & HP). exists a'. auto.
Qed.

Lemma Forall2_In_l {A B} (P : A -> B -> Prop) (l : list A) (l' : list B) (a : A) :
  Forall2 P l l' -> In a l -> exists b, In b l' /\ P a b.
Proof.
  induction 1 as [|a' b l l' Hab _ IH]; simpl; [tauto|].
  intros [<-|Hin].
  - exists b. auto.
  - destruct (IH Hin) as (b' & Hb' & HP). exists b'. auto.
Qed.

Lemma Forall2_nth_error {A B} (P : A -> B -> Prop) (l : list A) (l' : list B)
    (i : nat) (a : A) :
  Forall2 P l l' -> nth_error l i = Some a ->
  exists b, nth_error l' i = Some b /\ P a b.
Proof.
  intros H. revert i. induction H as [|a' b l l' Hab _ IH]; intros [|i] Hi;
    simpl in *; try discriminate.
  - injection Hi as <-. eauto.
  - now apply IH.
Qed.

Lemma sorted_dates_filter (f : row -> bool) (t : table) :
  StronglySorted Z.lt (dates t) -> StronglySorted Z.lt (dates (filter f t)).
Proof.
  induction t as [|r t IH]; simpl; intros Hs; [constructor|].
  inversion Hs as [|? ? Hs' Hlt]; subst.
  destruct (f r); simpl; [|now apply IH].
  constructor; [now apply IH|].
  rewrite Forall_forall in *. intros d Hd. apply Hlt.
  unfold dates in *. apply in_map_iff in Hd. destruct Hd as (r' & <- & Hr').
  apply filter_In in Hr'. apply in_map. tauto.
Qed.

(** The forward-filled frame, row by row. *)
Lemma ffill_sorted_join (ss : list series) :
  ss <> [] -> Forall unique_dates ss ->
  Forall2 (fun r r' =>
             fst r' = fst r /\
             Forall2 (fun s o => last_at_or_before s (fst r) o) ss (snd r'))
          (sort_by_date (merge_all ss))
          (ffill (length ss) (sort_by_date (merge_all ss))).
Proof.
  intros Hne Hall. destruct (sorted_join Hne Hall) as (Hs & Hrows & Hdates).
  unfold ffill. apply ffill_rows_spec; try assumption.
  - intros s d Hs0 Hd. left. apply Hdates. eauto.
  - intros [t1 c1] Hhead. apply Forall2_repeat. intros s Hsin d' Hd'.
    assert (Hin : In d' (dates (sort_by_date (merge_all ss))))
      by (apply Hdates; eauto).
    destruct (sort_by_date (merge_all ss)) as [|r0 rest]; [discriminate|].
    injection Hhead as ->. simpl in *.
    inversion Hs as [|? ? _ Hlt]; subst. rewrite Forall_forall in Hlt.
    destruct Hin as [<-|Hin]; [lia|]. specialize (Hlt d' Hin). lia.
Qed.

Lemma all_present_last (ss : list series) (t : Z) (cells : list (option Q)) :
  Forall2 (fun s o => last_at_or_before s t o) ss cells ->
  (all_present cells = true <->
   forall s, In s ss -> exists d, In d (dates s) /\ d <= t).
Proof.
  induction 1 as [|s o ss cells Hso _ IH]; simpl.
  - split; [intros _ s []|reflexivity].
  - rewrite andb_true_iff, IH. split.
    + intros [Ho Hrest] s' [<-|Hs']; [|now apply Hrest].
      destruct o as [v|]; [|discriminate]. simpl in Hso.
      destruct Hso as (d & Hd & Hle & _). exists d. split; [|exact Hle].
      unfold dates. change d with (fst (d, v)). now apply in_map.
    + intros H. split; [|intros s' Hs'; apply H; now right].
      destruct o as [v|]; [reflexivity|]. simpl in Hso.
      destruct (H s) as (d & Hd & Hle); [now left|].
      specialize (Hso d Hd). lia.
Qed.

Lemma max_date (l : list Z) :
  l <> [] -> exists m, In m l /\ forall x, In x l -> x <= m.
Proof.
  induction l as [|a l IH]; [congruence|]. intros _.
  destruct l as [|b l'].
  - exists a. split; [now left|]. intros x [<-|[]]. lia.
  - destruct IH as (m & Hm & Hmax); [discriminate|].
    destruct (Z_le_gt_dec a m).
    + exists m. split; [now right|]. intros x [<-|Hx]; [lia|now apply Hmax].
    + exists a. split; [now left|]. intros x [<-|Hx]; [lia|].
      specialize (Hmax x Hx). lia.
Qed.

Lemma Forall2_dates (P : row -> row -> Prop) (L L' : table) :
  Forall2 (fun r r' => fst r' = fst r /\ P r r') L L' -> dates L' = dates L.
Proof.
  induction 1 as [|r r' L L' [Hfst _] _ IH]; simpl; [reflexivity|].
  now rewrite Hfst, IH.
Qed.

Lemma build_aligned_unfold (ss : list series) :
  build_aligned ss =
  filter (fun r => all_present (snd r))
         (ffill (length ss) (sort_by_date (merge_all ss))).
Proof. reflexivity. Qed.

(** The dates kept by [dropna]: those of the union on which every series has
    already reported. *)
Lemma build_aligned_dates (ss : list series) (t : Z) :
  ss <> [] -> Forall unique_dates ss ->
  (In t (dates (build_aligned ss)) <->
   (exists s, In s ss /\ In t (dates s)) /\
   (forall s, In s ss -> exists d, In d (dates s) /\ d <= t)).
Proof.
  intros Hne Hall. destruct (sorted_join Hne Hall) as (_ & _ & Hdates).
  pose proof (ffill_sorted_join Hne Hall) as HF.
  rewrite build_aligned_unfold. unfold dates at 1. rewrite in_map_iff. split.
  - intros ([t' cells] & Ht & Hin). simpl in Ht. subst t'.
    apply filter_In in Hin. destruct Hin as [Hin Hall'].
    destruct (Forall2_In_r _ HF Hin) as ([t0 c0] & Hr & Hfst & Hlast).
    simpl in *. subst t0. split.
    + apply Hdates. unfold dates. apply in_map_iff. exists (t, c0). auto.
    + now apply (@all_present_last ss t cells Hlast).
  - intros [Hunion Hstarted]. apply Hdates in Hunion.
    unfold dates in Hunion. apply in_map_iff in Hunion.
    destruct Hunion as ([t0 c0] & Ht0 & Hr). simpl in Ht0. subst t0.
    destruct (Forall2_In_l _ HF Hr) as ([t' cells] & Hr' & Hfst & Hlast).
    simpl in *. subst t'. exists (t, cells). split; [reflexivity|].
    apply filter_In. split; [exact Hr'|]. simpl.
    now apply (@all_present_last ss t cells Hlast).
Qed.

(** C7 (as the code has it). For two or more series without repeated
    timestamps:
    - every cell of a retained row t is the value its series had at its
      latest timestamp <= t, never a later one;
    - the retained rows are, in chronological order, exactly the timestamps
      of the union at which every series has already reported, so all rows
      before the first such timestamp are dropped;
    - the result is empty exactly when one of the series has no observation
      (series that do not overlap in time still give rows). *)
Theorem build_aligned_last_observation (ss : list series) :
  ss <> [] -> Forall unique_dates ss ->
  (forall t cells, In (t, cells) (build_aligned ss) ->
     length cells = length ss /\
     forall i s, nth_error ss i = Some s ->
       exists d v,
         nth_error cells i = Some (Some v) /\ In (d, v) s /\ d <= t /\
         forall d', In d' (dates s) -> d' <= t -> d' <= d) /\
  StronglySorted Z.lt (dates (build_aligned ss)) /\
  (forall t, In t (dates (build_aligned ss)) <->
     (exists s, In s ss /\ In t (dates s)) /\
     (forall s, In s ss -> exists d, In d (dates s) /\ d <= t)) /\
  (build_aligned ss = [] <-> exists s, In s ss /\ s = []).
Proof.
  intros Hne Hall. destruct (sorted_join Hne Hall) as (Hsorted & _ & _).
  pose proof (ffill_sorted_join Hne Hall) as HF.
  split; [|split; [|split]].
  - intros t cells Hin. rewrite build_aligned_unfold in Hin.
    apply filter_In in Hin. destruct Hin as [Hin Hpresent].
    destruct (Forall2_In_r _ HF Hin) as ([t0 c0] & _ & Hfst & Hlast).
    simpl in *. subst t0. split.
    + symmetry. exact (Forall2_length Hlast).
    + intros i s Hi.
      destruct (Forall2_nth_error _ Hlast Hi) as (o & Ho & Hlo).
      destruct o as [v|].
      * simpl in Hlo. destruct Hlo as (d & Hd & Hle & Hmax).
        exists d, v. auto.
      * exfalso.
        destruct (proj1 (@all_present_last ss t cells Hlast) Hpresent s)
          as (d & Hd & Hle); [eapply nth_error_In; eauto|].
        specialize (Hlo d Hd). lia.
  - rewrite build_aligned_unfold. apply sorted_dates_filter.
    now rewrite (@Forall2_dates _ _ _ HF).
  - intros t. now apply build_aligned_dates.
  - split.
    + intros Hempty.
      destruct (Exists_dec (fun s : series => s = []) ss) as [Hex|Hnex].
      { intros [|? ?]; [now left|now right]. }
      { apply Exists_exists in Hex. exact Hex. }
      exfalso.
      assert (Hnonempty : forall s, In s ss -> exists d, In d (dates s)).
      { intros s Hs. destruct s as [|[d v] s'].
        - exfalso. apply Hnex, Exists_exists. eauto.
        - exists d. now left. }
      destruct (max_date (l := concat (map dates ss))) as (m & Hm & Hmax).
      { destruct ss as [|s0 ss']; [congruence|].
        destruct (Hnonempty s0) as (d & Hd); [now left|].
        simpl. intros E. apply app_eq_nil in E. destruct E as [E _].
        rewrite E in Hd. destruct Hd. }
      assert (Hin : In m (dates (build_aligned ss))).
      { apply build_aligned_dates; try assumption. split.
        - apply in_concat in Hm. destruct Hm as (l & Hl & Hml).
          apply in_map_iff in Hl. destruct Hl as (s & <- & Hs). eauto.
        - intros s Hs. destruct (Hnonempty s Hs) as (d & Hd).
          exists d. split; [exact Hd|]. apply Hmax.
          apply in_concat. exists (dates s). split; [now apply in_map|exact Hd]. }
      rewrite Hempty in Hin. destruct Hin.
    + intros (s & Hs & ->).
      destruct (build_aligned ss) as [|[t cells] T] eqn:E; [reflexivity|].
      exfalso.
      assert (Hin : In t (dates (build_aligned ss))) by (rewrite E; now left).
      apply build_aligned_dates in Hin; try assumption.
      destruct Hin as [_ Hstarted]. destruct (Hstarted [] Hs) as (d & [] & _).
Qed.

Lemma unique_dates_examples : Forall unique_dates [weekly; daily; other].
Proof.
  repeat constructor; simpl; intuition discriminate.
Qed.

Lemma build_aligned_last_observation_witness :
  (forall t cells, In (t, cells) (build_aligned [weekly; daily; other]) ->
     length cells = length [weekly; daily; other] /\
     forall i s, nth_error [weekly; daily; other] i = Some s ->
       exists d v,
         nth_error cells i = Some (Some v) /\ In (d, v) s /\ d <= t /\
         forall d', In d' (dates s) -> d' <= t -> d' <= d) /\
  StronglySorted Z.lt (dates (build_aligned [weekly; daily; other])) /\
  (forall t, In t (dates (build_aligned [weekly; daily; other])) <->
     (exists s, In s [weekly; daily; other] /\ In t (dates s)) /\
     (forall s, In s [weekly; daily; other] -> exists d, In d (dates s) /\ d <= t)) /\
  (build_aligned [weekly; daily; other] = [] <->
   exists s, In s [weekly; daily; other] /\ s = []).
Proof.
  apply (@build_aligned_last_observation [weekly; daily; other]).
  - discriminate.
  - exact unique_dates_examples.
Defined.

(** Why timestamps must not repeat: the readers keep both rows of a repeated
    timestamp, and the merge then pairs each of them with the other side. *)
Example aligned_repeated_timestamp :
  build_aligned [[(1, inject_Z 10); (1, inject_Z 11)]; [(1, inject_Z 20)]] =
  [ (1, [Some (inject_Z 10); Some (inject_Z 20)]);
    (1, [Some (inject_Z 11); Some (inject_Z 20)]) ].
Proof. reflexivity. Qed.

(** C7 (as the claim has it) fails in its last part: [early] ends before
    [late] starts, yet the aligned table has the two rows of [late], each
    carrying the last value of [early]. *)
Lemma never_overlapping_series_still_align :
  never_overlap early late /\ build_aligned [early; late] <> [].
Proof.
  split.
  - left. simpl. intros d1 d2 [<-|[<-|[]]] [<-|[<-|[]]]; lia.
  - discriminate.
Qed.

End Aligner.

(* ===================================================================== *)
(** * The feature master (05_build_gli_master.py)                         *)
(* ===================================================================== *)

Module Features.


Open Scope Q_scope.

(** ** The join of the two silver tables *)

(** [net.merge(gcb, on="date", how="inner")]: every pair of a left and a
    right row with the same date, in the order of the left rows.  (Both
    silver tables were written after a [dropna] on their date, so the
    re-coercion of "date" in this script leaves no NaT.) *)
Definition merge_inner {A B} (left : list (Z * A)) (right : list (Z * B))
  : list (Z * (A * B)) :=
  flat_map
    (fun l => map (fun r => (fst l, (snd l, snd r)))
                  (filter (fun r => (fst r =? fst l)%Z) right))
    left.

(** [net.merge(gcb, on="date", how="inner").sort_values("date")]; the
    [reset_index(drop=True)] that follows only renumbers the rows. *)
Definition build_master {A B} (net : list (Z * A)) (gcb : list (Z * B))
  : list (Z * (A * B)) :=
  sort_by_date (merge_inner net gcb).

(** ** Percent change *)

(** [Series.shift(k)]: row t receives row t-k, the first k rows NaN. *)
Definition shift {A} (k : nat) (col : list (fval A)) : list (fval A) :=
  firstn (length col) (repeat NaN k ++ col).

(** [Series.pct_change(k)]: [data / data.shift(k) - 1], row by row.  No
    missing cell is filled first: the script pins no pandas version, and
    pandas 3 does not pad (the releases before it padded the column by
    default, which changes nothing on a column without NaN). *)
Definition pct_change (k : nat) (col : list (fval Q)) : list (fval Q) :=
  zip_with (fun x d => fsub (fdiv x d) (Fin 1)) col (shift k col).

(** What the division leaves at a row whose lag-k value is exactly zero. *)
Definition zero_denominator_result (x : Q) : fval Q :=
  if Qeq_bool x 0 then NaN else if Qle_bool 0 x then PInf else NInf.

Definition is_inf {A} (x : fval A) : bool :=
  match x with PInf | NInf => true | _ => false end.

(** A column with a zero, a missing cell and an infinity in it. *)
Definition mixed_column : list (fval Q) :=
  [Fin 0; Fin 5; NaN; Fin 10; PInf; Fin 2; Fin 4].

(** ** Rolling windows *)

(** Rows max(0, t-w+1) .. t of a column. *)
Definition window {A} (s : list A) (w t : nat) : list A :=
  skipn (S t - w) (firstn (S t) s).

(** The observations of a window.  pandas' rolling code counts only finite
    values as observations: NaN and the infinities are all left out. *)
Definition observations {A} (win : list (fval A)) : list A :=
  flat_map (fun x => match x with Fin q => [q] | _ => [] end) win.

(** [s.rolling(w).apply(f)], with the default [min_periods = w]: a row whose
    window holds fewer than w observations is NaN and [f] is not called.
    (w = 0 is not reached: the callers pass 90 and 252.) *)
Definition rolling_apply {A} (f : list A -> fval A) (s : list (fval A)) (w : nat)
  : list (fval A) :=
  map (fun t =>
         let obs := observations (window s w t) in
         if (length obs <? w)%nat then NaN else f obs)
      (seq 0 (length s)).

(** ** Percentile rank *)

Definition QN (n : nat) : Q := inject_Z (Z.of_nat n).

(** The 1-based positions, in a sorted list, of the entries equal to x. *)
Fixpoint tie_positions (x : Q) (sorted : list Q) (pos : nat) : list nat :=
  match sorted with
  | [] => []
  | y :: rest =>
      if Qeq_bool y x then pos :: tie_positions x rest (S pos)
      else tie_positions x rest (S pos)
  end.

(** [Series.rank(pct=True)] at an entry x, with the default method
    "average": the mean of the positions that the entries tied with x take in
    sorted order, over the number of entries. *)
Definition rank_pct (vals : list Q) (x : Q) : Q :=
  let ps := tie_positions x (isort Qle_bool vals) 1 in
  (QN (list_sum ps) / QN (length ps)) / QN (length vals).

(** [lambda x: pd.Series(x).rank(pct=True).iloc[-1]]. *)
Definition last_rank_pct (vals : list Q) : fval Q :=
  match rev vals with
  | [] => NaN
  | x :: _ => Fin (rank_pct vals x)
  end.

Definition pct_rank (s : list (fval Q)) (w : nat) : list (fval Q) :=
  rolling_apply last_rank_pct s w.

Definition count_lt (x : Q) (l : list Q) : nat :=
  length (filter (fun y => negb (Qle_bool x y)) l).

Definition count_eq (x : Q) (l : list Q) : nat :=
  length (filter (fun y => Qeq_bool y x) l).

(** ** Properties of the feature master *)

Lemma merge_inner_In {A B} (net : list (Z * A)) (gcb : list (Z * B)) d a b :
  In (d, (a, b)) (merge_inner net gcb) <-> In (d, a) net /\ In (d, b) gcb.
Proof.
  unfold merge_inner. rewrite in_flat_map. split.
  - intros ([d1 a1] & Hl & Hin). apply in_map_iff in Hin.
    destruct Hin as ([d2 b2] & Heq & Hr). apply filter_In in Hr.
    simpl in *. destruct Hr as [Hr Hd]. apply Z.eqb_eq in Hd.
    injection Heq as -> -> ->. subst. auto.
  - intros [Hl Hr]. exists (d, a). split; [assumption|].
    apply in_map_iff. exists (d, b). split; [reflexivity|].
    apply filter_In. split; [assumption|]. simpl. apply Z.eqb_refl.
Qed.

(** C10. The feature master holds a row for a timestamp exactly when both
    inputs have one; each row pairs a net-liquidity row and a
    central-bank-assets row of that very timestamp (nothing is carried over
    from another date); the rows are in chronological order. *)
Theorem build_master_is_date_intersection
    {A B} (net : list (Z * A)) (gcb : list (Z * B)) :
  (forall d a b,
      In (d, (a, b)) (build_master net gcb) <-> In (d, a) net /\ In (d, b) gcb) /\
  (forall d,
      In d (map fst (build_master net gcb)) <->
      In d (map fst net) /\ In d (map fst gcb)) /\
  StronglySorted Z.le (map fst (build_master net gcb)).
Proof.
  assert (Hrow : forall d a b,
             In (d, (a, b)) (build_master net gcb) <->
             In (d, a) net /\ In (d, b) gcb).
  { intros d a b. unfold build_master, sort_by_date.
    rewrite isort_In. apply merge_inner_In. }
  split; [exact Hrow|]. split.
  - intros d. rewrite !in_map_iff. split.
    + intros ([d' [a b]] & Hd & Hin). simpl in Hd. subst d'.
      apply Hrow in Hin. destruct Hin as [Hn Hg].
      split; [exists (d, a)|exists (d, b)]; auto.
    + intros [([d1 a] & Hd1 & Hn) ([d2 b] & Hd2 & Hg)]. simpl in *. subst.
      exists (d, (a, b)). split; [reflexivity|]. apply Hrow. auto.
  - apply sort_by_date_sorted.
Qed.

Example build_master_drops_unmatched :
  build_master [(3, 30); (1, 10); (2, 20)]%Z [(2, 200); (4, 400); (3, 300)]%Z
  = [(2, (20, 200)); (3, (30, 300))]%Z.
Proof. reflexivity. Qed.

Lemma nth_error_zip_with {A B C} (f : A -> B -> C) xs ys t :
  nth_error (zip_with f xs ys) t =
  match nth_error xs t, nth_error ys t with
  | Some x, Some y => Some (f x y)
  | _, _ => None
  end.
Proof.
  revert ys t. induction xs as [|x xs IH]; intros [|y ys] [|t]; simpl;
    try reflexivity.
  - now destruct (nth_error xs t).
  - apply IH.
Qed.

Lemma nth_error_repeat {A} (a : A) (k t : nat) :
  (t < k)%nat -> nth_error (repeat a k) t = Some a.
Proof.
  revert t. induction k as [|k IH]; intros [|t] H; simpl; try lia; auto.
  apply IH. lia.
Qed.

Lemma nth_error_shift {A} (k : nat) (col : list (fval A)) (t : nat) :
  (t < length col)%nat ->
  nth_error (shift k col) t =
  if (t <? k)%nat then Some NaN else nth_error col (t - k).
Proof.
  intros Ht. unfold shift. rewrite nth_error_firstn.
  destruct (Nat.ltb_spec t (length col)); [|lia].
  destruct (Nat.ltb_spec t k).
  - rewrite nth_error_app1 by now rewrite repeat_length.
    now apply nth_error_repeat.
  - rewrite nth_error_app2 by now rewrite repeat_length.
    now rewrite repeat_length.
Qed.

Lemma pct_change_row (col : list (fval Q)) (k t : nat) (x : fval Q) :
  nth_error col t = Some x ->
  nth_error (pct_change k col) t =
  if (t <? k)%nat then Some NaN
  else match nth_error col (t - k) with
       | Some d => Some (fsub (fdiv x d) (Fin 1))
       | None => None
       end.
Proof.
  intros Hx. unfold pct_change.
  rewrite nth_error_zip_with, Hx, nth_error_shift
    by (apply nth_error_Some; congruence).
  destruct (t <? k)%nat; [now destruct x|].
  now destruct (nth_error col (t - k)).
Qed.

(** C4 (as the code has it). The percent change at row t is computed as
    v[t] / v[t-k] - 1 and never raises.  It is missing when the column has
    no row t-k and when v[t] or v[t-k] is missing.  On two finite cells it is
    the finite value (v[t] - v[t-k]) / v[t-k] when v[t-k] is not zero; when
    v[t-k] is exactly zero it is +inf or -inf by the sign of v[t], and
    missing only if v[t] is zero as well.  Where a cell is infinite: a finite
    v[t] over an infinite v[t-k] gives -1, an infinite v[t] over a finite
    v[t-k] gives an infinity, and an infinity over an infinity is missing. *)
Theorem pct_change_cells (col : list (fval Q)) (k t : nat) (x : fval Q) :
  nth_error col t = Some x ->
  ((t < k)%nat -> nth_error (pct_change k col) t = Some NaN) /\
  (forall d, (k <= t)%nat -> nth_error col (t - k) = Some d ->
     (isna x = true \/ isna d = true ->
        nth_error (pct_change k col) t = Some NaN) /\
     (forall a b, x = Fin a -> d = Fin b ->
        (~ b == 0 ->
           exists r, nth_error (pct_change k col) t = Some (Fin r) /\
                     r == (a - b) / b) /\
        (b == 0 ->
           nth_error (pct_change k col) t = Some (zero_denominator_result a))) /\
     (forall a, x = Fin a -> is_inf d = true ->
        exists r, nth_error (pct_change k col) t = Some (Fin r) /\ r == -1) /\
     (forall b, is_inf x = true -> d = Fin b ->
        exists y, nth_error (pct_change k col) t = Some y /\ is_inf y = true /\
                  (y = x <-> Qle_bool 0 b = true)) /\
     (is_inf x = true -> is_inf d = true ->
        nth_error (pct_change k col) t = Some NaN)).
Proof.
  intros Hx. pose proof (@pct_change_row col k t x Hx) as Hrow. split.
  - intros Hlt. rewrite Hrow.
    destruct (Nat.ltb_spec t k); [reflexivity|lia].
  - intros d Hle Hd. rewrite Hrow, Hd.
    destruct (Nat.ltb_spec t k); [lia|].
    split; [|split; [|split; [|split]]].
    + intros [Hna|Hna]; [destruct x|destruct x, d]; try discriminate;
        reflexivity.
    + intros a b -> ->. split.
      * intros Hnz. unfold fdiv. cbn [a_is_zero a_is_neg a_div Arith_Q].
        destruct (Qeq_bool b 0) eqn:E; [apply Qeq_bool_iff in E; contradiction|].
        unfold fsub. cbn [a_sub Arith_Q].
        eexists. split; [reflexivity|]. field. exact Hnz.
      * intros Hz. unfold fdiv. cbn [a_is_zero a_is_neg a_div Arith_Q].
        apply Qeq_bool_iff in Hz. rewrite Hz.
        unfold zero_denominator_result.
        destruct (Qeq_bool a 0); [reflexivity|].
        now destruct (Qle_bool 0 a).
    + intros a -> Hinf. destruct d; try discriminate;
        (eexists; split; [reflexivity|]; cbn [a_zero a_sub Arith_Q]; lra).
    + intros b Hinf ->. destruct x; try discriminate;
        unfold fdiv; cbn [a_is_neg Arith_Q];
        destruct (Qle_bool 0 b); cbn [negb fsub];
        (eexists; split; [reflexivity|]; split; [reflexivity|]);
        split; intros Hyx; try reflexivity; discriminate.
    + intros Hx' Hd'. destruct x, d; try discriminate; reflexivity.
Qed.

(** Row by row on [mixed_column] with lag 1: no earlier row; a zero
    denominator; a missing cell; a missing denominator; an infinity over a
    finite value; a finite value over an infinity; two finite values. *)
Lemma pct_change_cells_witness :
  nth_error (pct_change 1 mixed_column) 0 = Some NaN /\
  nth_error (pct_change 1 mixed_column) 1 = Some PInf /\
  nth_error (pct_change 1 mixed_column) 2 = Some NaN /\
  nth_error (pct_change 1 mixed_column) 3 = Some NaN /\
  (exists y, nth_error (pct_change 1 mixed_column) 4 = Some y /\ is_inf y = true) /\
  (exists r, nth_error (pct_change 1 mixed_column) 5 = Some (Fin r) /\ r == -1) /\
  (exists r, nth_error (pct_change 1 mixed_column) 6 = Some (Fin r) /\
             r == (4 - 2) / 2).
Proof.
  split.
  { apply (@pct_change_cells mixed_column 1 0 (Fin 0) eq_refl). lia. }
  split.
  { destruct (@pct_change_cells mixed_column 1 1 (Fin 5) eq_refl) as [_ H].
    destruct (H (Fin 0) ltac:(lia) eq_refl) as (_ & Hfin & _).
    destruct (Hfin 5 0 eq_refl eq_refl) as [_ Hz].
    exact (Hz ltac:(reflexivity)). }
  split.
  { destruct (@pct_change_cells mixed_column 1 2 NaN eq_refl) as [_ H].
    destruct (H (Fin 5) ltac:(lia) eq_refl) as (Hna & _).
    apply Hna. now left. }
  split.
  { destruct (@pct_change_cells mixed_column 1 3 (Fin 10) eq_refl) as [_ H].
    destruct (H NaN ltac:(lia) eq_refl) as (Hna & _).
    apply Hna. now right. }
  split.
  { destruct (@pct_change_cells mixed_column 1 4 PInf eq_refl) as [_ H].
    destruct (H (Fin 10) ltac:(lia) eq_refl) as (_ & _ & _ & Hinf & _).
    destruct (Hinf 10 eq_refl eq_refl) as (y & Hy & Hi & _).
    exists y. split; [exact Hy|exact Hi]. }
  split.
  { destruct (@pct_change_cells mixed_column 1 5 (Fin 2) eq_refl) as [_ H].
    destruct (H PInf ltac:(lia) eq_refl) as (_ & _ & Hinf & _).
    exact (Hinf 2 eq_refl eq_refl). }
  destruct (@pct_change_cells mixed_column 1 6 (Fin 4) eq_refl) as [_ H].
  destruct (H (Fin 2) ltac:(lia) eq_refl) as (_ & Hfin & _).
  destruct (Hfin 4 2 eq_refl eq_refl) as [Hnz _].
  apply Hnz. intros E. discriminate E.
Defined.

(** C4 (as the claim has it) fails: a zero at row 0 followed by a non-zero
    value gives +inf at row 1, and +inf is not a missing value. *)
Lemma pct_change_zero_denominator_gives_infinity :
  nth_error [0; 5; 10; 0] 0 = Some 0 /\
  nth_error (pct_change 1 (map Fin [0; 5; 10; 0])) 1 = Some PInf /\
  isna (@PInf Q) = false.
Proof. repeat split. Qed.

Example pct_change_rows :
  pct_change 1 (map Fin [0; 5; 10; 0]) = [NaN; PInf; Fin ((10 / 5) - 1); Fin ((0 / 10) - 1)].
Proof. reflexivity. Qed.

(** A missing cell is not filled: the rows next to it are missing too. *)
Example pct_change_missing_rows :
  pct_change 1 [Fin 4; NaN; Fin 8; NaN; NaN; Fin 2] = [NaN; NaN; NaN; NaN; NaN; NaN].
Proof. reflexivity. Qed.

Lemma QN_add (a b : nat) : QN (a + b) == QN a + QN b.
Proof. unfold QN. now rewrite Nat2Z.inj_add, inject_Z_plus. Qed.

Lemma QN_mul (a b : nat) : QN (a * b) == QN a * QN b.
Proof. unfold QN. now rewrite Nat2Z.inj_mul, inject_Z_mult. Qed.

Lemma QN_le (a b : nat) : (a <= b)%nat -> QN a <= QN b.
Proof. intros H. unfold QN. rewrite <- Zle_Qle. lia. Qed.

Lemma QN_pos (a : nat) : (1 <= a)%nat -> 0 < QN a.
Proof. intros H. unfold QN. replace 0 with (inject_Z 0) by reflexivity. rewrite <- Zlt_Qlt. lia. Qed.

Lemma Qle_bool_total (a b : Q) : Qle_bool a b = true \/ Qle_bool b a = true.
Proof.
  rewrite !Qle_bool_iff. destruct (Qlt_le_dec a b); [left|right]; lra.
Qed.

Lemma Qle_bool_trans (a b c : Q) :
  Qle_bool a b = true -> Qle_bool b c = true -> Qle_bool a c = true.
Proof. rewrite !Qle_bool_iff. apply Qle_trans. Qed.

Lemma Qle_bool_false (a b : Q) : Qle_bool a b = false <-> b < a.
Proof.
  split.
  - intros H. apply Qnot_le_lt. intros Hle. apply Qle_bool_iff in Hle. congruence.
  - intros H. destruct (Qle_bool a b) eqn:E; [|reflexivity].
    apply Qle_bool_iff in E. lra.
Qed.

Lemma Qeq_bool_false (a b : Q) : Qeq_bool a b = false <-> ~ a == b.
Proof.
  split.
  - intros H Heq. apply Qeq_bool_iff in Heq. congruence.
  - intros H. destruct (Qeq_bool a b) eqn:E; [|reflexivity].
    apply Qeq_bool_iff in E. contradiction.
Qed.

Lemma count_perm (f : Q -> bool) (l l' : list Q) :
  Permutation l l' -> length (filter f l) = length (filter f l').
Proof.
  induction 1 as [|x l l' _ IH|x y l|l l' l'' _ IH1 _ IH2]; simpl.
  - reflexivity.
  - destruct (f x); simpl; congruence.
  - destruct (f x), (f y); reflexivity.
  - congruence.
Qed.

Lemma length_tie_positions (x : Q) (l : list Q) (p : nat) :
  length (tie_positions x l p) = count_eq x l.
Proof.
  unfold count_eq. revert p. induction l as [|y l IH]; intros p; simpl; [reflexivity|].
  destruct (Qeq_bool y x); simpl; now rewrite IH.
Qed.

Lemma no_tie_above (x : Q) (l : list Q) (p : nat) :
  Forall (fun z => x < z) l -> tie_positions x l p = [] /\ count_eq x l = 0%nat.
Proof.
  unfold count_eq. intros H. revert p.
  induction H as [|z l Hz _ IH]; intros p; simpl; [auto|].
  assert (E : Qeq_bool z x = false) by (apply Qeq_bool_false; lra).
  rewrite E. apply IH.
Qed.

Lemma count_lt_none (x : Q) (l : list Q) :
  Forall (fun z => x <= z) l -> count_lt x l = 0%nat.
Proof.
  unfold count_lt. induction 1 as [|z l Hz _ IH]; simpl; [reflexivity|].
  apply Qle_bool_iff in Hz. now rewrite Hz.
Qed.

(** In a sorted list the entries tied with x sit in one block, right after
    the entries below x: twice the sum of their positions is
    e * (2 * (p + less) + e - 1), with e ties and the first entry at
    position p. *)
Lemma sum_tie_positions (x : Q) (l : list Q) (p : nat) :
  sorted_by Qle_bool l ->
  (2 * list_sum (tie_positions x l p) + count_eq x l =
   count_eq x l * (2 * (p + count_lt x l) + count_eq x l))%nat.
Proof.
  intros Hs. revert p.
  induction Hs as [|y l Hs IH Hy]; intros p; [reflexivity|].
  assert (Hy' : Forall (fun z => y <= z) l).
  { eapply Forall_impl; [|exact Hy]. intros z. apply Qle_bool_iff. }
  specialize (IH (S p)).
  unfold count_eq, count_lt in *. simpl.
  destruct (Qeq_bool y x) eqn:Eeq.
  - apply Qeq_bool_iff in Eeq.
    assert (Hxy : Qle_bool x y = true) by (apply Qle_bool_iff; lra).
    rewrite Hxy. simpl.
    assert (H0 : count_lt x l = 0%nat).
    { apply count_lt_none. eapply Forall_impl; [|exact Hy']. simpl. intros; lra. }
    unfold count_lt in H0. rewrite H0 in *. nia.
  - apply Qeq_bool_false in Eeq.
    destruct (Qle_bool x y) eqn:Ele; simpl.
    + apply Qle_bool_iff in Ele.
      destruct (@no_tie_above x l (S p)) as [Hnil H0].
      { eapply Forall_impl; [|exact Hy']. simpl. intros; lra. }
      unfold count_eq in H0. rewrite Hnil, H0. reflexivity.
    + nia.
Qed.

Lemma count_lt_eq_le_length (x : Q) (l : list Q) :
  (count_lt x l + count_eq x l <= length l)%nat.
Proof.
  unfold count_lt, count_eq. induction l as [|y l IH]; simpl; [lia|].
  destruct (Qle_bool x y) eqn:Ele; destruct (Qeq_bool y x) eqn:Eeq; simpl; try lia.
  apply Qle_bool_false in Ele. apply Qeq_bool_iff in Eeq. lra.
Qed.

Lemma count_eq_In (x : Q) (l : list Q) : In x l -> (1 <= count_eq x l)%nat.
Proof.
  unfold count_eq. induction l as [|y l IH]; simpl; [tauto|].
  intros [->|H].
  - assert (E : Qeq_bool x x = true) by (apply Qeq_bool_iff; reflexivity).
    rewrite E. simpl. lia.
  - destruct (Qeq_bool y x); simpl; auto.
Qed.

(** The average-rank convention in closed form: with [less] entries below x
    and [e] entries tied with x (x included), the ties take the positions
    less+1 .. less+e, whose mean is less + (e+1)/2. *)
Lemma rank_pct_closed_form (vals : list Q) (x : Q) :
  In x vals ->
  rank_pct vals x ==
  (QN (count_lt x vals) + (QN (count_eq x vals) + 1) / 2) / QN (length vals).
Proof.
  intros Hin. unfold rank_pct. cbv zeta.
  set (sorted := isort Qle_bool vals).
  assert (Hperm : Permutation sorted vals) by apply isort_perm.
  assert (Hs : sorted_by Qle_bool sorted).
  { apply isort_sorted; [apply Qle_bool_total|apply Qle_bool_trans]. }
  pose proof (@sum_tie_positions x sorted 1 Hs) as Hsum.
  rewrite length_tie_positions.
  assert (El : count_lt x sorted = count_lt x vals) by (apply count_perm; assumption).
  assert (Ee : count_eq x sorted = count_eq x vals) by (apply count_perm; assumption).
  rewrite El, Ee in Hsum. rewrite Ee.
  pose proof (count_eq_In x vals Hin) as He.
  assert (Hn : (1 <= length vals)%nat).
  { pose proof (count_lt_eq_le_length x vals). lia. }
  apply QN_pos in Hn. pose proof (@QN_pos _ He) as Hepos.
  assert (HQ : QN (2 * list_sum (tie_positions x sorted 1) + count_eq x vals) ==
               QN (count_eq x vals * (2 * (1 + count_lt x vals) + count_eq x vals)))
    by (rewrite Hsum; reflexivity).
  repeat (rewrite QN_add in HQ || rewrite QN_mul in HQ).
  change (QN 2) with 2 in HQ. change (QN 1) with 1 in HQ.
  set (S0 := QN (list_sum (tie_positions x sorted 1))) in *.
  set (e := QN (count_eq x vals)) in *.
  set (less := QN (count_lt x vals)) in *.
  set (n := QN (length vals)) in *.
  clearbody S0 e less n.
  assert (HS : S0 == (e * (2 * less + e + 1)) * (1 # 2)) by nra.
  rewrite HS. field. split; lra.
Qed.

Lemma nth_error_seq_lt (a n t : nat) :
  (t < n)%nat -> nth_error (seq a n) t = Some (a + t)%nat.
Proof.
  revert a t. induction n as [|n IH]; intros a [|t] H; simpl; try lia.
  - f_equal. lia.
  - rewrite IH by lia. f_equal. lia.
Qed.

Lemma rolling_apply_row {A} (f : list A -> fval A) (s : list (fval A)) (w t : nat) :
  nth_error (rolling_apply f s w) t =
  if (t <? length s)%nat then
    Some (if (length (observations (window s w t)) <? w)%nat then NaN
          else f (observations (window s w t)))
  else None.
Proof.
  unfold rolling_apply. rewrite nth_error_map.
  destruct (Nat.ltb_spec t (length s)) as [Hlt|Hge].
  - now rewrite nth_error_seq_lt.
  - assert (E : nth_error (seq 0 (length s)) t = None).
    { apply nth_error_None. now rewrite length_seq. }
    now rewrite E.
Qed.

Lemma length_window {A} (s : list A) (w t : nat) :
  length (window s w t) = (Nat.min (S t) (length s) - (S t - w))%nat.
Proof. unfold window. now rewrite length_skipn, length_firstn. Qed.

Lemma length_observations {A} (win : list (fval A)) :
  (length (observations win) <= length win)%nat.
Proof.
  induction win as [|x win IH]; simpl; [lia|].
  destruct x; simpl; lia.
Qed.

Lemma observations_finite {A} (l : list A) : observations (map Fin l) = l.
Proof. induction l as [|x l IH]; simpl; [reflexivity|now rewrite IH]. Qed.

Lemma window_map {A B} (f : A -> B) (s : list A) (w t : nat) :
  window (map f s) w t = map f (window s w t).
Proof. unfold window. now rewrite firstn_map, skipn_map. Qed.

Lemma rank_pct_bounds (vals : list Q) (x : Q) :
  In x vals -> 0 < rank_pct vals x /\ rank_pct vals x <= 1.
Proof.
  intros Hin. rewrite (@rank_pct_closed_form vals x Hin).
  pose proof (count_eq_In x vals Hin) as He.
  pose proof (count_lt_eq_le_length x vals) as Hle.
  assert (Hn : (1 <= length vals)%nat) by lia.
  apply QN_pos in Hn. apply QN_le in Hle. rewrite QN_add in Hle.
  apply QN_le in He. change (QN 1) with 1 in He.
  assert (H0 : 0 <= QN (count_lt x vals)) by (apply (QN_le (a := 0)); lia).
  set (e := QN (count_eq x vals)) in *.
  set (less := QN (count_lt x vals)) in *.
  set (n := QN (length vals)) in *. clearbody e less n.
  split.
  - apply Qlt_shift_div_l; [assumption|].
    unfold Qdiv. change (/ 2) with (1 # 2). lra.
  - apply Qle_shift_div_r; [assumption|].
    unfold Qdiv. change (/ 2) with (1 # 2). lra.
Qed.

Lemma sorted_snoc_below {A} (R : A -> A -> Prop) (l : list A) (x : A) :
  StronglySorted R (l ++ [x]) -> Forall (fun y => R y x) l.
Proof.
  induction l as [|y l IH]; simpl; intros H; [constructor|].
  inversion H as [|? ? Hs Hy]; subst. constructor.
  - rewrite Forall_forall in Hy. apply Hy, in_or_app. right. now left.
  - now apply IH.
Qed.

Lemma in_firstn {A} (n : nat) (l : list A) (x : A) :
  In x (firstn n l) -> In x l.
Proof.
  revert n. induction l as [|y l IH]; intros [|n]; simpl; try tauto.
  intros [->|H]; [now left|right; eauto].
Qed.

Lemma sorted_firstn {A} (R : A -> A -> Prop) (n : nat) (l : list A) :
  StronglySorted R l -> StronglySorted R (firstn n l).
Proof.
  intros H. revert n. induction H as [|x l Hs IH Hx]; intros [|n]; simpl;
    try constructor.
  - apply IH.
  - rewrite Forall_forall in *. intros y Hy. apply Hx.
    eapply in_firstn; eauto.
Qed.

Lemma sorted_skipn {A} (R : A -> A -> Prop) (n : nat) (l : list A) :
  StronglySorted R l -> StronglySorted R (skipn n l).
Proof.
  intros H. revert n. induction H as [|x l Hs IH Hx]; intros [|n]; simpl;
    try constructor; auto.
Qed.

Lemma counts_of_strict_maximum (init : list Q) (x : Q) :
  Forall (fun y => y < x) init ->
  count_lt x (init ++ [x]) = length init /\ count_eq x (init ++ [x]) = 1%nat.
Proof.
  unfold count_lt, count_eq. induction 1 as [|y init Hy _ [IH1 IH2]]; simpl.
  - assert (E1 : Qle_bool x x = true) by (apply Qle_bool_iff; lra).
    assert (E2 : Qeq_bool x x = true) by (apply Qeq_bool_iff; reflexivity).
    now rewrite E1, E2.
  - assert (E1 : Qle_bool x y = false) by (apply Qle_bool_false; lra).
    assert (E2 : Qeq_bool y x = false) by (apply Qeq_bool_false; lra).
    rewrite E1, E2. simpl. now rewrite IH1, IH2.
Qed.

Lemma last_rank_pct_increasing (vals : list Q) :
  vals <> [] -> StronglySorted Qlt vals ->
  exists r, last_rank_pct vals = Fin r /\ r == 1.
Proof.
  intros Hne Hs. unfold last_rank_pct.
  destruct (rev vals) as [|x ini] eqn:Er.
  - apply (f_equal (@rev Q)) in Er. rewrite rev_involutive in Er. contradiction.
  - apply (f_equal (@rev Q)) in Er. rewrite rev_involutive in Er. simpl in Er.
    eexists. split; [reflexivity|].
    assert (Hin : In x vals) by (rewrite Er; apply in_or_app; right; now left).
    rewrite (@rank_pct_closed_form vals x Hin).
    rewrite Er in Hs. apply sorted_snoc_below in Hs.
    destruct (@counts_of_strict_maximum (rev ini) x Hs) as [E1 E2].
    rewrite Er, E1, E2, length_app. simpl length.
    rewrite QN_add. change (QN 1) with 1.
    assert (H0 : 0 <= QN (length (rev ini))) by (apply (QN_le (a := 0)); lia).
    field. lra.
Qed.

Lemma observations_app {A} (l1 l2 : list (fval A)) :
  observations (l1 ++ l2) = observations l1 ++ observations l2.
Proof. unfold observations. apply flat_map_app. Qed.

Lemma firstn_S_snoc {A} (l : list A) (t : nat) (x : A) :
  nth_error l t = Some x -> firstn (S t) l = firstn t l ++ [x].
Proof.
  revert t. induction l as [|y l IH]; intros [|t] H; simpl in *; try discriminate.
  - now injection H as ->.
  - now rewrite (IH t H).
Qed.

(** With w >= 1 the window of row t ends in the cell of row t. *)
Lemma window_snoc {A} (s : list A) (w t : nat) (x : A) :
  (1 <= w)%nat -> nth_error s t = Some x ->
  exists ini, window s w t = ini ++ [x] /\ (length ini < w)%nat.
Proof.
  intros Hw Hx. assert (Ht : (t < length s)%nat) by (apply nth_error_Some; congruence).
  unfold window. rewrite (@firstn_S_snoc _ s t x Hx), skipn_app, length_firstn.
  replace (S t - w - Nat.min t (length s))%nat with 0%nat by lia.
  exists (skipn (S t - w) (firstn t s)). split; [reflexivity|].
  rewrite length_skipn, length_firstn. lia.
Qed.

(** A window that holds w observations is a window of w finite cells: its
    last observation is the cell of row t. *)
Lemma full_window_last (s : list (fval Q)) (w t : nat) (x : fval Q) :
  (1 <= w)%nat -> nth_error s t = Some x ->
  length (observations (window s w t)) = w ->
  exists q ini, x = Fin q /\ observations (window s w t) = ini ++ [q].
Proof.
  intros Hw Hx Hlen. destruct (@window_snoc _ s w t x Hw Hx) as (ini & Ewin & Hini).
  rewrite Ewin, observations_app in Hlen |- *.
  pose proof (length_observations ini) as Hle. rewrite length_app in Hlen.
  destruct x as [q| | |]; simpl in Hlen; try lia.
  exists q, (observations ini). split; reflexivity.
Qed.

Lemma pct_rank_full_window (s : list (fval Q)) (w t : nat) (x : fval Q) :
  (1 <= w)%nat -> nth_error s t = Some x ->
  length (observations (window s w t)) = w ->
  exists q r,
    x = Fin q /\ nth_error (pct_rank s w) t = Some (Fin r) /\
    r == (QN (count_lt q (observations (window s w t))) +
          (QN (count_eq q (observations (window s w t))) + 1) / 2) / QN w /\
    0 < r /\ r <= 1.
Proof.
  intros Hw Hx Hlen.
  destruct (@full_window_last s w t x Hw Hx Hlen) as (q & ini & -> & Evals).
  assert (Ht : (t < length s)%nat) by (apply nth_error_Some; congruence).
  unfold pct_rank. rewrite rolling_apply_row.
  destruct (Nat.ltb_spec t (length s)); [|lia].
  rewrite Hlen, Nat.ltb_irrefl.
  set (vals := observations (window s w t)) in *.
  assert (Hin : In q vals) by (rewrite Evals; apply in_or_app; right; now left).
  assert (Er : rev vals = q :: rev ini) by (rewrite Evals; apply rev_unit).
  unfold last_rank_pct. rewrite Er.
  exists q, (rank_pct vals q). split; [reflexivity|]. split; [reflexivity|].
  split; [rewrite <- Hlen; now apply rank_pct_closed_form|].
  now apply rank_pct_bounds.
Qed.

(** C6. For a window of w >= 1 rows: every row of the rolling percentile
    rank is either missing or a finite value r with 0 <= r <= 1.  A row is
    missing exactly when its window does not hold w finite values; otherwise
    it is the rank of the row's own value x under the average-of-ties
    convention, (less + (ties + 1) / 2) / w, where [less] entries of the
    window are below x and [ties] entries equal it (x included), and
    0 < r <= 1.  So on a fully populated column every row from w-1 onward
    is defined, ties or not; and on a strictly increasing column every such
    row has rank exactly 1. *)
Theorem pct_rank_bounds_ties_increasing (s : list (fval Q)) (w : nat) :
  (1 <= w)%nat ->
  (forall t y, nth_error (pct_rank s w) t = Some y ->
     y = NaN \/
     exists vals ini x r,
       vals = observations (window s w t) /\ length vals = w /\
       vals = ini ++ [x] /\
       y = Fin r /\ r = rank_pct vals x /\
       r == (QN (count_lt x vals) + (QN (count_eq x vals) + 1) / 2) / QN w /\
       0 <= r /\ r <= 1) /\
  (forall t x, nth_error s t = Some x ->
     ((length (observations (window s w t)) < w)%nat ->
        nth_error (pct_rank s w) t = Some NaN) /\
     (length (observations (window s w t)) = w ->
        exists q r,
          x = Fin q /\ nth_error (pct_rank s w) t = Some (Fin r) /\
          r == (QN (count_lt q (observations (window s w t))) +
                (QN (count_eq q (observations (window s w t))) + 1) / 2) / QN w /\
          0 < r /\ r <= 1)) /\
  (forall v, s = map Fin v ->
     forall t x, (w - 1 <= t)%nat -> nth_error v t = Some x ->
       exists r, nth_error (pct_rank s w) t = Some (Fin r) /\
                 r == (QN (count_lt x (window v w t)) +
                       (QN (count_eq x (window v w t)) + 1) / 2) / QN w /\
                 0 < r /\ r <= 1) /\
  (forall v, s = map Fin v -> StronglySorted Qlt v ->
     forall t, (w - 1 <= t)%nat -> (t < length v)%nat ->
       exists r, nth_error (pct_rank s w) t = Some (Fin r) /\ r == 1).
Proof.
  intros Hw. split; [|split; [|split]].
  - intros t y Hy. unfold pct_rank in Hy. rewrite rolling_apply_row in Hy.
    destruct (t <? length s)%nat; [|discriminate].
    injection Hy as <-.
    set (vals := observations (window s w t)).
    destruct (Nat.ltb_spec (length vals) w) as [|Hge]; [now left|right].
    assert (Hlen : length vals = w).
    { pose proof (length_observations (window s w t)) as H1.
      rewrite length_window in H1. fold vals in H1. lia. }
    unfold last_rank_pct. destruct (rev vals) as [|x ini] eqn:Er.
    { apply (f_equal (@length Q)) in Er. rewrite length_rev in Er.
      simpl in Er. lia. }
    apply (f_equal (@rev Q)) in Er. rewrite rev_involutive in Er. simpl in Er.
    assert (Hin : In x vals) by (rewrite Er; apply in_or_app; right; now left).
    exists vals, (rev ini), x, (rank_pct vals x).
    destruct (@rank_pct_bounds vals x Hin) as [Hlo Hhi].
    repeat split; try assumption; try reflexivity.
    + rewrite <- Hlen. now apply rank_pct_closed_form.
    + lra.
  - intros t x Hx. split.
    + intros Hlt. unfold pct_rank. rewrite rolling_apply_row.
      assert (Ht : (t < length s)%nat) by (apply nth_error_Some; congruence).
      destruct (Nat.ltb_spec t (length s)); [|lia].
      now destruct (Nat.ltb_spec (length (observations (window s w t))) w); [|lia].
    + intros Hlen. exact (@pct_rank_full_window s w t x Hw Hx Hlen).
  - intros v -> t x Hlo Hx.
    assert (Ht : (t < length v)%nat) by (apply nth_error_Some; congruence).
    assert (Hlen : length (observations (window (map Fin v) w t)) = w).
    { rewrite window_map, observations_finite, length_window. lia. }
    assert (Hx' : nth_error (map Fin v) t = Some (Fin x))
      by (rewrite nth_error_map, Hx; reflexivity).
    destruct (@pct_rank_full_window (map Fin v) w t (Fin x) Hw Hx' Hlen)
      as (q & r & Eq & Hr & Hcf & Hb).
    injection Eq as <-. exists r. split; [exact Hr|].
    rewrite window_map, observations_finite in Hcf. auto.
  - intros v -> Hs t Hlo Hhi. unfold pct_rank. rewrite rolling_apply_row.
    rewrite length_map. destruct (Nat.ltb_spec t (length v)); [|lia].
    rewrite window_map, observations_finite.
    assert (Hlen : length (window v w t) = w) by (rewrite length_window; lia).
    rewrite Hlen, Nat.ltb_irrefl.
    destruct (@last_rank_pct_increasing (window v w t)) as (r & Hr & Hr1).
    + intros E. rewrite E in Hlen. simpl in Hlen. lia.
    + unfold window. now apply sorted_skipn, sorted_firstn.
    + exists r. rewrite Hr. auto.
Qed.

(** On [1; 2; 2; 3] with w = 3, row 2 sees the window [1; 2; 2]: one entry
    below and two tied, rank (1 + 3/2) / 3.  On the strictly increasing
    [1; 2; 3; 4] with w = 2 the last row has rank 1. *)
Lemma pct_rank_bounds_ties_increasing_witness :
  (exists r, nth_error (pct_rank (map Fin [1; 2; 2; 3]) 3) 2 = Some (Fin r) /\
             r == (1 + (2 + 1) / 2) / 3 /\ 0 < r /\ r <= 1) /\
  (exists r, nth_error (pct_rank (map Fin [1; 2; 3; 4]) 2) 3 = Some (Fin r) /\
             r == 1).
Proof.
  split.
  - destruct (@pct_rank_bounds_ties_increasing (map Fin [1; 2; 2; 3]) 3 ltac:(lia))
      as (_ & _ & Hties & _).
    exact (Hties [1; 2; 2; 3] eq_refl 2%nat 2 ltac:(lia) eq_refl).
  - destruct (@pct_rank_bounds_ties_increasing (map Fin [1; 2; 3; 4]) 2 ltac:(lia))
      as (_ & _ & _ & Hinc).
    apply (Hinc [1; 2; 3; 4] eq_refl); [|simpl; lia|simpl; lia].
    repeat constructor.
Defined.

(** Two tied entries at the top of the window [1; 2; 2] share the positions
    2 and 3: the rank is 2.5 / 3. *)
Example pct_rank_tie :
  nth_error (pct_rank (map Fin [1; 2; 2; 3]) 3) 2 = Some (Fin ((5 / 2) / 3)).
Proof. reflexivity. Qed.

Example pct_rank_increasing :
  pct_rank (map Fin [1; 2; 3; 4]) 2 = [NaN; Fin ((2 / 1) / 2); Fin ((2 / 1) / 2); Fin ((2 / 1) / 2)].
Proof. reflexivity. Qed.

End Features.

(* ===================================================================== *)
(** * Rolling z-score (05_build_gli_master.py)                            *)
(* ===================================================================== *)

(** The standard deviation takes a square root, so this part is stated over
    the real numbers. *)

Module ZScore.


Import Features.
Import Stdlib.micromega.Lra.

Open Scope R_scope.

Fixpoint Rsum (l : list R) : R :=
  match l with
  | [] => 0
  | x :: l' => x + Rsum l'
  end.

(** The mean kernel of [rolling(w).mean()] on the observations of a window. *)
Definition mean_kernel (vals : list R) : fval R :=
  match vals with
  | [] => NaN
  | _ => Fin (Rsum vals / INR (length vals))
  end.

(** The variance kernel of [rolling(w).std(ddof)]: the squared deviations
    from the window mean, summed and divided by [nobs - ddof]; NaN when there
    are no more than [ddof] observations. *)
Definition var_kernel (ddof : nat) (vals : list R) : fval R :=
  if (length vals <=? ddof)%nat then NaN
  else
    let m := Rsum vals / INR (length vals) in
    Fin (Rsum (map (fun x => (x - m) ^ 2) vals) / INR (length vals - ddof)).

Definition fsqrt (x : fval R) : fval R :=
  match x with
  | Fin v => Fin (sqrt v)
  | PInf => PInf
  | _ => NaN
  end.

Definition rolling_mean (s : list (fval R)) (w : nat) : list (fval R) :=
  rolling_apply mean_kernel s w.

Definition rolling_std (s : list (fval R)) (w ddof : nat) : list (fval R) :=
  rolling_apply (fun vals => fsqrt (var_kernel ddof vals)) s w.

(** [zscore(s, window)]. *)
Definition zscore (s : list (fval R)) (window : nat) : list (fval R) :=
  let mu := rolling_mean s window in
  let sd := rolling_std s window 0 in
  zip_with fdiv (zip_with fsub s mu) sd.

(** The population variance of a full window, as a real number. *)
Definition population_variance (vals : list R) : R :=
  let m := Rsum vals / INR (length vals) in
  Rsum (map (fun x => (x - m) ^ 2) vals) / INR (length vals).

(** ** Properties of the z-score *)

Lemma zscore_row (s : list (fval R)) (w t : nat) (x : fval R) :
  nth_error s t = Some x ->
  nth_error (zscore s w) t =
  Some (let obs := observations (window s w t) in
        if (length obs <? w)%nat then NaN
        else fdiv (fsub x (mean_kernel obs)) (fsqrt (var_kernel 0 obs))).
Proof.
  intros Hx. assert (Ht : (t < length s)%nat) by (apply nth_error_Some; congruence).
  unfold zscore, rolling_mean, rolling_std. cbv zeta.
  rewrite !nth_error_zip_with, Hx, !rolling_apply_row.
  destruct (Nat.ltb_spec t (length s)); [|lia].
  destruct (length (observations (window s w t)) <? w)%nat; [|reflexivity].
  now destruct x.
Qed.

Lemma Rsum_sq_nonneg (m : R) (l : list R) :
  0 <= Rsum (map (fun x => (x - m) ^ 2) l).
Proof.
  induction l as [|x l IH]; cbn [map Rsum]; [lra|].
  pose proof (pow2_ge_0 (x - m)). nra.
Qed.

Lemma Rsum_sq_zero (m : R) (l : list R) :
  Rsum (map (fun x => (x - m) ^ 2) l) = 0 -> Forall (fun x => x = m) l.
Proof.
  induction l as [|x l IH]; cbn [map Rsum]; intros H; [constructor|].
  pose proof (Rsum_sq_nonneg m l) as Hl.
  pose proof (pow2_ge_0 (x - m)) as Hx.
  constructor; [|apply IH; nra].
  assert (Hsq : (x - m) * (x - m) = 0) by nra.
  apply Rmult_integral in Hsq. lra.
Qed.

Lemma Rsum_repeat (c : R) (n : nat) : Rsum (repeat c n) = INR n * c.
Proof.
  induction n as [|n IH].
  - simpl. lra.
  - rewrite S_INR. simpl repeat. simpl Rsum. rewrite IH. lra.
Qed.

Lemma population_variance_constant (c : R) (n : nat) :
  (1 <= n)%nat -> population_variance (repeat c n) = 0.
Proof.
  intros Hn. unfold population_variance. cbv zeta.
  rewrite repeat_length, Rsum_repeat.
  assert (Hpos : 0 < INR n) by (apply lt_0_INR; lia).
  assert (Em : INR n * c / INR n = c) by (field; lra).
  rewrite Em.
  assert (E0 : Rsum (map (fun x => (x - c) ^ 2) (repeat c n)) = 0).
  { clear. induction n as [|n IH]; simpl; [reflexivity|].
    simpl in IH. rewrite IH. lra. }
  rewrite E0. field. lra.
Qed.

Lemma population_variance_nonneg (vals : list R) :
  vals <> [] -> 0 <= population_variance vals.
Proof.
  intros Hne. unfold population_variance. cbv zeta.
  apply Rmult_le_pos; [apply Rsum_sq_nonneg|].
  apply Rlt_le, Rinv_0_lt_compat, lt_0_INR.
  destruct vals; [congruence|simpl; lia].
Qed.

(** A window with zero variance holds one value only, which is its mean. *)
Lemma zero_variance_all_mean (vals : list R) :
  vals <> [] -> sqrt (population_variance vals) = 0 ->
  Forall (fun x => x = Rsum vals / INR (length vals)) vals.
Proof.
  intros Hne Hsd.
  apply sqrt_eq_0 in Hsd; [|now apply population_variance_nonneg].
  unfold population_variance in Hsd. cbv zeta in Hsd.
  apply Rsum_sq_zero.
  assert (Hpos : 0 < INR (length vals)).
  { apply lt_0_INR. destruct vals; [congruence|simpl; lia]. }
  apply Rmult_integral in Hsd. destruct Hsd as [H|H]; [exact H|].
  pose proof (Rinv_0_lt_compat _ Hpos). lra.
Qed.

Lemma full_window_is_finite {A} (win : list (fval A)) :
  length (observations win) = length win -> win = map Fin (observations win).
Proof.
  induction win as [|x win IH]; simpl; [reflexivity|].
  pose proof (length_observations win) as Hle.
  destruct x; simpl; intros H; try lia.
  f_equal. apply IH. lia.
Qed.

Lemma nth_error_window_last {A} (s : list A) (w t : nat) :
  (1 <= w)%nat -> (w <= S t)%nat ->
  nth_error (window s w t) (w - 1) = nth_error s t.
Proof.
  intros H1 H2. unfold window. rewrite nth_error_skipn, nth_error_firstn.
  replace (S t - w + (w - 1))%nat with t by lia.
  destruct (Nat.ltb_spec t (S t)); [reflexivity|lia].
Qed.

Lemma var_kernel_full (vals : list R) :
  vals <> [] -> var_kernel 0 vals = Fin (population_variance vals).
Proof.
  intros Hne. unfold var_kernel, population_variance.
  destruct vals as [|x vals]; [congruence|].
  cbn [length Nat.leb]. now rewrite Nat.sub_0_r.
Qed.

Lemma mean_kernel_full (vals : list R) :
  vals <> [] -> mean_kernel vals = Fin (Rsum vals / INR (length vals)).
Proof. destruct vals; [congruence|reflexivity]. Qed.

(** The value of the z-score at a row whose window is full. *)
Lemma zscore_full_window (s : list (fval R)) (w t : nat) (vals : list R) :
  (1 <= w)%nat -> (t < length s)%nat ->
  observations (window s w t) = vals -> length vals = w ->
  (w - 1 <= t)%nat /\
  exists x, nth_error s t = Some (Fin x) /\ In x vals /\
    nth_error (zscore s w) t =
    Some (fdiv (Fin (x - Rsum vals / INR w)) (Fin (sqrt (population_variance vals)))).
Proof.
  intros Hw Ht Hobs Hlen.
  pose proof (length_observations (window s w t)) as Hle.
  pose proof (length_window s w t) as Hlw.
  rewrite Hobs, Hlen in Hle.
  assert (Hwt : (w <= S t)%nat) by lia.
  split; [lia|].
  assert (Hfull : window s w t = map Fin vals).
  { rewrite <- Hobs. apply full_window_is_finite. rewrite Hobs. lia. }
  pose proof (nth_error_window_last s Hw Hwt) as Hlast.
  rewrite Hfull, nth_error_map in Hlast.
  destruct (nth_error vals (w - 1)) as [x|] eqn:Ex.
  2:{ apply nth_error_None in Ex. lia. }
  simpl in Hlast. exists x. split; [now symmetry|].
  split; [eapply nth_error_In; eauto|].
  assert (Hne : vals <> []) by (intros ->; simpl in Hlen; lia).
  rewrite (@zscore_row s w t (Fin x)) by now symmetry.
  cbv zeta. rewrite Hobs, Hlen, Nat.ltb_irrefl.
  rewrite (mean_kernel_full Hne), (var_kernel_full Hne), Hlen.
  reflexivity.
Qed.

(** C5. With a window of w >= 1 rows, the rolling z-score
    (a) is missing at the rows 0..w-2;
    (b) at a row whose window holds w observations, divides by the
        population standard deviation (squared deviations over w, not w-1),
        is the finite value (x - mean) / sd when that deviation is not zero,
        and is missing when it is zero, which is the case of a constant
        window; the division never raises;
    (c) on a fully populated column every row from w-1 onward has a window
        of w observations. *)
Theorem zscore_population_boundary (s : list (fval R)) (w : nat) :
  (1 <= w)%nat ->
  (forall t, (t < length s)%nat -> (t + 2 <= w)%nat ->
     nth_error (zscore s w) t = Some NaN) /\
  (forall t vals,
     (t < length s)%nat ->
     observations (window s w t) = vals -> length vals = w ->
     (w - 1 <= t)%nat /\
     nth_error (rolling_std s w 0) t = Some (Fin (sqrt (population_variance vals))) /\
     (sqrt (population_variance vals) <> 0 ->
        exists x, nth_error s t = Some (Fin x) /\
          nth_error (zscore s w) t =
          Some (Fin ((x - Rsum vals / INR w) / sqrt (population_variance vals)))) /\
     (sqrt (population_variance vals) = 0 ->
        nth_error (zscore s w) t = Some NaN) /\
     (forall c, vals = repeat c w -> sqrt (population_variance vals) = 0)) /\
  (forall v t, s = map Fin v -> (w - 1 <= t)%nat -> (t < length v)%nat ->
     length (observations (window s w t)) = w).
Proof.
  intros Hw. split; [|split].
  - intros t Ht Hearly.
    destruct (nth_error s t) as [x|] eqn:Ex.
    2:{ apply nth_error_None in Ex. lia. }
    rewrite (@zscore_row s w t x Ex). cbv zeta.
    pose proof (length_observations (window s w t)) as Hle.
    rewrite length_window in Hle.
    destruct (Nat.ltb_spec (length (observations (window s w t))) w); [reflexivity|lia].
  - intros t vals Ht Hobs Hlen.
    destruct (@zscore_full_window s w t vals Hw Ht Hobs Hlen)
      as (Hrow & x & Hx & Hin & Hz).
    assert (Hne : vals <> []) by (intros ->; simpl in Hlen; lia).
    split; [exact Hrow|]. split; [|split; [|split]].
    + unfold rolling_std. rewrite rolling_apply_row.
      destruct (Nat.ltb_spec t (length s)); [|lia].
      rewrite Hobs, Hlen, Nat.ltb_irrefl, (var_kernel_full Hne). reflexivity.
    + intros Hsd. exists x. split; [exact Hx|]. rewrite Hz.
      unfold fdiv. cbn [a_is_zero a_div Arith_R].
      destruct (Req_dec_T (sqrt (population_variance vals)) 0); [contradiction|].
      reflexivity.
    + intros Hsd. rewrite Hz.
      pose proof (zero_variance_all_mean Hne Hsd) as Hall.
      rewrite Forall_forall in Hall. specialize (Hall x Hin). rewrite Hlen in Hall.
      unfold fdiv. cbn [a_is_zero a_div Arith_R].
      destruct (Req_dec_T (sqrt (population_variance vals)) 0); [|contradiction].
      destruct (Req_dec_T (x - Rsum vals / INR w) 0); [reflexivity|lra].
    + intros c ->. rewrite population_variance_constant by exact Hw.
      apply sqrt_0.
  - intros v t -> Hlo Hhi.
    rewrite window_map, observations_finite, length_window. lia.
Qed.

Lemma zscore_population_boundary_witness :
  (forall t, (t < length [Fin 1; Fin 3; Fin 3])%nat -> (t + 2 <= 2)%nat ->
     nth_error (zscore [Fin 1; Fin 3; Fin 3] 2) t = Some NaN) /\
  (forall t vals,
     (t < length [Fin 1; Fin 3; Fin 3])%nat ->
     observations (window [Fin 1; Fin 3; Fin 3] 2 t) = vals -> length vals = 2%nat ->
     (2 - 1 <= t)%nat /\
     nth_error (rolling_std [Fin 1; Fin 3; Fin 3] 2 0) t =
       Some (Fin (sqrt (population_variance vals))) /\
     (sqrt (population_variance vals) <> 0 ->
        exists x, nth_error [Fin 1; Fin 3; Fin 3] t = Some (Fin x) /\
          nth_error (zscore [Fin 1; Fin 3; Fin 3] 2) t =
          Some (Fin ((x - Rsum vals / INR 2) / sqrt (population_variance vals)))) /\
     (sqrt (population_variance vals) = 0 ->
        nth_error (zscore [Fin 1; Fin 3; Fin 3] 2) t = Some NaN) /\
     (forall c, vals = repeat c 2 -> sqrt (population_variance vals) = 0)) /\
  (forall v t, [Fin 1; Fin 3; Fin 3] = map Fin v -> (2 - 1 <= t)%nat ->
     (t < length v)%nat ->
     length (observations (window [Fin 1; Fin 3; Fin 3] 2 t)) = 2%nat).
Proof.
  apply (@zscore_population_boundary [Fin 1; Fin 3; Fin 3] 2). lia.
Defined.

(** On the window [1; 3] the deviation used is 1 (population), not
    sqrt 2 (sample): the z-score of 3 is exactly 1. *)
Example population_not_sample : population_variance [1; 3] = 1.
Proof. unfold population_variance. simpl. field. Qed.

Example zscore_window_1_3 :
  nth_error (zscore [Fin 1; Fin 3; Fin 3] 2) 1 = Some (Fin 1).
Proof.
  destruct (@zscore_full_window [Fin 1; Fin 3; Fin 3] 2 1 [1; 3])
    as (_ & x & Hx & _ & Hz); try reflexivity; [lia|simpl; lia|].
  injection Hx as <-. rewrite Hz, population_not_sample, sqrt_1.
  unfold fdiv. cbn [a_is_zero a_div Arith_R].
  destruct (Req_dec_T 1 0); [lra|]. do 2 f_equal. simpl. field.
Qed.

(** The constant window [3; 3] at row 2 gives a missing z-score. *)
Example zscore_constant_window :
  nth_error (zscore [Fin 1; Fin 3; Fin 3] 2) 2 = Some NaN.
Proof.
  destruct (@zscore_full_window [Fin 1; Fin 3; Fin 3] 2 2 [3; 3])
    as (_ & x & Hx & _ & Hz); try reflexivity; [lia|simpl; lia|].
  injection Hx as <-. rewrite Hz.
  change [3; 3] with (repeat 3 2).
  rewrite population_variance_constant by lia. rewrite sqrt_0.
  unfold fdiv. cbn [a_is_zero a_div Arith_R].
  destruct (Req_dec_T 0 0); [|congruence].
  destruct (Req_dec_T (3 - Rsum (repeat 3 2) / INR 2) 0) as [|Hn]; [reflexivity|].
  exfalso. apply Hn. simpl. field.
Qed.

End ZScore.

(* ===================================================================== *)
(** * Transition-matrix smoothing (07_train_liquidity_regime_hmm.py)      *)
(* ===================================================================== *)

Module Smooth.


Open Scope Q_scope.

Definition matrix := list (list Q).

(** [T + eps]: numpy broadcasts the scalar over every entry. *)
Definition add_scalar (T : matrix) (eps : Q) : matrix :=
  map (map (fun x => x + eps)) T.

(** [T.sum(axis=1, keepdims=True)]: one sum per row. *)
Definition row_sums (T : matrix) : list Q := map Qsum T.

(** [T / sums]: every entry of row i divided by the i-th sum. *)
Definition div_rows (T : matrix) (sums : list Q) : matrix :=
  zip_with (fun row s => map (fun x => x / s) row) T sums.

(** [_smooth_transmat], on the matrix it reads and writes back. *)
Definition _smooth_transmat (T : matrix) (eps : Q) : matrix :=
  let T1 := add_scalar T eps in
  div_rows T1 (row_sums T1).

Definition is_square (K : nat) (T : matrix) : Prop :=
  length T = K /\ Forall (fun row => length row = K) T.

(** A matrix with exact zeros, as hmmlearn returns for transitions it never
    saw, run through the theorem. *)
Definition T_with_zeros : matrix :=
  [[1; 0; 0]; [0; 1 # 2; 1 # 2]; [1 # 10; 0; 9 # 10]].

(** ** Properties of the smoothing *)

Lemma Qsum_nonneg (l : list Q) : Forall (fun x => 0 <= x) l -> 0 <= Qsum l.
Proof.
  induction 1 as [|x l Hx _ IH]; simpl; lra.
Qed.

Lemma Qsum_shift_pos (l : list Q) (eps : Q) :
  0 < eps -> l <> [] -> Forall (fun x => 0 <= x) l ->
  0 < Qsum (map (fun x => x + eps) l).
Proof.
  intros He Hne Hl. destruct Hl as [|x l Hx Hl]; [congruence|].
  simpl. assert (0 <= Qsum (map (fun x => x + eps) l)).
  { apply Qsum_nonneg. apply Forall_map.
    eapply Forall_impl; [|exact Hl]. simpl; intros; lra. }
  lra.
Qed.

Lemma Qsum_div (l : list Q) (s : Q) :
  Qsum (map (fun x => x / s) l) == Qsum l / s.
Proof.
  induction l as [|x l IH]; simpl.
  - unfold Qdiv. ring.
  - rewrite IH. unfold Qdiv. ring.
Qed.

Lemma zip_with_map_self {A B C} (f : A -> B -> C) (g : A -> B) (l : list A) :
  zip_with f l (map g l) = map (fun x => f x (g x)) l.
Proof. induction l as [|x l IH]; simpl; [reflexivity|now rewrite IH]. Qed.

Lemma _smooth_transmat_rows (T : matrix) (eps : Q) :
  _smooth_transmat T eps =
  map (fun row =>
         let r1 := map (fun x => x + eps) row in
         map (fun x => x / Qsum r1) r1) T.
Proof.
  unfold _smooth_transmat, div_rows, row_sums, add_scalar.
  rewrite zip_with_map_self, map_map. reflexivity.
Qed.

Lemma smooth_row_ok (row : list Q) (eps : Q) :
  0 < eps -> Forall (fun x => 0 <= x) row -> 0 < Qsum row ->
  let r1 := map (fun x => x + eps) row in
  let out := map (fun x => x / Qsum r1) r1 in
  Forall (fun x => 0 < x) out /\ Qsum out == 1 /\ length out = length row.
Proof.
  intros He Hnn Hpos r1 out.
  assert (Hne : row <> []) by (intros ->; simpl in Hpos; lra).
  assert (Hs : 0 < Qsum r1) by (apply Qsum_shift_pos; assumption).
  split; [|split].
  - subst out r1. rewrite !Forall_map.
    eapply Forall_impl; [|exact Hnn]. simpl. intros x Hx.
    apply Qlt_shift_div_l; lra.
  - subst out. rewrite Qsum_div. field. lra.
  - subst out r1. now rewrite !length_map.
Qed.

(** C2. Smoothing a K-by-K matrix with non-negative entries and positive row
    sums by a pseudocount [eps > 0] (exact zeros allowed) yields a K-by-K
    matrix in which every entry is strictly positive and every row sums to 1
    (exactly, hence within 1e-6). *)
Theorem smooth_transmat_positive_row_stochastic (K : nat) (T : matrix) (eps : Q) :
  0 < eps ->
  is_square K T ->
  Forall (fun row => Forall (fun x => 0 <= x) row /\ 0 < Qsum row) T ->
  is_square K (_smooth_transmat T eps) /\
  Forall (fun row =>
            Forall (fun x => 0 < x) row /\
            Qsum row == 1 /\
            Qabs (Qsum row - 1) <= 1 # 1000000)
         (_smooth_transmat T eps).
Proof.
  intros He [HK Hrows] Hin. rewrite _smooth_transmat_rows.
  split.
  - split; [now rewrite length_map|].
    rewrite Forall_map. rewrite Forall_forall in *.
    intros row Hrow. destruct (Hin row Hrow) as [Hnn Hpos].
    destruct (smooth_row_ok He Hnn Hpos) as (_ & _ & Hlen).
    cbv zeta in Hlen |- *. rewrite Hlen. now apply Hrows.
  - rewrite Forall_map. eapply Forall_impl; [|exact Hin].
    intros row [Hnn Hpos].
    destruct (smooth_row_ok He Hnn Hpos) as (Hp & Hsum & _).
    cbv zeta in Hp, Hsum |- *.
    split; [exact Hp|]. split; [exact Hsum|].
    rewrite Hsum. assert (E : 1 - 1 == 0) by ring.
    rewrite E. discriminate.
Qed.

Lemma smooth_transmat_positive_row_stochastic_witness :
  is_square 3 (_smooth_transmat T_with_zeros (1 # 1000)) /\
  Forall (fun row =>
            Forall (fun x => 0 < x) row /\
            Qsum row == 1 /\
            Qabs (Qsum row - 1) <= 1 # 1000000)
         (_smooth_transmat T_with_zeros (1 # 1000)).
Proof.
  apply (@smooth_transmat_positive_row_stochastic 3 T_with_zeros (1 # 1000)).
  - reflexivity.
  - split; [reflexivity|]. repeat constructor.
  - repeat constructor; simpl; try discriminate; reflexivity.
Defined.

End Smooth.

(* ===================================================================== *)
(** * Multi-restart fitting (07_train_liquidity_regime_hmm.py)            *)
(* ===================================================================== *)

Module Restarts.


Open Scope Q_scope.

(** The keyword arguments every [GaussianHMM(...)] of the loop receives,
    the seed apart. *)
Record hyper : Type := {
  n_components : nat;
  covariance_diag : bool;
  n_iter : nat;
  tol : Q;
  min_covar : Q
}.

Section FitBest.

(** [Obs] is the standardized feature matrix, [Params] what a fitted model
    holds besides its transition matrix.  hmmlearn's [fit] and [score] are
    library code: they are parameters of the model. *)
Variables Obs Params : Type.

Record GaussianHMM : Type := {
  transmat_ : Smooth.matrix;
  fitted : Params
}.

Variable fit : hyper -> Z -> Obs -> GaussianHMM.
Variable score : GaussianHMM -> Obs -> fval Q.

(** [_smooth_transmat] as the model object sees it: the matrix is replaced
    in place, the rest of the model is untouched. *)
Definition smooth_model (model : GaussianHMM) (eps : Q) : GaussianHMM :=
  {| transmat_ := Smooth._smooth_transmat (transmat_ model) eps;
     fitted := fitted model |}.

(** [range(42, 42 + n_tries)]. *)
Definition seeds (n_tries : nat) : list Z :=
  map (fun i => (42 + Z.of_nat i)%Z) (seq 0 n_tries).

(** One restart: construct with the shared hyperparameters and this seed,
    fit, smooth, score. *)
Definition restart (Xs : Obs) (hp : hyper) (trans_smooth : Q) (seed : Z)
  : GaussianHMM * fval Q :=
  let model := fit hp seed Xs in
  let model := smooth_model model trans_smooth in
  (model, score model Xs).

(** The loop body: [if score > best_score: best_score, best_model = ...]. *)
Definition keep_best (Xs : Obs) (hp : hyper) (trans_smooth : Q)
    (best : option GaussianHMM * fval Q) (seed : Z)
  : option GaussianHMM * fval Q :=
  let '(model, sc) := restart Xs hp trans_smooth seed in
  if fgt sc (snd best) then (Some model, sc) else best.

(** [_fit_best_hmm]; [None] is the failed [assert best_model is not None]. *)
Definition _fit_best_hmm (Xs : Obs) (n_components0 n_tries : nat)
    (min_covar0 trans_smooth : Q) : option GaussianHMM :=
  let hp := {| n_components := n_components0; covariance_diag := true;
               n_iter := 500; tol := 1 # 10000; min_covar := min_covar0 |} in
  fst (fold_left (keep_best Xs hp trans_smooth) (seeds n_tries) (None, NInf)).

(** The call made by [main]. *)
Definition main_fit (Xs : Obs) : option GaussianHMM :=
  _fit_best_hmm Xs 3 10 (1 # 100) (1 # 1000).

Definition main_hyper : hyper :=
  {| n_components := 3; covariance_diag := true;
     n_iter := 500; tol := 1 # 10000; min_covar := 1 # 100 |}.

End FitBest.

Arguments transmat_ {Params} _.
Arguments fitted {Params} _.

(** State of the reduction after a prefix [l] of the seeds, [model seed] and
    [sc seed] being the model and the score of the restart of a seed.  Either
    nothing is kept and no score so far is above minus infinity (each is NaN
    or minus infinity); or the model and score of the seed at some position i
    are kept, no score of [l] is greater than that score, and that score is
    greater than every score above minus infinity at an earlier position. *)
Definition best_so_far {M} (model : Z -> M) (sc : Z -> fval Q) (l : list Z)
    (best : option M * fval Q) : Prop :=
  (best = (None, NInf) /\
   forall seed, In seed l -> fgt (sc seed) NInf = false) \/
  exists i seed,
    nth_error l i = Some seed /\ best = (Some (model seed), sc seed) /\
    fgt (sc seed) NInf = true /\
    forall j seed', nth_error l j = Some seed' ->
      fgt (sc seed') (sc seed) = false /\
      ((j < i)%nat -> fgt (sc seed') NInf = true ->
       fgt (sc seed) (sc seed') = true).

(** A run in which the per-seed scores tie: the score of seed s is s mod 3,
    so seeds 44, 47 and 50 share the highest score. *)
Definition tied_fit (hp : hyper) (seed : Z) (_ : unit) : GaussianHMM Z :=
  {| transmat_ := [[1; 0; 0]; [0; 1; 0]; [0; 0; 1]]; fitted := seed |}.

Definition tied_score (m : GaussianHMM Z) (_ : unit) : fval Q :=
  Fin (inject_Z (fitted m mod 3)).

(** ** Properties of the restart search *)

Lemma fgt_Fin (a b : Q) : fgt (Fin a) (Fin b) = true <-> b < a.
Proof.
  simpl. rewrite negb_true_iff. split.
  - intros H. apply Qnot_le_lt. intros Hle.
    apply Qle_bool_iff in Hle. congruence.
  - intros H. destruct (Qle_bool a b) eqn:E; [|reflexivity].
    apply Qle_bool_iff in E. lra.
Qed.

Lemma fgt_Fin_false (a b : Q) : fgt (Fin a) (Fin b) = false <-> a <= b.
Proof.
  simpl. rewrite negb_false_iff. apply Qle_bool_iff.
Qed.

Lemma nth_error_snoc {A} (l : list A) (x : A) (j : nat) (y : A) :
  nth_error (l ++ [x]) j = Some y ->
  (j < length l /\ nth_error l j = Some y)%nat \/ (j = length l /\ y = x).
Proof.
  intros H. destruct (Nat.lt_ge_cases j (length l)) as [Hlt|Hge].
  - left. split; [assumption|]. now rewrite nth_error_app1 in H.
  - right. rewrite nth_error_app2 in H by assumption.
    destruct (j - length l)%nat eqn:E; simpl in H.
    + split; [lia|congruence].
    + destruct n; discriminate.
Qed.

Lemma fgt_irrefl (x : fval Q) : fgt x x = false.
Proof.
  destruct x as [a| | |]; try reflexivity.
  apply fgt_Fin_false. apply Qle_refl.
Qed.

Lemma fgt_above_minus_infinity (x y : fval Q) :
  fgt x y = true -> fgt x NInf = true.
Proof. destruct x, y; simpl; intros H; try discriminate; reflexivity. Qed.

(** What does not beat the old best does not beat a new, greater best. *)
Lemma fgt_not_above (a b c : fval Q) :
  fgt a b = true -> fgt c b = false -> fgt c a = false.
Proof.
  destruct a as [a| | |], b as [b| | |], c as [c| | |];
    try reflexivity; try discriminate.
  rewrite fgt_Fin, !fgt_Fin_false. intros; lra.
Qed.

(** A new best beats every valid score the old best was not beaten by. *)
Lemma fgt_beats_earlier (a b c : fval Q) :
  fgt a b = true -> fgt c b = false -> fgt c NInf = true -> fgt a c = true.
Proof.
  destruct a as [a| | |], b as [b| | |], c as [c| | |];
    try reflexivity; try discriminate.
  rewrite !fgt_Fin, fgt_Fin_false. intros; lra.
Qed.

Lemma fgt_invalid (a c : fval Q) : fgt c NInf = false -> fgt c a = false.
Proof. destruct c, a; try reflexivity; discriminate. Qed.

Section Reduction.

Variables (Obs Params : Type).
Variable fit : hyper -> Z -> Obs -> GaussianHMM Params.
Variable score : GaussianHMM Params -> Obs -> fval Q.
Variables (Xs : Obs) (hp : hyper) (eps : Q).

Let model (seed : Z) : GaussianHMM Params := smooth_model (fit hp seed Xs) eps.
Let sc (seed : Z) : fval Q := score (model seed) Xs.

Lemma keep_best_best_so_far (l : list Z) :
  best_so_far model sc l (fold_left (keep_best fit score Xs hp eps) l (None, NInf)).
Proof.
  induction l as [|seed l IH] using rev_ind.
  - left. split; [reflexivity|]. intros seed [].
  - rewrite fold_left_app. cbn [fold_left].
    set (st := fold_left (keep_best fit score Xs hp eps) l (None, NInf)) in *.
    unfold keep_best.
    change (restart fit score Xs hp eps seed) with (model seed, sc seed).
    cbv iota beta.
    destruct IH as [[-> Hall]|(i & s0 & Hi & -> & Hval & Hbest)]; cbn [snd].
    + destruct (fgt (sc seed) NInf) eqn:Eg.
      * right. exists (length l), seed.
        split; [rewrite nth_error_app2 by lia; now rewrite Nat.sub_diag|].
        split; [reflexivity|]. split; [exact Eg|].
        intros j s' Hj. apply nth_error_snoc in Hj.
        destruct Hj as [[Hlt Hj]|[-> ->]].
        -- apply nth_error_In in Hj. apply Hall in Hj.
           split; [now apply fgt_invalid|]. intros _ Hv. congruence.
        -- split; [apply fgt_irrefl|lia].
      * left. split; [reflexivity|]. intros s' Hs'.
        apply in_app_or in Hs'. destruct Hs' as [Hs'|[<-|[]]]; auto.
    + destruct (fgt (sc seed) (sc s0)) eqn:Eg.
      * right. exists (length l), seed.
        split; [rewrite nth_error_app2 by lia; now rewrite Nat.sub_diag|].
        split; [reflexivity|].
        split; [eapply fgt_above_minus_infinity; exact Eg|].
        intros j s' Hj. apply nth_error_snoc in Hj.
        destruct Hj as [[Hlt Hj]|[-> ->]].
        -- destruct (Hbest _ _ Hj) as [Hno _]. split.
           ++ exact (fgt_not_above _ _ _ Eg Hno).
           ++ intros _ Hv. exact (fgt_beats_earlier _ _ _ Eg Hno Hv).
        -- split; [apply fgt_irrefl|lia].
      * right. exists i, s0.
        split; [rewrite nth_error_app1; [exact Hi|apply nth_error_Some; congruence]|].
        split; [reflexivity|]. split; [exact Hval|].
        intros j s' Hj. apply nth_error_snoc in Hj.
        destruct Hj as [[Hlt Hj]|[-> ->]].
        -- exact (Hbest _ _ Hj).
        -- split; [exact Eg|]. intros Hlt.
           assert (i < length l)%nat by (apply nth_error_Some; congruence). lia.
Qed.

End Reduction.

Lemma seeds_10 : seeds 10 = [42; 43; 44; 45; 46; 47; 48; 49; 50; 51]%Z.
Proof. reflexivity. Qed.

Lemma fold_left_ext_in {A B} (f g : A -> B -> A) (l : list B) (a : A) :
  (forall x y, In y l -> f x y = g x y) -> fold_left f l a = fold_left g l a.
Proof.
  revert a. induction l as [|y l IH]; intros a H; simpl; [reflexivity|].
  rewrite H by now left. apply IH. intros; apply H; now right.
Qed.

Lemma NoDup_seeds (n : nat) : NoDup (seeds n).
Proof.
  unfold seeds. apply Finite.Injective_map_NoDup; [|apply seq_NoDup].
  intros a b Hab. lia.
Qed.

(** C8. [main] runs exactly 10 restarts, with the distinct seeds 42..51 and
    one shared set of hyperparameters.  The restart of a seed is the model
    [fit] returns for that seed, smoothed, and its score is what [score]
    returns for that model on the data.  Whatever the scores are, the loop
    ends in one of two ways.  Either it returns the model of the seed at some
    position i: no restart's score is greater than its score, and its score
    is greater than every score above minus infinity among the restarts
    before i - the comparison is strict, so a later restart with an equal
    score never replaces it.  Or no score is above minus infinity (each is
    NaN or minus infinity) and the final assertion fails.  In particular,
    with ten finite log-likelihoods q the model returned is the one of the
    first seed that reaches the highest q.  The result depends on [fit] only
    through the ten per-seed fits. *)
Theorem fit_best_hmm_keeps_first_highest
    (Obs Params : Type) (fit : hyper -> Z -> Obs -> GaussianHMM Params)
    (score : GaussianHMM Params -> Obs -> fval Q) (Xs : Obs) :
  let model seed := smooth_model (fit main_hyper seed Xs) (1 # 1000) in
  let loglik seed := score (model seed) Xs in
  seeds 10 = [42; 43; 44; 45; 46; 47; 48; 49; 50; 51]%Z /\
  NoDup (seeds 10) /\
  ((exists i seed,
       nth_error (seeds 10) i = Some seed /\
       main_fit fit score Xs = Some (model seed) /\
       fgt (loglik seed) NInf = true /\
       forall j seed', nth_error (seeds 10) j = Some seed' ->
         fgt (loglik seed') (loglik seed) = false /\
         ((j < i)%nat -> fgt (loglik seed') NInf = true ->
          fgt (loglik seed) (loglik seed') = true)) \/
   (main_fit fit score Xs = None /\
    forall seed, In seed (seeds 10) -> fgt (loglik seed) NInf = false)) /\
  (forall q : Z -> Q,
     (forall seed, In seed (seeds 10) -> loglik seed = Fin (q seed)) ->
     exists i seed,
       nth_error (seeds 10) i = Some seed /\
       main_fit fit score Xs = Some (model seed) /\
       forall j seed', nth_error (seeds 10) j = Some seed' ->
         q seed' <= q seed /\ ((j < i)%nat -> q seed' < q seed)) /\
  (forall fit' : hyper -> Z -> Obs -> GaussianHMM Params,
     (forall seed, In seed (seeds 10) ->
        fit' main_hyper seed Xs = fit main_hyper seed Xs) ->
     main_fit fit' score Xs = main_fit fit score Xs).
Proof.
  intros model loglik.
  assert (Hmain : main_fit fit score Xs =
                  fst (fold_left (keep_best fit score Xs main_hyper (1 # 1000))
                                 (seeds 10) (None, NInf))) by reflexivity.
  pose proof (keep_best_best_so_far fit score Xs main_hyper (1 # 1000) (seeds 10))
    as Hinv.
  fold model in Hinv. fold loglik in Hinv.
  split; [reflexivity|]. split; [apply NoDup_seeds|].
  split; [|split].
  - destruct Hinv as [[E Hall]|(i & seed & Hi & E & Hval & Hbest)];
      rewrite E in Hmain; cbn [fst] in Hmain.
    + right. split; [exact Hmain|exact Hall].
    + left. exists i, seed. auto.
  - intros q Hq.
    destruct Hinv as [[E Hall]|(i & seed & Hi & E & Hval & Hbest)];
      rewrite E in Hmain; cbn [fst] in Hmain.
    + exfalso. assert (H42 : In 42%Z (seeds 10)) by (now left).
      specialize (Hall _ H42). rewrite (Hq _ H42) in Hall. discriminate.
    + exists i, seed. split; [exact Hi|]. split; [exact Hmain|].
      intros j seed' Hj. destruct (Hbest _ _ Hj) as [Hno Hearlier].
      pose proof (nth_error_In _ _ Hi) as Hin.
      pose proof (nth_error_In _ _ Hj) as Hin'.
      rewrite (Hq _ Hin), (Hq _ Hin') in Hno, Hearlier.
      split; [now apply fgt_Fin_false|].
      intros Hlt. apply fgt_Fin. now apply Hearlier.
  - intros fit' Hsame. unfold main_fit, _fit_best_hmm. fold main_hyper.
    cbv zeta. f_equal. apply fold_left_ext_in.
    intros best seed Hin. unfold keep_best, restart.
    now rewrite (Hsame seed Hin).
Qed.

(** The scores of [tied_score] are finite, and three seeds tie for the
    highest: the model returned is that of the first seed no other beats. *)
Lemma fit_best_hmm_keeps_first_highest_witness :
  exists i seed,
    nth_error (seeds 10) i = Some seed /\
    main_fit tied_fit tied_score tt =
      Some (smooth_model (tied_fit main_hyper seed tt) (1 # 1000)) /\
    forall j seed', nth_error (seeds 10) j = Some seed' ->
      inject_Z (seed' mod 3) <= inject_Z (seed mod 3) /\
      ((j < i)%nat -> inject_Z (seed' mod 3) < inject_Z (seed mod 3)).
Proof.
  destruct (@fit_best_hmm_keeps_first_highest unit Z tied_fit tied_score tt)
    as (_ & _ & _ & Hfinite & _).
  apply (Hfinite (fun seed => inject_Z (seed mod 3))).
  intros seed _. reflexivity.
Defined.

(** The tie is resolved in favour of the first of the tied seeds, 44. *)
Example tied_run_keeps_seed_44 :
  option_map fitted (main_fit tied_fit tied_score tt) = Some 44%Z.
Proof. vm_compute. reflexivity. Qed.

(** With no finite score at all (every score NaN) nothing is kept and the
    assertion after the loop fails. *)
Example all_nan_scores_fail :
  main_fit tied_fit (fun _ _ => NaN) tt = None.
Proof. vm_compute. reflexivity. Qed.

End Restarts.

(* ===================================================================== *)
(** * Canonical relabeling (06_train_..._gmm.py, 07_train_..._hmm.py)     *)
(* ===================================================================== *)

Module Regime.


Import Features.

Open Scope Q_scope.

(** What a Python statement can end in. *)
Inductive result (A : Type) : Type :=
| Ok (a : A)
| KeyError (key : nat).

Arguments Ok {A} a.
Arguments KeyError {A} key.

(** An exception aborts what follows; stdpp's [x ← r; k] sequences. *)
#[export] Instance result_bind : MBind result := fun A B f r =>
  match r with
  | Ok a => f a
  | KeyError k => KeyError k
  end.

(** [d[key]] on a dict. *)
Definition getitem (d : gmap nat nat) (key : nat) : result nat :=
  match d !! key with
  | Some v => Ok v
  | None => KeyError key
  end.

(** A retained row of the feature table with what the fitted model says of
    it: the two expansiveness features, the raw state, the raw posterior. *)
Record obs_row : Type := {
  netliq_z252 : Q;
  gcb_z252 : Q;
  state : nat;
  post : list Q
}.

(** The number of states both scripts fit ([n_components=3]). *)
Definition n_states : nat := 3.

(** ** The mapping *)

(** The group keys of [groupby("state")]: the raw states that occur, in
    ascending order. *)
Definition group_keys (states : list nat) : list nat :=
  isort Nat.leb (nodup Nat.eq_dec states).

(** [groupby("state")[col].mean()] at one key. *)
Definition group_mean (col : obs_row -> Q) (rows : list obs_row) (k : nat) : Q :=
  let g := filter (fun r => (state r =? k)%nat) rows in
  Qsum (map col g) / QN (length g).

(** [score = means["netliq_z252"] + means["gcb_z252"]], indexed by state. *)
Definition expansiveness (rows : list obs_row) (k : nat) : Q :=
  group_mean netliq_z252 rows k + group_mean gcb_z252 rows k.

Definition scores (rows : list obs_row) : list (nat * Q) :=
  map (fun k => (k, expansiveness rows k)) (group_keys (map state rows)).

(** [score.sort_values(ascending=False)]: a higher score comes first. *)
Definition score_desc (a b : nat * Q) : bool := Qle_bool (snd b) (snd a).

(** [order = score.sort_values(ascending=False).index.tolist()].  States
    with equal scores stay in ascending order of the raw index; no property
    below depends on it. *)
Definition order (rows : list obs_row) : list nat :=
  map fst (isort score_desc (scores rows)).

Definition enumerate {A} (l : list A) : list (nat * A) :=
  combine (seq 0 (length l)) l.

(** [{old: new for new, old in enumerate(order)}]: the entries are inserted
    one after the other, a later one replacing an earlier one of its key. *)
Definition dict_of_order (ord : list nat) : gmap nat nat :=
  fold_left (fun m p => <[snd p := fst p]> m) (enumerate ord) ∅.

(** [_order_states_by_expansiveness], and the same four lines of the GMM
    script. *)
Definition _order_states_by_expansiveness (rows : list obs_row) : gmap nat nat :=
  dict_of_order (order rows).

(** ** Backend A: the static mixture (06) *)

Record gmm_out : Type := {
  regime : option nat;
  regime_p0 : Q;
  regime_p1 : Q;
  regime_p2 : Q
}.

(** The columns the GMM script writes: [regime] is [regime_raw.map(mapping)]
    (a raw label that is no key would give NaN, here [None]);
    [regime_p0..2] are [probs[:, 0..2]], assigned before the mapping exists
    and not touched afterwards. *)
Definition gmm_relabel (rows : list obs_row) : list gmm_out :=
  let mapping := _order_states_by_expansiveness rows in
  map (fun r =>
         {| regime := mapping !! state r;
            regime_p0 := nth 0 (post r) 0;
            regime_p1 := nth 1 (post r) 0;
            regime_p2 := nth 2 (post r) 0 |})
      rows.

(** ** Backend B: the sequential model (07) *)

Record hmm_out : Type := {
  h_regime : option nat;
  p_regime : list Q
}.

(** [p_regime[:, new] = post[:, old]], row by row. *)
Definition assign_column (new old : nat) (p_regime posts : list (list Q))
  : list (list Q) :=
  zip_with (fun p q => <[new := nth old q 0]> p) p_regime posts.

(** The loop [for old_state in range(post.shape[1])]. *)
Fixpoint reorder_posterior (mapping : gmap nat nat) (olds : list nat)
    (posts p_regime : list (list Q)) : result (list (list Q)) :=
  match olds with
  | [] => Ok p_regime
  | old :: rest =>
      new ← getitem mapping old;
      reorder_posterior mapping rest posts (assign_column new old p_regime posts)
  end.

(** [{v: k for k, v in mapping.items()}]. *)
Definition invert (mapping : gmap nat nat) : gmap nat nat :=
  list_to_map ((fun kv => (snd kv, fst kv)) <$> map_to_list mapping).

(** [trans_raw[np.ix_(rows, cols)]]. *)
Definition ix_ (T : Smooth.matrix) (rs cs : list nat) : Smooth.matrix :=
  map (fun i => map (fun j => nth j (nth i T []) 0) cs) rs.

(** Lines 107-125 of the HMM script.  ([regime] is cast with [astype(int)];
    every raw state of a row is a key of the mapping, so no NaN reaches the
    cast.) *)
Definition hmm_relabel (rows : list obs_row) (trans_raw : Smooth.matrix)
  : result (list hmm_out * Smooth.matrix) :=
  let mapping := _order_states_by_expansiveness rows in
  let regimes := map (fun r => mapping !! state r) rows in
  let posts := map post rows in
  let zeros := map (fun q => repeat 0 (length q)) posts in
  p ← reorder_posterior mapping (seq 0 n_states) posts zeros;
  let inv := invert mapping in
  i0 ← getitem inv 0%nat;
  i1 ← getitem inv 1%nat;
  i2 ← getitem inv 2%nat;
  let order_raw := [i0; i1; i2] in
  Ok (zip_with (fun g q => {| h_regime := g; p_regime := q |}) regimes p,
      ix_ trans_raw order_raw order_raw).

(** ** A fit in which the raw indices are not in canonical order *)

(** Raw state 1 is the most expansive, raw state 2 the next, raw state 0 the
    least; each row's posterior puts 0.8 on its own raw state. *)
Definition fit_rows : list obs_row :=
  [ {| netliq_z252 := -1; gcb_z252 := -1; state := 0; post := [8 # 10; 1 # 10; 1 # 10] |};
    {| netliq_z252 := 2; gcb_z252 := 1; state := 1; post := [1 # 10; 8 # 10; 1 # 10] |};
    {| netliq_z252 := 0; gcb_z252 := 1 # 2; state := 2; post := [1 # 10; 1 # 10; 8 # 10] |};
    {| netliq_z252 := 1; gcb_z252 := 2; state := 1; post := [2 # 10; 7 # 10; 1 # 10] |} ].

Definition fit_trans : Smooth.matrix :=
  [[9 # 10; 1 # 20; 1 # 20]; [1 # 10; 7 # 10; 2 # 10]; [3 # 10; 3 # 10; 4 # 10]].

(** A degenerate fit: raw state 2 is assigned to no row. *)
Definition degenerate_rows : list obs_row :=
  [ {| netliq_z252 := -1; gcb_z252 := -1; state := 0; post := [8 # 10; 1 # 10; 1 # 10] |};
    {| netliq_z252 := 2; gcb_z252 := 1; state := 1; post := [1 # 10; 8 # 10; 1 # 10] |};
    {| netliq_z252 := 1; gcb_z252 := 2; state := 1; post := [2 # 10; 7 # 10; 1 # 10] |} ].

(** ** The posterior loop and the inverse dict *)

(** What the loop does to one row of [p_regime]. *)
Definition assign_row (mapping : gmap nat nat) (olds : list nat) (p q : list Q)
  : list Q :=
  fold_left
    (fun p old =>
       match mapping !! old with
       | Some new => <[new := nth old q 0]> p
       | None => p
       end)
    olds p.

(** ** Properties of the relabeling *)

Example fit_rows_order : order fit_rows = [1; 2; 0]%nat.
Proof. reflexivity. Qed.

Example fit_rows_mapping :
  map (fun old => _order_states_by_expansiveness fit_rows !! old) [0; 1; 2]%nat
  = [Some 2; Some 0; Some 1]%nat.
Proof. vm_compute. reflexivity. Qed.

Example fit_rows_hmm :
  hmm_relabel fit_rows fit_trans =
  Ok ([ {| h_regime := Some 2%nat; p_regime := [1 # 10; 1 # 10; 8 # 10] |};
        {| h_regime := Some 0%nat; p_regime := [8 # 10; 1 # 10; 1 # 10] |};
        {| h_regime := Some 1%nat; p_regime := [1 # 10; 8 # 10; 1 # 10] |};
        {| h_regime := Some 0%nat; p_regime := [7 # 10; 1 # 10; 2 # 10] |} ],
      [[7 # 10; 2 # 10; 1 # 10]; [3 # 10; 4 # 10; 3 # 10]; [1 # 20; 1 # 20; 9 # 10]]).
Proof. vm_compute. reflexivity. Qed.

Example fit_rows_gmm :
  gmm_relabel fit_rows =
  [ {| regime := Some 2%nat; regime_p0 := 8 # 10; regime_p1 := 1 # 10; regime_p2 := 1 # 10 |};
    {| regime := Some 0%nat; regime_p0 := 1 # 10; regime_p1 := 8 # 10; regime_p2 := 1 # 10 |};
    {| regime := Some 1%nat; regime_p0 := 1 # 10; regime_p1 := 1 # 10; regime_p2 := 8 # 10 |};
    {| regime := Some 0%nat; regime_p0 := 2 # 10; regime_p1 := 7 # 10; regime_p2 := 1 # 10 |} ].
Proof. vm_compute. reflexivity. Qed.

Example degenerate_hmm : hmm_relabel degenerate_rows fit_trans = KeyError 2.
Proof. vm_compute. reflexivity. Qed.

Example degenerate_gmm : map regime (gmm_relabel degenerate_rows) = [Some 1; Some 0; Some 0]%nat.
Proof. vm_compute. reflexivity. Qed.

(** ** The mapping is the descending-score ranking of the observed states *)

Lemma group_keys_In (states : list nat) (k : nat) :
  In k (group_keys states) <-> In k states.
Proof. unfold group_keys. rewrite isort_In. apply nodup_In. Qed.

Lemma group_keys_NoDup (states : list nat) : List.NoDup (group_keys states).
Proof.
  unfold group_keys.
  eapply Permutation_NoDup; [symmetry; apply isort_perm|].
  apply List.NoDup_nodup.
Qed.

Lemma order_perm (rows : list obs_row) :
  Permutation (order rows) (group_keys (map state rows)).
Proof.
  unfold order, scores.
  rewrite (Permutation_map fst (isort_perm score_desc _)).
  rewrite map_map. simpl. now rewrite map_id.
Qed.

Lemma order_NoDup (rows : list obs_row) : List.NoDup (order rows).
Proof.
  eapply Permutation_NoDup; [symmetry; apply order_perm|].
  apply group_keys_NoDup.
Qed.

Lemma order_In (rows : list obs_row) (k : nat) :
  In k (order rows) <-> In k (map state rows).
Proof.
  rewrite <- (group_keys_In (map state rows) k).
  split; apply Permutation_in; [|symmetry]; apply order_perm.
Qed.

Lemma order_length (rows : list obs_row) :
  length (order rows) = length (group_keys (map state rows)).
Proof. apply Permutation_length, order_perm. Qed.

Lemma score_desc_total (a b : nat * Q) :
  score_desc a b = true \/ score_desc b a = true.
Proof. unfold score_desc. destruct (Qle_bool_total (snd b) (snd a)); auto. Qed.

Lemma score_desc_trans (a b c : nat * Q) :
  score_desc a b = true -> score_desc b c = true -> score_desc a c = true.
Proof. unfold score_desc. intros H1 H2. eapply Qle_bool_trans; eauto. Qed.

Lemma sorted_nth_error {A} (R : A -> A -> Prop) (l : list A) (i j : nat) (x y : A) :
  StronglySorted R l -> (i < j)%nat ->
  nth_error l i = Some x -> nth_error l j = Some y -> R x y.
Proof.
  intros Hs. revert i j. induction Hs as [|a l Hs IH Ha]; intros i j Hij Hi Hj.
  - destruct i; discriminate.
  - destruct j as [|j]; [lia|]. simpl in Hj. destruct i as [|i]; simpl in Hi.
    + injection Hi as ->. rewrite Forall_forall in Ha.
      apply Ha. eapply nth_error_In; eauto.
    + apply (IH i j); [lia|assumption|assumption].
Qed.

(** Position in [order] is rank by descending score. *)
Lemma order_descending (rows : list obs_row) (i j a b : nat) :
  (i < j)%nat ->
  nth_error (order rows) i = Some a -> nth_error (order rows) j = Some b ->
  expansiveness rows b <= expansiveness rows a.
Proof.
  unfold order. rewrite !nth_error_map. intros Hij Hi Hj.
  destruct (nth_error (isort score_desc (scores rows)) i) as [[a' sa]|] eqn:Ei;
    [|discriminate].
  destruct (nth_error (isort score_desc (scores rows)) j) as [[b' sb]|] eqn:Ej;
    [|discriminate].
  simpl in Hi, Hj. injection Hi as ->. injection Hj as ->.
  assert (Hs : sorted_by score_desc (isort score_desc (scores rows))).
  { apply isort_sorted; [apply score_desc_total|apply score_desc_trans]. }
  pose proof (sorted_nth_error Hs Hij Ei Ej) as Hord.
  unfold score_desc in Hord. simpl in Hord. apply Qle_bool_iff in Hord.
  assert (Hsc : forall k s, In (k, s) (isort score_desc (scores rows)) ->
                            s = expansiveness rows k).
  { intros k s Hin. apply isort_In in Hin. unfold scores in Hin.
    apply in_map_iff in Hin. destruct Hin as (k' & Heq & _). congruence. }
  rewrite <- (Hsc a sa) by (eapply nth_error_In; eauto).
  rewrite <- (Hsc b sb) by (eapply nth_error_In; eauto).
  exact Hord.
Qed.

Lemma fold_insert_lookup (l : list nat) (i : nat) (m0 : gmap nat nat) (old new : nat) :
  List.NoDup l ->
  fold_left (fun m p => <[snd p := fst p]> m) (combine (seq i (length l)) l) m0
    !! old = Some new <->
  ((i <= new)%nat /\ nth_error l (new - i) = Some old) \/
  (~ In old l /\ m0 !! old = Some new).
Proof.
  intros Hnd. revert i m0.
  induction Hnd as [|x l Hx Hnd IH]; intros i m0; simpl.
  - split; [intros H; right; auto|].
    intros [[_ H]|[_ H]]; [destruct (new - i)%nat; discriminate|exact H].
  - rewrite IH. rewrite lookup_insert_Some. simpl. split.
    + intros [[Hle Hn]|[Hni [[<- <-]|[Hne Hm]]]].
      * left. split; [lia|].
        replace (new - i)%nat with (S (new - S i)) by lia. exact Hn.
      * left. split; [lia|]. now rewrite Nat.sub_diag.
      * right. split; [|exact Hm]. intros [->|Hin]; contradiction.
    + intros [[Hle Hn]|[Hni Hm]].
      * destruct (new - i)%nat as [|d] eqn:Ed; simpl in Hn.
        -- injection Hn as ->. assert (new = i) by lia. subst new.
           right. split; [exact Hx|]. left. auto.
        -- left. split; [lia|]. replace (new - S i)%nat with d by lia. exact Hn.
      * right. split; [tauto|]. right. split; [|exact Hm].
        intros ->. apply Hni. now left.
Qed.

(** The dict sends a raw state to its position in [order]. *)
Lemma mapping_lookup (rows : list obs_row) (old new : nat) :
  _order_states_by_expansiveness rows !! old = Some new <->
  nth_error (order rows) new = Some old.
Proof.
  unfold _order_states_by_expansiveness, dict_of_order, enumerate.
  rewrite fold_insert_lookup by apply order_NoDup.
  rewrite Nat.sub_0_r, lookup_empty. split.
  - intros [[_ H]|[_ H]]; [exact H|discriminate].
  - intros H. left. split; [lia|exact H].
Qed.

Lemma mapping_None (rows : list obs_row) (old : nat) :
  _order_states_by_expansiveness rows !! old = None <->
  ~ In old (map state rows).
Proof.
  rewrite <- order_In. split.
  - intros Hn Hin. apply In_nth_error in Hin. destruct Hin as [new Hnew].
    apply mapping_lookup in Hnew. congruence.
  - intros Hni.
    destruct (_order_states_by_expansiveness rows !! old) as [new|] eqn:E;
      [|reflexivity].
    apply mapping_lookup in E. exfalso. apply Hni. eapply nth_error_In; eauto.
Qed.

Lemma mapping_range (rows : list obs_row) (old new : nat) :
  _order_states_by_expansiveness rows !! old = Some new ->
  (new < length (group_keys (map state rows)))%nat /\ In old (map state rows).
Proof.
  intros H. apply mapping_lookup in H. split.
  - rewrite <- order_length. apply nth_error_Some. congruence.
  - apply order_In. eapply nth_error_In; eauto.
Qed.

Lemma mapping_injective (rows : list obs_row) (a b new : nat) :
  _order_states_by_expansiveness rows !! a = Some new ->
  _order_states_by_expansiveness rows !! b = Some new -> a = b.
Proof. rewrite !mapping_lookup. congruence. Qed.

Lemma mapping_onto (rows : list obs_row) (new : nat) :
  (new < length (group_keys (map state rows)))%nat ->
  exists old, _order_states_by_expansiveness rows !! old = Some new.
Proof.
  rewrite <- order_length. intros H.
  destruct (nth_error (order rows) new) as [old|] eqn:E.
  - exists old. now apply mapping_lookup.
  - apply nth_error_None in E. lia.
Qed.

Lemma zip_with_nested {A B} (f g : A -> B -> A) (ps : list A) (qs : list B) :
  zip_with f (zip_with g ps qs) qs = zip_with (fun p q => f (g p q) q) ps qs.
Proof.
  revert qs. induction ps as [|p ps IH]; intros [|q qs]; simpl; try reflexivity.
  now rewrite IH.
Qed.

Lemma zip_with_ext {A B C} (f g : A -> B -> C) (ps : list A) (qs : list B) :
  (forall p q, f p q = g p q) -> zip_with f ps qs = zip_with g ps qs.
Proof.
  intros H. revert qs. induction ps as [|p ps IH]; intros [|q qs]; simpl;
    try reflexivity.
  now rewrite H, IH.
Qed.

Lemma zip_with_id_l {A B} (ps : list A) (qs : list B) :
  length ps = length qs -> zip_with (fun p _ => p) ps qs = ps.
Proof.
  revert qs. induction ps as [|p ps IH]; intros [|q qs]; simpl; try discriminate;
    try reflexivity.
  intros H. rewrite IH; [reflexivity|lia].
Qed.

Lemma length_zip_with {A B C} (f : A -> B -> C) (ps : list A) (qs : list B) :
  length ps = length qs -> length (zip_with f ps qs) = length ps.
Proof.
  revert qs. induction ps as [|p ps IH]; intros [|q qs]; simpl; try discriminate;
    try reflexivity.
  intros H. rewrite IH; [reflexivity|lia].
Qed.

Lemma length_assign_column (new old : nat) (p posts : list (list Q)) :
  length p = length posts -> length (assign_column new old p posts) = length posts.
Proof.
  intros H. unfold assign_column. rewrite length_zip_with by exact H. exact H.
Qed.

(** When every raw state of the loop is a key, the loop runs through and
    each row of [p_regime] has received its assignments. *)
Lemma reorder_posterior_ok mapping (olds : list nat) (posts p : list (list Q)) :
  length p = length posts ->
  (forall old, In old olds -> is_Some (mapping !! old)) ->
  reorder_posterior mapping olds posts p =
  Ok (zip_with (assign_row mapping olds) p posts).
Proof.
  revert p. induction olds as [|old rest IH]; intros p Hlen Hall.
  - simpl. f_equal. symmetry. now apply zip_with_id_l.
  - destruct (Hall old) as [new Hnew]; [now left|].
    simpl. unfold getitem. rewrite Hnew. simpl.
    rewrite IH.
    + f_equal. unfold assign_column. rewrite zip_with_nested.
      apply zip_with_ext. intros p0 q0. simpl. now rewrite Hnew.
    + now apply length_assign_column.
    + intros o Ho. apply Hall. now right.
Qed.

(** The loop stops with [KeyError] at the first raw state that is no key. *)
Lemma reorder_posterior_fails mapping (olds : list nat) (posts p : list (list Q)) :
  (exists old, In old olds /\ mapping !! old = None) ->
  exists k, In k olds /\ mapping !! k = None /\
            reorder_posterior mapping olds posts p = KeyError k.
Proof.
  revert p. induction olds as [|old rest IH]; intros p (o & Ho & Hn).
  - destruct Ho.
  - simpl. unfold getitem. destruct (mapping !! old) as [new|] eqn:E.
    + destruct Ho as [->|Ho]; [congruence|].
      destruct (IH (assign_column new old p posts)) as (k & Hk & Hkn & Hr).
      { exists o. auto. }
      exists k. split; [now right|]. split; [exact Hkn|exact Hr].
    + exists old. split; [now left|]. split; [exact E|reflexivity].
Qed.

Lemma assign_row_untouched (mapping : gmap nat nat) (olds : list nat)
    (p q : list Q) (new : nat) :
  (forall b, In b olds -> mapping !! b <> Some new) ->
  assign_row mapping olds p q !! new = p !! new.
Proof.
  unfold assign_row. revert p. induction olds as [|o rest IH]; intros p Hall;
    simpl; [reflexivity|].
  rewrite IH by (intros b Hb; apply Hall; now right).
  destruct (mapping !! o) as [n|] eqn:E; [|reflexivity].
  apply list_lookup_insert_ne. intros ->. apply (Hall o); [now left|exact E].
Qed.

(** After the loop, component [new] of a row holds the raw posterior of the
    raw state [old] that the dict sends to [new]. *)
Lemma assign_row_lookup (mapping : gmap nat nat) (olds : list nat)
    (p q : list Q) (old new : nat) :
  List.NoDup olds ->
  (forall a b n, mapping !! a = Some n -> mapping !! b = Some n -> a = b) ->
  In old olds -> mapping !! old = Some new -> (new < length p)%nat ->
  assign_row mapping olds p q !! new = Some (nth old q 0).
Proof.
  intros Hnd Hinj. revert p.
  induction Hnd as [|o rest Ho Hnd IH]; intros p Hin Hnew Hlen; [destruct Hin|].
  destruct Hin as [->|Hin].
  - change (assign_row mapping (old :: rest) p q)
      with (assign_row mapping rest
              (match mapping !! old with
               | Some new => <[new := nth old q 0]> p
               | None => p
               end) q).
    rewrite Hnew. rewrite assign_row_untouched.
    + now apply list_lookup_insert_eq.
    + intros b Hb Hbn. assert (b = old) by (eapply Hinj; eauto). subst b.
      contradiction.
  - change (assign_row mapping (o :: rest) p q)
      with (assign_row mapping rest
              (match mapping !! o with
               | Some new => <[new := nth o q 0]> p
               | None => p
               end) q).
    apply IH; [assumption|assumption|].
    destruct (mapping !! o); [now rewrite length_insert|assumption].
Qed.

Lemma invert_lookup (m : gmap nat nat) (k v : nat) :
  (forall a b n, m !! a = Some n -> m !! b = Some n -> a = b) ->
  invert m !! v = Some k <-> m !! k = Some v.
Proof.
  intros Hinj. unfold invert.
  rewrite <- elem_of_list_to_map.
  - rewrite list_elem_of_fmap. split.
    + intros ([k' v'] & Heq & Hin). simpl in Heq. injection Heq as -> ->.
      now apply elem_of_map_to_list.
    + intros H. exists (k, v). split; [reflexivity|].
      now apply elem_of_map_to_list.
  - rewrite <- list_fmap_compose.
    apply NoDup_fmap_2_strong; [|apply NoDup_map_to_list].
    intros [k1 v1] [k2 v2] H1 H2 Heq. simpl in Heq. subst v2.
    apply elem_of_map_to_list in H1, H2. f_equal. eapply Hinj; eauto.
Qed.

(** ** Backend B relabels labels, posteriors and transitions alike *)

Lemma all_states_observed_keys (rows : list obs_row) :
  (forall k, (k < n_states)%nat -> In k (map state rows)) ->
  Forall (fun r => (state r < n_states)%nat) rows ->
  length (group_keys (map state rows)) = n_states.
Proof.
  intros Hall Hrange.
  assert (Hperm : Permutation (group_keys (map state rows)) [0; 1; 2]%nat).
  { apply NoDup_Permutation.
    - apply group_keys_NoDup.
    - repeat constructor; simpl; intuition lia.
    - intros k. rewrite group_keys_In. split.
      + intros Hin. apply in_map_iff in Hin. destruct Hin as (r & <- & Hr).
        rewrite Forall_forall in Hrange. specialize (Hrange r Hr).
        unfold n_states in Hrange. simpl.
        destruct (state r) as [|[|[|?]]]; auto; lia.
      + intros Hk. apply Hall. unfold n_states. simpl in Hk. intuition lia. }
  now rewrite (Permutation_length Hperm).
Qed.

(** X1. When the three raw states all occur, the HMM script succeeds and one
    and the same mapping - rank by descending expansiveness - relabels the
    hard state, reorders the posterior (component [new] is the raw posterior
    of the raw state sent to [new]) and permutes rows and columns of the
    transition matrix. *)
Lemma hmm_relabel_consistent (rows : list obs_row) (trans_raw : Smooth.matrix) :
  (forall k, (k < n_states)%nat -> In k (map state rows)) ->
  Forall (fun r => (state r < n_states)%nat /\ length (post r) = n_states) rows ->
  exists outs T,
    hmm_relabel rows trans_raw = Ok (outs, T) /\
    (forall old, (old < n_states)%nat ->
       exists new, _order_states_by_expansiveness rows !! old = Some new /\
                   (new < n_states)%nat) /\
    (forall a b na nb,
       _order_states_by_expansiveness rows !! a = Some na ->
       _order_states_by_expansiveness rows !! b = Some nb ->
       (na < nb)%nat -> expansiveness rows b <= expansiveness rows a) /\
    (forall i r, nth_error rows i = Some r ->
       exists o, nth_error outs i = Some o /\
         h_regime o = _order_states_by_expansiveness rows !! state r /\
         forall old new,
           _order_states_by_expansiveness rows !! old = Some new ->
           p_regime o !! new = Some (nth old (post r) 0)) /\
    (forall a b na nb,
       _order_states_by_expansiveness rows !! a = Some na ->
       _order_states_by_expansiveness rows !! b = Some nb ->
       nth nb (nth na T []) 0 = nth b (nth a trans_raw []) 0).
Proof.
  intros Hall Hrows.
  set (m := _order_states_by_expansiveness rows).
  assert (Hrange : Forall (fun r => (state r < n_states)%nat) rows).
  { eapply Forall_impl; [|exact Hrows]. simpl. tauto. }
  pose proof (@all_states_observed_keys rows Hall Hrange) as Hlen.
  assert (Hinj : forall a b n, m !! a = Some n -> m !! b = Some n -> a = b).
  { intros a b n. apply mapping_injective. }
  assert (Hsome : forall old, (old < n_states)%nat ->
                    exists new, m !! old = Some new /\ (new < n_states)%nat).
  { intros old Hold. destruct (m !! old) as [new|] eqn:E.
    - exists new. split; [reflexivity|].
      apply mapping_range in E. now rewrite Hlen in E.
    - apply mapping_None in E. exfalso. apply E, Hall, Hold. }
  assert (Hkey : forall old new, m !! old = Some new ->
                   (old < n_states)%nat /\ (new < n_states)%nat).
  { intros old new E. apply mapping_range in E. destruct E as [E1 E2].
    rewrite Hlen in E1. split; [|exact E1].
    apply in_map_iff in E2. destruct E2 as (r & <- & Hr).
    rewrite Forall_forall in Hrange. now apply Hrange. }
  assert (Honto : forall new, (new < n_states)%nat ->
                    exists old, invert m !! new = Some old /\ m !! old = Some new).
  { intros new Hnew. destruct (@mapping_onto rows new) as [old Hold];
      [now rewrite Hlen|].
    exists old. split; [|exact Hold]. now apply invert_lookup. }
  destruct (Honto 0%nat) as (i0 & Hi0 & Hm0); [unfold n_states; lia|].
  destruct (Honto 1%nat) as (i1 & Hi1 & Hm1); [unfold n_states; lia|].
  destruct (Honto 2%nat) as (i2 & Hi2 & Hm2); [unfold n_states; lia|].
  set (posts := map post rows).
  set (zeros := map (fun q => repeat 0 (length q)) posts).
  assert (Hloop : reorder_posterior m (seq 0 n_states) posts zeros =
                  Ok (zip_with (assign_row m (seq 0 n_states)) zeros posts)).
  { apply reorder_posterior_ok.
    - subst zeros. now rewrite length_map.
    - intros old Hold. apply in_seq in Hold.
      destruct (Hsome old) as (new & -> & _); [lia|]. eauto. }
  eexists _, _. split.
  { unfold hmm_relabel. fold m. cbv zeta. fold posts. fold zeros.
    rewrite Hloop. simpl. unfold getitem. rewrite Hi0, Hi1, Hi2. simpl.
    reflexivity. }
  split; [exact Hsome|]. split; [|split].
  - intros a b na nb Ha Hb Hlt.
    apply mapping_lookup in Ha, Hb. eapply order_descending; eauto.
  - intros i r Hr. subst zeros posts.
    rewrite !nth_error_zip_with, !nth_error_map, !Hr. cbn [option_map].
    eexists. split; [reflexivity|]. cbn [h_regime p_regime].
    split; [reflexivity|].
    intros old new Hon. destruct (Hkey old new Hon) as [Ho Hn].
    apply assign_row_lookup; try assumption.
    + apply (seq_NoDup 3 0).
    + apply (in_seq 3 0). unfold n_states in Ho. lia.
    + rewrite repeat_length. rewrite Forall_forall in Hrows.
      destruct (Hrows r) as [_ ->]; [eapply nth_error_In; eauto|]. exact Hn.
  - intros a b na nb Ha Hb.
    destruct (Hkey a na Ha) as [_ Hna]. destruct (Hkey b nb Hb) as [_ Hnb].
    unfold n_states in Hna, Hnb. unfold ix_.
    assert (Ea : nth na [i0; i1; i2] 0%nat = a).
    { destruct na as [|[|[|?]]]; simpl; try lia; eapply Hinj; eauto. }
    assert (Eb : nth nb [i0; i1; i2] 0%nat = b).
    { destruct nb as [|[|[|?]]]; simpl; try lia; eapply Hinj; eauto. }
    rewrite <- Ea, <- Eb.
    destruct na as [|[|[|?]]]; try lia; destruct nb as [|[|[|?]]]; try lia;
      reflexivity.
Qed.

Lemma fit_rows_all_states :
  forall k, (k < n_states)%nat -> In k (map state fit_rows).
Proof.
  intros k Hk. unfold n_states in Hk. simpl.
  destruct k as [|[|[|?]]]; auto; lia.
Qed.

Lemma fit_rows_well_formed :
  Forall (fun r => (state r < n_states)%nat /\ length (post r) = n_states) fit_rows.
Proof. unfold n_states. repeat constructor. Qed.

Lemma hmm_relabel_consistent_witness :
  exists outs T,
    hmm_relabel fit_rows fit_trans = Ok (outs, T) /\
    (forall old, (old < n_states)%nat ->
       exists new, _order_states_by_expansiveness fit_rows !! old = Some new /\
                   (new < n_states)%nat) /\
    (forall a b na nb,
       _order_states_by_expansiveness fit_rows !! a = Some na ->
       _order_states_by_expansiveness fit_rows !! b = Some nb ->
       (na < nb)%nat -> expansiveness fit_rows b <= expansiveness fit_rows a) /\
    (forall i r, nth_error fit_rows i = Some r ->
       exists o, nth_error outs i = Some o /\
         h_regime o = _order_states_by_expansiveness fit_rows !! state r /\
         forall old new,
           _order_states_by_expansiveness fit_rows !! old = Some new ->
           p_regime o !! new = Some (nth old (post r) 0)) /\
    (forall a b na nb,
       _order_states_by_expansiveness fit_rows !! a = Some na ->
       _order_states_by_expansiveness fit_rows !! b = Some nb ->
       nth nb (nth na T []) 0 = nth b (nth a fit_trans []) 0).
Proof.
  exact (@hmm_relabel_consistent fit_rows fit_trans
           fit_rows_all_states fit_rows_well_formed).
Defined.

(** ** Backend A leaves the posterior in raw order *)

(** C1 (fails for the static backend). In [fit_rows] raw state 1 is the most
    expansive, so it becomes canonical state 0.  Row 1 has raw state 1 and
    raw posterior (0.1, 0.8, 0.1).  The HMM script emits for it the label 0
    and the posterior (0.8, 0.1, 0.1), component i being the probability of
    canonical state i.  The GMM script emits the label 0 with
    [regime_p0 = 0.1]: the probability of raw state 0, which is canonical
    state 2. *)
Theorem gmm_posterior_stays_in_raw_order :
  _order_states_by_expansiveness fit_rows !! 1%nat = Some 0%nat /\
  nth_error (map post fit_rows) 1 = Some [1 # 10; 8 # 10; 1 # 10] /\
  nth_error (gmm_relabel fit_rows) 1 =
    Some {| regime := Some 0%nat;
            regime_p0 := 1 # 10; regime_p1 := 8 # 10; regime_p2 := 1 # 10 |} /\
  (exists outs T,
      hmm_relabel fit_rows fit_trans = Ok (outs, T) /\
      nth_error outs 1 =
        Some {| h_regime := Some 0%nat; p_regime := [8 # 10; 1 # 10; 1 # 10] |}).
Proof.
  split; [vm_compute; reflexivity|].
  split; [reflexivity|].
  split; [vm_compute; reflexivity|].
  eexists _, _. split; [apply fit_rows_hmm|reflexivity].
Qed.

(** ** Degenerate fits *)

Lemma some_state_unobserved (rows : list obs_row) :
  (length (group_keys (map state rows)) < n_states)%nat ->
  exists k, In k (seq 0 n_states) /\ ~ In k (map state rows).
Proof.
  intros Hlt.
  destruct (in_dec Nat.eq_dec 0%nat (map state rows)) as [H0|H0];
    [|exists 0%nat; split; [simpl; auto|exact H0]].
  destruct (in_dec Nat.eq_dec 1%nat (map state rows)) as [H1|H1];
    [|exists 1%nat; split; [simpl; auto|exact H1]].
  destruct (in_dec Nat.eq_dec 2%nat (map state rows)) as [H2|H2];
    [|exists 2%nat; split; [simpl; auto|exact H2]].
  exfalso.
  assert (Hincl : incl [0; 1; 2]%nat (group_keys (map state rows))).
  { intros k Hk. apply group_keys_In. simpl in Hk.
    destruct Hk as [<-|[<-|[<-|[]]]]; assumption. }
  apply NoDup_incl_length in Hincl.
  - unfold n_states in Hlt. simpl in Hincl. lia.
  - repeat constructor; simpl; intuition lia.
Qed.

(** C3 (holds for the sequential backend, fails for the static one).  When
    fewer than K = 3 distinct raw states are assigned, the HMM script stops
    with a [KeyError] on a raw state that no row carries, raised by
    [mapping[old_state]] in the posterior loop.  The GMM script, whose
    mapping is commented "0=expansivo,1=neutral,2=contractivo", does not
    stop: it labels every row, using exactly the labels 0 .. m-1 for the
    m < K raw states that occur, so one of the three regimes is silently
    absent from its output. *)
Theorem degenerate_fit_hmm_raises_gmm_completes
    (rows : list obs_row) (trans_raw : Smooth.matrix) :
  (length (group_keys (map state rows)) < n_states)%nat ->
  (exists k, (k < n_states)%nat /\ ~ In k (map state rows) /\
             hmm_relabel rows trans_raw = KeyError k) /\
  length (gmm_relabel rows) = length rows /\
  (forall o, In o (gmm_relabel rows) ->
     exists c, regime o = Some c /\
               (c < length (group_keys (map state rows)))%nat) /\
  (forall c, (c < length (group_keys (map state rows)))%nat ->
     exists o, In o (gmm_relabel rows) /\ regime o = Some c).
Proof.
  intros Hlt. split; [|split; [|split]].
  - destruct (some_state_unobserved rows Hlt) as (k0 & Hk0 & Hn0).
    destruct (@reorder_posterior_fails (_order_states_by_expansiveness rows)
                (seq 0 n_states) (map post rows)
                (map (fun q => repeat 0 (length q)) (map post rows)))
      as (k & Hk & Hkn & Hr).
    { exists k0. split; [exact Hk0|]. now apply mapping_None. }
    exists k. split; [apply in_seq in Hk; lia|].
    split; [now apply mapping_None|].
    unfold hmm_relabel. cbv zeta. rewrite Hr. reflexivity.
  - unfold gmm_relabel. now rewrite length_map.
  - intros o Ho. unfold gmm_relabel in Ho. apply in_map_iff in Ho.
    destruct Ho as (r & <- & Hr). cbn [regime].
    destruct (_order_states_by_expansiveness rows !! state r) as [c|] eqn:E.
    + exists c. split; [reflexivity|]. now apply mapping_range in E.
    + apply mapping_None in E. exfalso. apply E. now apply in_map.
  - intros c Hc. destruct (@mapping_onto rows c Hc) as [old Hold].
    destruct (mapping_range _ _ Hold) as [_ Hin].
    apply in_map_iff in Hin. destruct Hin as (r & <- & Hr).
    eexists. split.
    + unfold gmm_relabel. apply in_map_iff. exists r. split; [reflexivity|exact Hr].
    + exact Hold.
Qed.

Lemma degenerate_rows_two_states :
  (length (group_keys (map state degenerate_rows)) < n_states)%nat.
Proof. vm_compute. lia. Qed.

Lemma degenerate_fit_hmm_raises_gmm_completes_witness :
  (exists k, (k < n_states)%nat /\ ~ In k (map state degenerate_rows) /\
             hmm_relabel degenerate_rows fit_trans = KeyError k) /\
  length (gmm_relabel degenerate_rows) = length degenerate_rows /\
  (forall o, In o (gmm_relabel degenerate_rows) ->
     exists c, regime o = Some c /\
               (c < length (group_keys (map state degenerate_rows)))%nat) /\
  (forall c, (c < length (group_keys (map state degenerate_rows)))%nat ->
     exists o, In o (gmm_relabel degenerate_rows) /\ regime o = Some c).
Proof.
  exact (@degenerate_fit_hmm_raises_gmm_completes degenerate_rows fit_trans
           degenerate_rows_two_states).
Defined.

(** The two scripts on [degenerate_rows], where only the raw states 0 and 1
    are assigned: the GMM script returns its table, labelled with the two
    canonical labels 0 and 1 only; the HMM script stops. *)
Lemma gmm_degenerate_fit_is_silent :
  (length (group_keys (map state degenerate_rows)) < n_states)%nat /\
  map regime (gmm_relabel degenerate_rows) = [Some 1; Some 0; Some 0]%nat /\
  hmm_relabel degenerate_rows fit_trans = KeyError 2.
Proof.
  split; [vm_compute; lia|].
  split; vm_compute; reflexivity.
Qed.

End Regime.

(* ===================================================================== *)
(** * Further properties of the pipeline                                  *)
(* ===================================================================== *)

(** The modules that follow reuse the embedding above and add the parts of
    the scripts it left out: the derived levels and their differences
    ([Derived], [FixedUnits]), the incremental and the full ingestion
    ([Incremental], [Ingest], [Sdmx]), the matrix the models are fitted on
    ([FitInput]), the weekly driver ([Weekly]); and properties of how the
    stages compose ([Lookback], [PointInTime], [Master],
    [RegimeOutput], [Shrinkage], [Canonical], [BestModel]). *)

(* ===================================================================== *)
(** * The rolling features look backward only (05_build_gli_master.py)    *)
(* ===================================================================== *)

Module Lookback.

Import Features.
Import ZScore.

(** ** Properties of the rolling features *)

Lemma nth_error_firstn_S {A} (l : list A) (t : nat) :
  nth_error (firstn (S t) l) t = nth_error l t.
Proof.
  rewrite nth_error_firstn. destruct (Nat.ltb_spec t (S t)); [reflexivity|lia].
Qed.

Lemma firstn_agree_le {A} (l l' : list A) (n m : nat) :
  (m <= n)%nat -> firstn n l = firstn n l' -> firstn m l = firstn m l'.
Proof.
  revert l l' n. induction m as [|m IH]; intros l l' n Hle H; [reflexivity|].
  destruct n as [|n]; [lia|].
  destruct l as [|x l], l' as [|x' l']; simpl in *; try discriminate;
    [reflexivity|].
  injection H as -> H. f_equal. apply (IH l l' n); [lia|exact H].
Qed.

Lemma nth_error_agree {A} (l l' : list A) (t i : nat) :
  (i <= t)%nat -> firstn (S t) l = firstn (S t) l' ->
  nth_error l i = nth_error l' i.
Proof.
  intros Hle H.
  rewrite <- (nth_error_firstn_S l i), <- (nth_error_firstn_S l' i).
  f_equal. apply (@firstn_agree_le A l l' (S t) (S i)); [lia|exact H].
Qed.

Lemma window_agree {A} (l l' : list A) (w t : nat) :
  firstn (S t) l = firstn (S t) l' -> window l w t = window l' w t.
Proof. intros H. unfold window. now rewrite H. Qed.

Lemma rolling_apply_agree {A} (f : list A -> fval A) (s s' : list (fval A)) (w t : nat) :
  firstn (S t) s = firstn (S t) s' ->
  (t < length s)%nat -> (t < length s')%nat ->
  nth_error (rolling_apply f s w) t = nth_error (rolling_apply f s' w) t.
Proof.
  intros H Hl Hl'. rewrite !rolling_apply_row, (@window_agree _ s s' w t H).
  destruct (Nat.ltb_spec t (length s)); [|lia].
  destruct (Nat.ltb_spec t (length s')); [reflexivity|lia].
Qed.

Lemma pct_change_agree (s s' : list (fval Q)) (k t : nat) :
  firstn (S t) s = firstn (S t) s' ->
  (t < length s)%nat -> (t < length s')%nat ->
  nth_error (pct_change k s) t = nth_error (pct_change k s') t.
Proof.
  intros H Hl Hl'. unfold pct_change.
  rewrite !nth_error_zip_with.
  rewrite !nth_error_shift by assumption.
  rewrite (@nth_error_agree _ _ _ t t (Nat.le_refl t) H).
  destruct (nth_error s' t); [|reflexivity].
  destruct (t <? k)%nat; [reflexivity|].
  now rewrite (@nth_error_agree _ _ _ t (t - k) (Nat.le_sub_l t k) H).
Qed.

Lemma zscore_agree (s s' : list (fval R)) (w t : nat) :
  firstn (S t) s = firstn (S t) s' ->
  (t < length s)%nat -> (t < length s')%nat ->
  nth_error (zscore s w) t = nth_error (zscore s' w) t.
Proof.
  intros H Hl Hl'. unfold zscore, rolling_mean, rolling_std. cbv zeta.
  rewrite !nth_error_zip_with.
  rewrite (@nth_error_agree _ s s' t t (Nat.le_refl t) H).
  rewrite (@rolling_apply_agree _ mean_kernel s s' w t H Hl Hl').
  now rewrite (@rolling_apply_agree _ (fun vals => fsqrt (var_kernel 0 vals)) s s' w t H Hl Hl').
Qed.

(** X2. No lookahead. The percent change, the rolling percentile rank and
    the rolling z-score at row t are functions of the rows 0..t only: two
    columns that agree up to row t give the same feature value at row t,
    whatever follows. *)
Theorem features_look_backward_only
    (q q' : list (fval Q)) (r r' : list (fval R)) (w k t : nat) :
  firstn (S t) q = firstn (S t) q' -> (t < length q)%nat -> (t < length q')%nat ->
  firstn (S t) r = firstn (S t) r' -> (t < length r)%nat -> (t < length r')%nat ->
  nth_error (pct_change k q) t = nth_error (pct_change k q') t /\
  nth_error (pct_rank q w) t = nth_error (pct_rank q' w) t /\
  nth_error (zscore r w) t = nth_error (zscore r' w) t.
Proof.
  intros Hq Hlq Hlq' Hr Hlr Hlr'. split; [|split].
  - now apply pct_change_agree.
  - unfold pct_rank. now apply rolling_apply_agree.
  - now apply zscore_agree.
Qed.

Lemma features_look_backward_only_witness :
  nth_error (pct_change 1 [Fin 1; Fin 2; Fin 5]%Q) 1 =
    nth_error (pct_change 1 [Fin 1; Fin 2; Fin 9; NaN]%Q) 1 /\
  nth_error (pct_rank [Fin 1; Fin 2; Fin 5]%Q 2) 1 =
    nth_error (pct_rank [Fin 1; Fin 2; Fin 9; NaN]%Q 2) 1 /\
  nth_error (zscore [Fin 1; Fin 3; Fin 3]%R 2) 1 =
    nth_error (zscore [Fin 1; Fin 3; PInf]%R 2) 1.
Proof.
  apply (@features_look_backward_only
           [Fin 1; Fin 2; Fin 5]%Q [Fin 1; Fin 2; Fin 9; NaN]%Q
           [Fin 1; Fin 3; Fin 3]%R [Fin 1; Fin 3; PInf]%R 2 1 1);
    try reflexivity; simpl; lia.
Defined.

End Lookback.

(* ===================================================================== *)
(** * What the HMM script writes stays a set of distributions (07)        *)
(* ===================================================================== *)

Module RegimeOutput.

Import Features.
Import Regime.

Open Scope Q_scope.

(** ** Properties of the relabeled output *)

Lemma Qsum_perm (l l' : list Q) : Permutation l l' -> Qsum l == Qsum l'.
Proof.
  induction 1 as [|x l l' _ IH|x y l|l l' l'' _ IH1 _ IH2]; simpl.
  - reflexivity.
  - now rewrite IH.
  - ring.
  - now rewrite IH1.
Qed.

Lemma length_assign_row (mapping : gmap nat nat) (olds : list nat) (p q : list Q) :
  length (assign_row mapping olds p q) = length p.
Proof.
  unfold assign_row. revert p. induction olds as [|old olds IH]; intros p;
    simpl; [reflexivity|].
  rewrite IH. destruct (mapping !! old); [apply length_insert|reflexivity].
Qed.

(** Three distinct indices below 3 are 0, 1, 2 in some order. *)
Lemma three_indices_perm (i0 i1 i2 : nat) :
  (i0 < 3)%nat -> (i1 < 3)%nat -> (i2 < 3)%nat ->
  i0 <> i1 -> i0 <> i2 -> i1 <> i2 ->
  Permutation [i0; i1; i2] [0; 1; 2]%nat.
Proof.
  intros H0 H1 H2 H01 H02 H12.
  apply NoDup_Permutation_bis.
  - repeat constructor; simpl; intuition lia.
  - simpl. lia.
  - intros k Hk. simpl in Hk |- *. lia.
Qed.

Lemma pick_three (q : list Q) :
  length q = 3%nat -> map (fun j => nth j q 0) [0; 1; 2]%nat = q.
Proof.
  destruct q as [|a [|b [|c [|d q]]]]; simpl; intros H; try discriminate.
  reflexivity.
Qed.

Lemma picked_perm (q : list Q) (i0 i1 i2 : nat) :
  length q = 3%nat -> Permutation [i0; i1; i2] [0; 1; 2]%nat ->
  Permutation (map (fun j => nth j q 0) [i0; i1; i2]) q.
Proof.
  intros Hq Hp.
  pose proof (Permutation_map (fun j => nth j q 0) Hp) as H.
  now rewrite (@pick_three q Hq) in H.
Qed.

Lemma three_lookups (p : list Q) (a b c : Q) :
  length p = 3%nat ->
  p !! 0%nat = Some a -> p !! 1%nat = Some b -> p !! 2%nat = Some c ->
  p = [a; b; c].
Proof.
  destruct p as [|x [|y [|z [|w p]]]]; simpl; intros H; try discriminate.
  intros Ha Hb Hc. congruence.
Qed.

(** X4. With the three raw states all observed and the transition matrix
    the smoothed one, the HMM script's output keeps what makes its columns
    probabilities: the transition matrix in canonical order is 3 by 3 with
    strictly positive entries and rows summing to 1, and every row's
    canonical posterior is a rearrangement of its raw posterior (no
    component lost, none repeated, hence the same sum). *)
Theorem hmm_relabel_keeps_distributions
    (rows : list obs_row) (T0 : Smooth.matrix) (eps : Q) :
  (forall k, (k < n_states)%nat -> In k (map state rows)) ->
  Forall (fun r => (state r < n_states)%nat /\ length (post r) = n_states) rows ->
  0 < eps ->
  Smooth.is_square n_states T0 ->
  Forall (fun row => Forall (fun x => 0 <= x) row /\ 0 < Qsum row) T0 ->
  exists outs T,
    hmm_relabel rows (Smooth._smooth_transmat T0 eps) = Ok (outs, T) /\
    Smooth.is_square n_states T /\
    Forall (fun row => Forall (fun x => 0 < x) row /\ Qsum row == 1) T /\
    (forall i r, nth_error rows i = Some r ->
       exists o, nth_error outs i = Some o /\
                 Permutation (p_regime o) (post r) /\
                 Qsum (p_regime o) == Qsum (post r)).
Proof.
  intros Hall Hrows He [HK Hsq] Hin.
  set (S := Smooth._smooth_transmat T0 eps).
  set (m := _order_states_by_expansiveness rows).
  assert (Hrange : Forall (fun r => (state r < n_states)%nat) rows).
  { eapply Forall_impl; [|exact Hrows]. simpl. tauto. }
  pose proof (@all_states_observed_keys rows Hall Hrange) as Hlen.
  assert (Hinj : forall a b n, m !! a = Some n -> m !! b = Some n -> a = b).
  { intros a b n. apply mapping_injective. }
  assert (Hsome : forall old, (old < n_states)%nat -> is_Some (m !! old)).
  { intros old Hold. destruct (m !! old) as [new|] eqn:E; [eauto|].
    apply mapping_None in E. exfalso. apply E, Hall, Hold. }
  assert (Hkey : forall old new, m !! old = Some new ->
                   (old < 3)%nat /\ (new < 3)%nat).
  { intros old new E. apply mapping_range in E. destruct E as [E1 E2].
    rewrite Hlen in E1. split; [|exact E1].
    apply in_map_iff in E2. destruct E2 as (r & <- & Hr).
    rewrite Forall_forall in Hrange. now apply Hrange. }
  assert (Honto : forall new, (new < n_states)%nat ->
                    exists old, invert m !! new = Some old /\ m !! old = Some new).
  { intros new Hnew. destruct (@mapping_onto rows new) as [old Hold];
      [now rewrite Hlen|].
    exists old. split; [|exact Hold]. now apply invert_lookup. }
  destruct (Honto 0%nat) as (i0 & Hi0 & Hm0); [unfold n_states; lia|].
  destruct (Honto 1%nat) as (i1 & Hi1 & Hm1); [unfold n_states; lia|].
  destruct (Honto 2%nat) as (i2 & Hi2 & Hm2); [unfold n_states; lia|].
  assert (Hperm : Permutation [i0; i1; i2] [0; 1; 2]%nat).
  { destruct (Hkey _ _ Hm0) as [K0 _], (Hkey _ _ Hm1) as [K1 _],
      (Hkey _ _ Hm2) as [K2 _].
    apply three_indices_perm; try assumption; intros E; subst; congruence. }
  set (posts := map post rows).
  set (zeros := map (fun q => repeat 0 (length q)) posts).
  assert (Hloop : reorder_posterior m (seq 0 n_states) posts zeros =
                  Ok (zip_with (assign_row m (seq 0 n_states)) zeros posts)).
  { apply reorder_posterior_ok.
    - subst zeros. now rewrite length_map.
    - intros old Hold. apply in_seq in Hold. apply Hsome. lia. }
  (* the smoothed matrix, row by row *)
  assert (HS : forall i, In i [i0; i1; i2] ->
             let srow := nth i S [] in
             length srow = 3%nat /\ Forall (fun x => 0 < x) srow /\ Qsum srow == 1).
  { intros i Hi srow.
    assert (Hi3 : (i < 3)%nat).
    { apply (Permutation_in _ Hperm) in Hi. simpl in Hi. lia. }
    assert (HlS : length S = 3%nat).
    { subst S. rewrite Smooth._smooth_transmat_rows, length_map. exact HK. }
    assert (Hsrow : In srow S) by (apply nth_In; lia).
    subst S. rewrite Smooth._smooth_transmat_rows in Hsrow.
    apply in_map_iff in Hsrow. destruct Hsrow as (row & Erow & Hrow).
    rewrite Forall_forall in Hin, Hsq.
    destruct (Hin row Hrow) as [Hnn Hpos].
    destruct (Smooth.smooth_row_ok He Hnn Hpos) as (Hp & Hsum & Hl).
    cbv zeta in Hp, Hsum, Hl, Erow. rewrite Erow in Hp, Hsum, Hl.
    rewrite Hl, (Hsq row Hrow). auto. }
  exists (zip_with (fun g q => {| h_regime := g; p_regime := q |})
            (map (fun r => m !! state r) rows)
            (zip_with (assign_row m (seq 0 n_states)) zeros posts)),
         (ix_ S [i0; i1; i2] [i0; i1; i2]).
  split.
  { unfold hmm_relabel. fold m. cbv zeta. fold posts. fold zeros.
    rewrite Hloop. simpl. unfold getitem. rewrite Hi0, Hi1, Hi2. simpl.
    reflexivity. }
  split; [|split].
  - unfold ix_. split; [reflexivity|].
    apply Forall_forall. intros row Hrow.
    apply in_map_iff in Hrow. destruct Hrow as (i & <- & _).
    now rewrite length_map.
  - unfold ix_. rewrite Forall_map. apply Forall_forall. intros i Hi.
    destruct (HS i Hi) as (Hl & Hp & Hsum). cbv zeta in Hl, Hp, Hsum.
    fold S.
    pose proof (@picked_perm (nth i S []) i0 i1 i2 Hl Hperm) as Hpp.
    split.
    + rewrite Forall_forall in Hp |- *. intros x Hx.
      apply Hp. eapply Permutation_in; eauto.
    + now rewrite (Qsum_perm Hpp).
  - intros i r Hr. subst zeros posts.
    rewrite !nth_error_zip_with, !nth_error_map, !Hr. cbn [option_map].
    eexists. split; [reflexivity|]. cbn [p_regime].
    rewrite Forall_forall in Hrows.
    destruct (Hrows r) as [_ Hq]; [eapply nth_error_In; eauto|].
    unfold n_states in Hq.
    assert (Hcell : forall old new, m !! old = Some new ->
              assign_row m (seq 0 n_states) (repeat 0 (length (post r))) (post r)
                !! new = Some (nth old (post r) 0)).
    { intros old new Hon. destruct (Hkey old new Hon) as [Ho Hn].
      apply assign_row_lookup; try assumption.
      - apply (seq_NoDup 3 0).
      - apply (in_seq 3 0). lia.
      - rewrite repeat_length, Hq. exact Hn. }
    assert (E : assign_row m (seq 0 n_states) (repeat 0 (length (post r))) (post r)
                = map (fun j => nth j (post r) 0) [i0; i1; i2]).
    { apply three_lookups; [|now apply Hcell..].
      now rewrite length_assign_row, repeat_length. }
    rewrite E. pose proof (@picked_perm (post r) i0 i1 i2 Hq Hperm) as Hpp.
    split; [exact Hpp|now apply Qsum_perm].
Qed.

Lemma hmm_relabel_keeps_distributions_witness :
  exists outs T,
    hmm_relabel fit_rows (Smooth._smooth_transmat Smooth.T_with_zeros (1 # 1000))
      = Ok (outs, T) /\
    Smooth.is_square n_states T /\
    Forall (fun row => Forall (fun x => 0 < x) row /\ Qsum row == 1) T /\
    (forall i r, nth_error fit_rows i = Some r ->
       exists o, nth_error outs i = Some o /\
                 Permutation (p_regime o) (post r) /\
                 Qsum (p_regime o) == Qsum (post r)).
Proof.
  apply (@hmm_relabel_keeps_distributions fit_rows Smooth.T_with_zeros (1 # 1000)).
  - exact fit_rows_all_states.
  - exact fit_rows_well_formed.
  - reflexivity.
  - split; [reflexivity|]. repeat constructor.
  - repeat constructor; simpl; try discriminate; reflexivity.
Defined.

End RegimeOutput.

(* ===================================================================== *)
(** * Smoothing pulls a row-stochastic matrix toward the uniform one (07) *)
(* ===================================================================== *)

Module Shrinkage.

Import Features.
Import Smooth.

Open Scope Q_scope.

(** ** Properties of the smoothing of a row-stochastic matrix *)

Lemma Qsum_add_scalar (row : list Q) (eps : Q) :
  Qsum (map (fun x => x + eps) row) == Qsum row + QN (length row) * eps.
Proof.
  induction row as [|x row IH].
  - simpl. unfold QN. simpl. ring.
  - cbn [map Qsum length]. rewrite IH.
    replace (S (length row)) with (1 + length row)%nat by reflexivity.
    rewrite QN_add. change (QN 1) with 1. ring.
Qed.

(** X5. On a matrix whose rows already sum to 1 (what hmmlearn fits), the
    smoothing is a blend with the uniform distribution: with K the row length
    and lam = K*eps / (1 + K*eps), which lies in [0, 1), entry x becomes
    (1 - lam) * x + lam / K.  So eps = 0 changes nothing, and a larger eps
    moves every entry closer to 1/K. *)
Theorem smooth_transmat_blends_with_uniform
    (T : matrix) (eps : Q) (i j : nat) (row : list Q) (x : Q) :
  0 <= eps ->
  nth_error T i = Some row -> Qsum row == 1 -> nth_error row j = Some x ->
  let K := QN (length row) in
  let lam := K * eps / (1 + K * eps) in
  0 <= lam /\ lam < 1 /\
  exists srow y,
    nth_error (_smooth_transmat T eps) i = Some srow /\
    nth_error srow j = Some y /\
    y == (1 - lam) * x + lam * (1 / K) /\
    (eps == 0 -> y == x).
Proof.
  intros He Hrow Hsum Hx K lam.
  assert (HK : 0 < K).
  { subst K. apply QN_pos.
    assert (j < length row)%nat by (apply nth_error_Some; congruence). lia. }
  assert (Hden : 0 < 1 + K * eps) by nra.
  assert (Hlam0 : 0 <= lam).
  { subst lam. apply Qle_shift_div_l; [exact Hden|]. nra. }
  assert (Hlam1 : lam < 1).
  { subst lam. apply Qlt_shift_div_r; [exact Hden|]. lra. }
  split; [exact Hlam0|]. split; [exact Hlam1|].
  rewrite _smooth_transmat_rows. cbv zeta.
  rewrite nth_error_map, Hrow. cbn [option_map].
  eexists _, _. split; [reflexivity|].
  rewrite !nth_error_map, Hx. cbn [option_map]. split; [reflexivity|].
  rewrite Qsum_add_scalar, Hsum. fold K.
  split.
  - subst lam. field. split; lra.
  - intros E. rewrite E. field.
Qed.

Lemma smooth_transmat_blends_with_uniform_witness :
  let K := QN (length [0; 1 # 2; 1 # 2]) in
  let lam := K * (1 # 1000) / (1 + K * (1 # 1000)) in
  0 <= lam /\ lam < 1 /\
  exists srow y,
    nth_error (_smooth_transmat T_with_zeros (1 # 1000)) 1 = Some srow /\
    nth_error srow 0 = Some y /\
    y == (1 - lam) * 0 + lam * (1 / K) /\
    ((1 # 1000) == 0 -> y == 0).
Proof.
  apply (@smooth_transmat_blends_with_uniform
           T_with_zeros (1 # 1000) 1 0 [0; 1 # 2; 1 # 2] 0);
    try reflexivity. discriminate.
Defined.

End Shrinkage.

(* ===================================================================== *)
(** * The derived levels and their differences (02, 03, 04)               *)
(* ===================================================================== *)

Module Derived.

Import Features.

Open Scope Q_scope.

(** IEEE addition and multiplication on the float model. *)
Definition fadd (x y : fval Q) : fval Q :=
  match x, y with
  | NaN, _ | _, NaN => NaN
  | Fin a, Fin b => Fin (a + b)
  | PInf, NInf | NInf, PInf => NaN
  | PInf, _ | _, PInf => PInf
  | NInf, _ | _, NInf => NInf
  end.

Definition fmul_inf (positive : bool) (a : Q) : fval Q :=
  if Qeq_bool a 0 then NaN
  else if xorb positive (Qle_bool 0 a) then NInf else PInf.

Definition fmul (x y : fval Q) : fval Q :=
  match x, y with
  | NaN, _ | _, NaN => NaN
  | Fin a, Fin b => Fin (a * b)
  | PInf, Fin a | Fin a, PInf => fmul_inf true a
  | NInf, Fin a | Fin a, NInf => fmul_inf false a
  | PInf, PInf | NInf, NInf => PInf
  | PInf, NInf | NInf, PInf => NInf
  end.

(** A cell of the aligned frame as the float it is. *)
Definition cell (o : option Q) : fval Q :=
  match o with
  | Some v => Fin v
  | None => NaN
  end.

(** [df[name]] for the i-th merged series. *)
Definition column (i : nat) (df : Aligner.table) : list (fval Q) :=
  map (fun r => cell (nth i (snd r) None)) df.

(** The value of the i-th cell of a row (0 where it is missing). *)
Definition val (i : nat) (r : Aligner.row) : Q :=
  match nth i (snd r) None with
  | Some v => v
  | None => 0
  end.

(** [Series.diff(k)]: [s - s.shift(k)], a lag in rows. *)
Definition diff (k : nat) (col : list (fval Q)) : list (fval Q) :=
  zip_with fsub col (shift k col).

(** ** Net liquidity (02, and 03 after the unit conversion) *)

Record net_liquidity_frame : Type := {
  nl_date : list Z;
  WALCL : list (fval Q);
  RRPONTSYD : list (fval Q);
  WTREGEN : list (fval Q);
  net_liquidity_usa : list (fval Q);
  net_liquidity_usa_d1 : list (fval Q);
  net_liquidity_usa_w1 : list (fval Q)
}.

(** Lines 40-54 of 02 (107-114 of 03), on the three series the readers
    return. *)
Definition build_net_liquidity (walcl rrp tga : Aligner.series)
  : net_liquidity_frame :=
  let df := Aligner.build_aligned [walcl; rrp; tga] in
  let a := column 0 df in
  let b := column 1 df in
  let c := column 2 df in
  let net := zip_with fsub (zip_with fsub a b) c in
  {| nl_date := Aligner.dates df;
     WALCL := a; RRPONTSYD := b; WTREGEN := c;
     net_liquidity_usa := net;
     net_liquidity_usa_d1 := diff 1 net;
     net_liquidity_usa_w1 := diff 7 net |}.

(** ** Global central-bank assets in USD (04) *)

Record cb_frame : Type := {
  cb_date : list Z;
  fed_usd_millions : list (fval Q);
  ecb_usd_millions : list (fval Q);
  boj_usd_millions : list (fval Q);
  global_cb_assets_usd_millions : list (fval Q);
  global_cb_assets_usd_d1 : list (fval Q);
  global_cb_assets_usd_w1 : list (fval Q);
  usd_per_eur : list (fval Q);
  jpy_per_usd : list (fval Q)
}.

(** Lines 48-96 of 04: the frame [df_out] of the columns in [keep]. *)
Definition build_global_cb_assets (fed ecb boj jpy usd : Aligner.series)
  : cb_frame :=
  let df := Aligner.build_aligned [fed; ecb; boj; jpy; usd] in
  let fed_c := column 0 df in
  let ecb_eur := column 1 df in
  let boj_100m_yen := column 2 df in
  let jpy_c := column 3 df in
  let usd_c := column 4 df in
  let ecb_usd := zip_with fmul ecb_eur usd_c in
  let boj_usd := zip_with fdiv (map (fun x => fmul x (Fin 100)) boj_100m_yen) jpy_c in
  let global := zip_with fadd (zip_with fadd fed_c ecb_usd) boj_usd in
  {| cb_date := Aligner.dates df;
     fed_usd_millions := fed_c;
     ecb_usd_millions := ecb_usd;
     boj_usd_millions := boj_usd;
     global_cb_assets_usd_millions := global;
     global_cb_assets_usd_d1 := diff 1 global;
     global_cb_assets_usd_w1 := diff 7 global;
     usd_per_eur := usd_c;
     jpy_per_usd := jpy_c |}.

(** A yen rate of zero on the second date. *)
Definition fed_ex : Aligner.series := [(1%Z, 7000); (2%Z, 7010)].
Definition ecb_ex : Aligner.series := [(1%Z, 6000); (2%Z, 6000)].
Definition boj_ex : Aligner.series := [(1%Z, 5000); (2%Z, 5000)].
Definition jpy_ex : Aligner.series := [(1%Z, 150); (2%Z, 0)].
Definition usd_ex : Aligner.series := [(1%Z, 11 # 10); (2%Z, 11 # 10)].

(** ** Properties of the aligned frame's shape *)

Lemma merge_outer_width (w : nat) (left : Aligner.table) (right : Aligner.series) :
  (forall r, In r left -> length (snd r) = w) ->
  forall r, In r (Aligner.merge_outer w left right) -> length (snd r) = S w.
Proof.
  intros Hw r Hr. unfold Aligner.merge_outer in Hr.
  apply in_flat_map in Hr. destruct Hr as (k & _ & Hr).
  assert (Hleft : forall l, In l (Aligner.rows_at k left) -> length (snd l) = w).
  { intros l Hl. apply Aligner.rows_at_In in Hl. now apply Hw. }
  destruct (Aligner.rows_at k left) as [|l0 ls] eqn:El.
  - apply in_map_iff in Hr. destruct Hr as (x & <- & _). simpl.
    rewrite length_app, repeat_length. simpl. lia.
  - destruct (Aligner.rows_at k right) as [|r0 rs] eqn:Er.
    + apply in_map_iff in Hr. destruct Hr as (l & <- & Hl). simpl.
      rewrite length_app, (Hleft l Hl). simpl. lia.
    + apply in_flat_map in Hr. destruct Hr as (l & Hl & Hr).
      apply in_map_iff in Hr. destruct Hr as (x & <- & _). simpl.
      rewrite length_app, (Hleft l Hl). simpl. lia.
Qed.

Lemma merge_fold_width (rest : list Aligner.series) (t : Aligner.table) (w : nat) :
  (forall r, In r t -> length (snd r) = w) ->
  forall r,
    In r (fst (fold_left
                 (fun acc s' => (Aligner.merge_outer (snd acc) (fst acc) s', S (snd acc)))
                 rest (t, w))) ->
    length (snd r) = (w + length rest)%nat.
Proof.
  revert t w. induction rest as [|s rest IH]; intros t w Hw r Hr; simpl in *.
  - rewrite Nat.add_0_r. now apply Hw.
  - replace (w + S (length rest))%nat with (S w + length rest)%nat by lia.
    apply (IH (Aligner.merge_outer w t s) (S w)); [|exact Hr].
    now apply merge_outer_width.
Qed.

Lemma merge_all_width (ss : list Aligner.series) (r : Aligner.row) :
  In r (Aligner.merge_all ss) -> length (snd r) = length ss.
Proof.
  destruct ss as [|s rest]; simpl; [tauto|]. intros Hr.
  apply (@merge_fold_width rest (Aligner.of_series s) 1%nat); [|exact Hr].
  intros x Hx. unfold Aligner.of_series in Hx. apply in_map_iff in Hx.
  now destruct Hx as (y & <- & _).
Qed.

Lemma length_zip_fill (cells above : list (option Q)) :
  length cells = length above ->
  length (zip_with Aligner.fill_cell cells above) = length above.
Proof.
  revert above. induction cells as [|c cells IH]; intros [|a above]; simpl;
    intros H; try discriminate; [reflexivity|].
  f_equal. apply IH. lia.
Qed.

Lemma ffill_rows_width (t : Aligner.table) (above : list (option Q)) (w : nat) :
  length above = w ->
  (forall r, In r t -> length (snd r) = w) ->
  forall r, In r (Aligner.ffill_rows above t) -> length (snd r) = w.
Proof.
  revert above. induction t as [|[d cells] t IH]; intros above Ha Hw r Hr;
    simpl in Hr; [tauto|].
  assert (Hl : length (zip_with Aligner.fill_cell cells above) = w).
  { rewrite length_zip_fill; [exact Ha|].
    rewrite Ha. apply (Hw (d, cells)). now left. }
  destruct Hr as [<-|Hr]; [exact Hl|].
  apply (IH _ Hl); [|exact Hr]. intros x Hx. apply Hw. now right.
Qed.

Lemma all_present_values (cells : list (option Q)) :
  Aligner.all_present cells = true -> exists vs, cells = map Some vs.
Proof.
  induction cells as [|[v|] cells IH]; simpl; intros H; try discriminate.
  - now exists [].
  - destruct (IH H) as [vs ->]. now exists (v :: vs).
Qed.

(** Every row of the aligned frame has one present cell per series. *)
Lemma build_aligned_present (ss : list Aligner.series) (r : Aligner.row) :
  In r (Aligner.build_aligned ss) ->
  exists vs, snd r = map Some vs /\ length vs = length ss.
Proof.
  intros Hr. rewrite Aligner.build_aligned_unfold in Hr.
  apply filter_In in Hr. destruct Hr as [Hr Hall].
  assert (Hw : length (snd r) = length ss).
  { apply (@ffill_rows_width (sort_by_date (Aligner.merge_all ss))
             (repeat None (length ss)) (length ss));
      [apply repeat_length| |exact Hr].
    intros x Hx. apply merge_all_width.
    unfold sort_by_date in Hx. now apply isort_In in Hx. }
  destruct (all_present_values _ Hall) as [vs E]. exists vs.
  split; [exact E|]. now rewrite E, length_map in Hw.
Qed.

Lemma column_finite (ss : list Aligner.series) (i : nat) :
  (i < length ss)%nat ->
  column i (Aligner.build_aligned ss) =
  map Fin (map (val i) (Aligner.build_aligned ss)).
Proof.
  intros Hi. unfold column. rewrite map_map. apply map_ext_in.
  intros r Hr. destruct (build_aligned_present ss r Hr) as (vs & E & Hl).
  unfold val. rewrite E.
  assert (Hnth : nth i (map Some vs) None = Some (nth i vs 0)).
  { rewrite <- (map_nth Some). apply nth_indep. rewrite length_map. lia. }
  now rewrite Hnth.
Qed.

Lemma zip_with_map_same {A B C D} (f : B -> C -> D) (g : A -> B) (h : A -> C)
    (l : list A) :
  zip_with f (map g l) (map h l) = map (fun x => f (g x) (h x)) l.
Proof. induction l as [|x l IH]; simpl; [reflexivity|now rewrite IH]. Qed.

(** ** Properties of the differences *)

Lemma nth_error_diff (k : nat) (v : list Q) (t : nat) :
  (t < length v)%nat ->
  nth_error (diff k (map Fin v)) t =
  Some (if (t <? k)%nat then NaN else Fin (nth t v 0 - nth (t - k) v 0)).
Proof.
  intros Ht. unfold diff.
  rewrite nth_error_zip_with, nth_error_shift by now rewrite length_map.
  rewrite !nth_error_map.
  rewrite (nth_error_nth' v 0 Ht). cbn [option_map].
  destruct (Nat.ltb_spec t k); [reflexivity|].
  rewrite (@nth_error_nth' _ v (t - k) 0) by lia. reflexivity.
Qed.

(** A difference over k rows is the sum of the k one-row differences that
    end at the same row. *)
Lemma diff_telescopes (v : list Q) (k t : nat) :
  (k <= t)%nat ->
  nth t v 0 - nth (t - k) v 0 ==
  Qsum (map (fun i => nth (t - i) v 0 - nth (t - i - 1) v 0) (seq 0 k)).
Proof.
  induction k as [|k IH]; intros Hk.
  - simpl. rewrite Nat.sub_0_r. ring.
  - rewrite seq_S, map_app. simpl.
    assert (E : forall l x, Qsum (l ++ [x]) == Qsum l + x).
    { intros l x. induction l as [|y l IHl]; simpl; [ring|rewrite IHl; ring]. }
    rewrite E, <- IH by lia.
    replace (t - k - 1)%nat with (t - S k)%nat by lia. ring.
Qed.

(** X6. Net liquidity and its deltas (02, 03).  Every output row has the
    three aligned levels finite and [net = WALCL - RRPONTSYD - WTREGEN].
    The deltas lag by rows, not by calendar days: [d1] is NaN on the first
    row only, [w1] on the first seven rows only, and from the eighth row on
    [w1] is exactly the sum of the seven [d1] values ending at that row. *)
Theorem net_liquidity_deltas (walcl rrp tga : Aligner.series) :
  let T := build_net_liquidity walcl rrp tga in
  let n := length (Aligner.build_aligned [walcl; rrp; tga]) in
  (forall t, (t < n)%nat ->
     exists a b c,
       nth_error (WALCL T) t = Some (Fin a) /\
       nth_error (RRPONTSYD T) t = Some (Fin b) /\
       nth_error (WTREGEN T) t = Some (Fin c) /\
       nth_error (net_liquidity_usa T) t = Some (Fin (a - b - c))) /\
  (forall t, (t < n)%nat ->
     (nth_error (net_liquidity_usa_d1 T) t = Some NaN <-> t = 0%nat) /\
     (nth_error (net_liquidity_usa_w1 T) t = Some NaN <-> (t < 7)%nat)) /\
  (forall t, (7 <= t)%nat -> (t < n)%nat ->
     exists w ds,
       length ds = 7%nat /\
       nth_error (net_liquidity_usa_w1 T) t = Some (Fin w) /\
       (forall i, (i < 7)%nat ->
          nth_error (net_liquidity_usa_d1 T) (t - i) = Some (Fin (nth i ds 0))) /\
       w == Qsum ds).
Proof.
  intros T n.
  set (df := Aligner.build_aligned [walcl; rrp; tga]) in *.
  set (net := map (fun r => val 0 r - val 1 r - val 2 r) df).
  assert (Ea : WALCL T = map Fin (map (val 0) df))
    by (apply (@column_finite [walcl; rrp; tga] 0); simpl; lia).
  assert (Eb : RRPONTSYD T = map Fin (map (val 1) df))
    by (apply (@column_finite [walcl; rrp; tga] 1); simpl; lia).
  assert (Ec : WTREGEN T = map Fin (map (val 2) df))
    by (apply (@column_finite [walcl; rrp; tga] 2); simpl; lia).
  assert (Enet : net_liquidity_usa T = map Fin net).
  { change (net_liquidity_usa T)
      with (zip_with fsub (zip_with fsub (WALCL T) (RRPONTSYD T)) (WTREGEN T)).
    rewrite Ea, Eb, Ec, !map_map.
    rewrite zip_with_map_same, zip_with_map_same. subst net.
    rewrite map_map. reflexivity. }
  assert (Hn : length net = n) by (subst net; now rewrite length_map).
  assert (Ed1 : net_liquidity_usa_d1 T = diff 1 (map Fin net))
    by (rewrite <- Enet; reflexivity).
  assert (Ew1 : net_liquidity_usa_w1 T = diff 7 (map Fin net))
    by (rewrite <- Enet; reflexivity).
  split; [|split].
  - intros t Ht.
    destruct (nth_error df t) as [r|] eqn:Er.
    2:{ apply nth_error_None in Er. fold n in Er. lia. }
    exists (val 0 r), (val 1 r), (val 2 r).
    rewrite Ea, Eb, Ec, Enet. subst net.
    rewrite !nth_error_map, Er. auto.
  - intros t Ht. rewrite Ed1, Ew1, !nth_error_diff by lia.
    split.
    + destruct (Nat.ltb_spec t 1); split; intros H'; try lia; try reflexivity;
        discriminate.
    + destruct (Nat.ltb_spec t 7); split; intros H'; try lia; try reflexivity;
        discriminate.
  - intros t H7 Ht.
    exists (nth t net 0 - nth (t - 7) net 0),
           (map (fun i => nth (t - i) net 0 - nth (t - i - 1) net 0) (seq 0 7)).
    split; [reflexivity|]. split; [|split].
    + rewrite Ew1, nth_error_diff by lia.
      destruct (Nat.ltb_spec t 7); [lia|reflexivity].
    + intros i Hi. rewrite Ed1, nth_error_diff by lia.
      destruct (Nat.ltb_spec (t - i) 1); [lia|].
      do 7 (destruct i as [|i]; [reflexivity|]). lia.
    + apply diff_telescopes. exact H7.
Qed.

Lemma length_zip_eq {A B C} (f : A -> B -> C) (n : nat) (xs : list A) (ys : list B) :
  length xs = n -> length ys = n -> length (zip_with f xs ys) = n.
Proof.
  intros Hx Hy. rewrite Regime.length_zip_with; congruence.
Qed.

Lemma Qeq_bool_refl_0 (j : Q) : j == 0 -> Qeq_bool j 0 = true.
Proof. intros H. now apply Qeq_bool_iff. Qed.

(** X7. Global central-bank assets in USD (04).  No row of the aligned
    frame is lost.  On every row the ECB leg is [eur * usd_per_eur]; with a
    non-zero yen rate the BOJ leg is [boj * 100 / jpy_per_usd], which is the
    documented (boj * 100,000,000) / jpy_per_usd / 1,000,000, and the total
    is the sum of the three legs.  A yen rate of zero is not guarded: the
    row stays, and its total is an infinity or NaN. *)
Theorem global_cb_assets_rows (fed ecb boj jpy usd : Aligner.series) :
  let T := build_global_cb_assets fed ecb boj jpy usd in
  let df := Aligner.build_aligned [fed; ecb; boj; jpy; usd] in
  cb_date T = Aligner.dates df /\
  length (global_cb_assets_usd_millions T) = length df /\
  forall t d cells, nth_error df t = Some (d, cells) ->
    exists f e b j u,
      cells = [Some f; Some e; Some b; Some j; Some u] /\
      nth_error (fed_usd_millions T) t = Some (Fin f) /\
      nth_error (ecb_usd_millions T) t = Some (Fin (e * u)) /\
      (~ j == 0 ->
         nth_error (boj_usd_millions T) t = Some (Fin (b * 100 / j)) /\
         b * 100 / j == b * 100000000 / j / 1000000 /\
         nth_error (global_cb_assets_usd_millions T) t =
           Some (Fin (f + e * u + b * 100 / j))) /\
      (j == 0 ->
         exists y, nth_error (global_cb_assets_usd_millions T) t = Some y /\
                   forall z, y <> Fin z).
Proof.
  intros T df.
  assert (Hpres : forall r, In r df ->
            exists vs, snd r = map Some vs /\ length vs = 5%nat)
    by (intros r Hr; exact (build_aligned_present _ _ Hr)).
  assert (Edate : cb_date T = Aligner.dates df) by reflexivity.
  assert (Efed : fed_usd_millions T = column 0 df) by reflexivity.
  assert (Eecb : ecb_usd_millions T = zip_with fmul (column 1 df) (column 4 df))
    by reflexivity.
  assert (Eboj : boj_usd_millions T =
                 zip_with fdiv (map (fun x => fmul x (Fin 100)) (column 2 df))
                          (column 3 df)) by reflexivity.
  assert (Eglob : global_cb_assets_usd_millions T =
                  zip_with fadd (zip_with fadd (fed_usd_millions T)
                                               (ecb_usd_millions T))
                           (boj_usd_millions T)) by reflexivity.
  clearbody T df.
  split; [exact Edate|].
  assert (Hl : forall i, length (column i df) = length df)
    by (intros i; unfold column; apply length_map).
  split.
  { rewrite Eglob, Efed, Eecb, Eboj.
    apply length_zip_eq.
    - apply length_zip_eq; [apply Hl|].
      apply length_zip_eq; apply Hl.
    - apply length_zip_eq; [|apply Hl].
      rewrite length_map. apply Hl. }
  intros t d cells Hrow.
  assert (Hin : In (d, cells) df) by (eapply nth_error_In; eauto).
  destruct (Hpres _ Hin) as (vs & E & Hvs).
  simpl in E, Hvs.
  destruct vs as [|f [|e [|b [|j [|u [|? ?]]]]]]; simpl in Hvs; try lia.
  exists f, e, b, j, u. split; [exact E|].
  assert (Hcol : forall i, nth_error (column i df) t =
                           Some (cell (nth i cells None))).
  { intros i. unfold column.
    exact (map_nth_error (fun r => cell (nth i (snd r) None)) t df Hrow). }
  assert (Hfed : nth_error (fed_usd_millions T) t = Some (Fin f)).
  { rewrite Efed, Hcol, E. reflexivity. }
  assert (Hecb : nth_error (ecb_usd_millions T) t = Some (Fin (e * u))).
  { rewrite Eecb, nth_error_zip_with, !Hcol, E. reflexivity. }
  assert (Hboj : nth_error (boj_usd_millions T) t =
                 Some (fdiv (Fin (b * 100)) (Fin j))).
  { rewrite Eboj, nth_error_zip_with, nth_error_map, !Hcol, E. reflexivity. }
  assert (Hglob : nth_error (global_cb_assets_usd_millions T) t =
                  Some (fadd (Fin (f + e * u)) (fdiv (Fin (b * 100)) (Fin j)))).
  { rewrite Eglob, !nth_error_zip_with, Hfed, Hecb, Hboj. reflexivity. }
  split; [exact Hfed|]. split; [exact Hecb|]. split.
  - intros Hj.
    assert (Ej : Qeq_bool j 0 = false).
    { destruct (Qeq_bool j 0) eqn:Eq; [|reflexivity].
      apply Qeq_bool_iff in Eq. contradiction. }
    rewrite Hboj, Hglob. unfold fdiv. cbn [a_is_zero a_div Arith_Q].
    rewrite Ej. split; [reflexivity|]. split; [|reflexivity].
    field. exact Hj.
  - intros Hj. rewrite Hglob. eexists. split; [reflexivity|].
    unfold fdiv. cbn [a_is_zero a_is_neg Arith_Q].
    rewrite (Qeq_bool_refl_0 Hj).
    destruct (Qeq_bool (b * 100) 0); [intros z Hz; inversion Hz|].
    destruct (negb (Qle_bool 0 (b * 100))); intros z Hz; inversion Hz.
Qed.

(** The yen rate is zero on the second date: the total of that row is an
    infinity and so are both deltas that touch it. *)
Example zero_yen_rate_row :
  let T := build_global_cb_assets fed_ex ecb_ex boj_ex jpy_ex usd_ex in
  cb_date T = [1; 2]%Z /\
  nth_error (global_cb_assets_usd_millions T) 1 = Some PInf /\
  nth_error (global_cb_assets_usd_d1 T) 1 = Some PInf.
Proof. vm_compute. auto. Qed.

End Derived.

(* ===================================================================== *)
(** * Unit conversion before the merge (03)                               *)
(* ===================================================================== *)

Module FixedUnits.

Import Features.
Import Derived.

Open Scope Q_scope.

(** [str.lower()] on the characters a FRED unit string is made of: the
    letters A-Z go to a-z, every other 8-bit character stays. *)
Definition lower_ascii (c : Ascii.ascii) : Ascii.ascii :=
  let n := Ascii.N_of_ascii c in
  if ((65 <=? n) && (n <=? 90))%N then Ascii.ascii_of_N (n + 32) else c.

Fixpoint lower (s : string) : string :=
  match s with
  | String.EmptyString => String.EmptyString
  | String.String c s' => String.String (lower_ascii c) (lower s')
  end.

(** [p in s]: [p] occurs in [s] as a contiguous substring. *)
Fixpoint contains (p s : string) : bool :=
  String.prefix p s ||
  match s with
  | String.EmptyString => false
  | String.String _ s' => contains p s'
  end.

(** [_to_millions_multiplier]; [None] is Python's [None], 0.001 is the
    rational 1/1000.  (The [WARN] line printed before the last fallback is
    output only.) *)
Definition _to_millions_multiplier (units : option string) : Q :=
  match units with
  | None => 1
  | Some String.EmptyString => 1
  | Some s =>
      let u := lower s in
      if contains "billions"%string u then 1000
      else if contains "millions"%string u then 1
      else if contains "thousands"%string u then 1 # 1000
      else 1
  end.

(** [s[name] = s[name] * mult]. *)
Definition scale (m : Q) (s : Aligner.series) : Aligner.series :=
  map (fun r => (fst r, snd r * m)) s.

(** Lines 84-114 of 03; the three unit strings are what
    [_fred_series_units] returned. *)
Definition build_net_liquidity_fixed_units
    (units_walcl units_rrp units_tga : option string)
    (walcl rrp tga : Aligner.series) : net_liquidity_frame :=
  let mult_walcl := _to_millions_multiplier units_walcl in
  let mult_rrp := _to_millions_multiplier units_rrp in
  let mult_tga := _to_millions_multiplier units_tga in
  build_net_liquidity (scale mult_walcl walcl) (scale mult_rrp rrp)
                      (scale mult_tga tga).

(** A row of the merged frame with every column multiplied by its own
    factor. *)
Definition scale_cells (ms : list Q) (cells : list (option Q)) : list (option Q) :=
  zip_with (fun m c => option_map (fun v => v * m) c) ms cells.

Definition scale_row (ms : list Q) (r : Aligner.row) : Aligner.row :=
  (fst r, scale_cells ms (snd r)).

(** ** Properties of the unit conversion *)

Lemma dates_scale (m : Q) (s : Aligner.series) :
  Aligner.dates (scale m s) = Aligner.dates s.
Proof. unfold Aligner.dates, scale. rewrite map_map. reflexivity. Qed.

Lemma dates_scale_row (ms : list Q) (t : Aligner.table) :
  Aligner.dates (map (scale_row ms) t) = Aligner.dates t.
Proof. unfold Aligner.dates. rewrite map_map. reflexivity. Qed.

Lemma rows_at_map {X Y} (h : Z * X -> Z * Y) (k : Z) (l : list (Z * X)) :
  (forall r, fst (h r) = fst r) ->
  Aligner.rows_at k (map h l) = map h (Aligner.rows_at k l).
Proof.
  intros Hh. unfold Aligner.rows_at.
  induction l as [|r l IH]; simpl; [reflexivity|].
  rewrite Hh, IH. now destruct (fst r =? k)%Z.
Qed.

Lemma zip_with_app {A B C} (f : A -> B -> C) (xs xs' : list A) (ys ys' : list B) :
  length xs = length ys ->
  zip_with f (xs ++ xs') (ys ++ ys') = zip_with f xs ys ++ zip_with f xs' ys'.
Proof.
  revert ys. induction xs as [|x xs IH]; intros [|y ys] H; simpl in *;
    try discriminate; [reflexivity|].
  f_equal. apply IH. lia.
Qed.

Lemma scale_cells_none (ms : list Q) :
  scale_cells ms (repeat None (length ms)) = repeat None (length ms).
Proof.
  unfold scale_cells. induction ms as [|m ms IH]; simpl; [reflexivity|].
  now rewrite IH.
Qed.

Lemma flat_map_map {A B C} (f : A -> list B) (h : B -> C) (l : list A) :
  flat_map (fun x => map h (f x)) l = map h (flat_map f l).
Proof.
  induction l as [|x l IH]; simpl; [reflexivity|].
  now rewrite IH, map_app.
Qed.

Lemma flat_map_ext_in {A B} (f g : A -> list B) (l : list A) :
  (forall x, In x l -> f x = g x) -> flat_map f l = flat_map g l.
Proof.
  induction l as [|x l IH]; simpl; intros H; [reflexivity|].
  rewrite H by now left. rewrite IH; [reflexivity|]. intros y Hy. apply H. now right.
Qed.

Section KeyRows.

Variables (ms : list Q) (m : Q) (k : Z).

Lemma scale_right_only (rs : Aligner.series) :
  map (fun r : Z * Q => (k, repeat None (length ms) ++ [Some (snd r)])) (scale m rs)
  = map (scale_row (ms ++ [m]))
        (map (fun r : Z * Q => (k, repeat None (length ms) ++ [Some (snd r)])) rs).
Proof.
  unfold scale. rewrite !map_map. apply map_ext. intros r.
  unfold scale_row, scale_cells. simpl. f_equal.
  rewrite zip_with_app by now rewrite repeat_length.
  fold (scale_cells ms (repeat None (length ms))).
  now rewrite scale_cells_none.
Qed.

Lemma scale_left_only (ls : Aligner.table) :
  Forall (fun l : Aligner.row => length (snd l) = length ms) ls ->
  map (fun l : Aligner.row => (k, snd l ++ [None])) (map (scale_row ms) ls)
  = map (scale_row (ms ++ [m]))
        (map (fun l : Aligner.row => (k, snd l ++ [None])) ls).
Proof.
  intros Hw. rewrite !map_map. apply map_ext_in. intros l Hl.
  rewrite Forall_forall in Hw. specialize (Hw l Hl). cbv beta in Hw.
  unfold scale_row, scale_cells. simpl. f_equal.
  rewrite zip_with_app by (symmetry; exact Hw). reflexivity.
Qed.

Lemma scale_both (ls : Aligner.table) (rs : Aligner.series) :
  Forall (fun l : Aligner.row => length (snd l) = length ms) ls ->
  flat_map (fun l : Aligner.row =>
              map (fun r : Z * Q => (k, snd l ++ [Some (snd r)])) (scale m rs))
           (map (scale_row ms) ls)
  = map (scale_row (ms ++ [m]))
        (flat_map (fun l : Aligner.row =>
                     map (fun r : Z * Q => (k, snd l ++ [Some (snd r)])) rs) ls).
Proof.
  induction 1 as [|l ls Hl _ IH]; [reflexivity|].
  cbn [map flat_map]. rewrite IH, map_app. f_equal.
  unfold scale. rewrite !map_map. apply map_ext. intros r.
  cbv beta in Hl. unfold scale_row, scale_cells. simpl. f_equal.
  rewrite zip_with_app by (symmetry; exact Hl). reflexivity.
Qed.

End KeyRows.

Lemma merge_outer_scale (ms : list Q) (m : Q)
    (left : Aligner.table) (right : Aligner.series) :
  (forall r, In r left -> length (snd r) = length ms) ->
  Aligner.merge_outer (length ms) (map (scale_row ms) left) (scale m right) =
  map (scale_row (ms ++ [m])) (Aligner.merge_outer (length ms) left right).
Proof.
  intros Hw. unfold Aligner.merge_outer.
  rewrite dates_scale, dates_scale_row, <- flat_map_map.
  apply flat_map_ext_in. intros k _. cbv beta.
  assert (E1 : Aligner.rows_at k (map (scale_row ms) left) =
               map (scale_row ms) (Aligner.rows_at k left))
    by (apply rows_at_map; reflexivity).
  assert (E2 : Aligner.rows_at k (scale m right) =
               scale m (Aligner.rows_at k right))
    by (apply rows_at_map; reflexivity).
  rewrite E1, E2. clear E1 E2.
  assert (Hleft : Forall (fun l : Aligner.row => length (snd l) = length ms)
                         (Aligner.rows_at k left)).
  { apply Forall_forall. intros l Hl. apply Aligner.rows_at_In in Hl.
    now apply Hw. }
  destruct (Aligner.rows_at k left) as [|l0 ls],
           (Aligner.rows_at k right) as [|r0 rs].
  - reflexivity.
  - exact (@scale_right_only ms m k (r0 :: rs)).
  - exact (@scale_left_only ms m k (l0 :: ls) Hleft).
  - exact (@scale_both ms m k (l0 :: ls) (r0 :: rs) Hleft).
Qed.

Lemma merge_fold_scale (rest : list Aligner.series) (mrest ms0 : list Q)
    (t : Aligner.table) :
  length mrest = length rest ->
  (forall r, In r t -> length (snd r) = length ms0) ->
  fst (fold_left
         (fun acc s' => (Aligner.merge_outer (snd acc) (fst acc) s', S (snd acc)))
         (zip_with scale mrest rest) (map (scale_row ms0) t, length ms0)) =
  map (scale_row (ms0 ++ mrest))
      (fst (fold_left
              (fun acc s' => (Aligner.merge_outer (snd acc) (fst acc) s', S (snd acc)))
              rest (t, length ms0))).
Proof.
  revert mrest ms0 t.
  induction rest as [|s rest IH]; intros [|m mrest] ms0 t Hlen Hw;
    simpl in Hlen; try discriminate.
  - simpl. now rewrite app_nil_r.
  - cbn [zip_with fold_left fst snd].
    rewrite merge_outer_scale by exact Hw.
    replace (S (length ms0)) with (length (ms0 ++ [m]))
      by (rewrite length_app; simpl; lia).
    rewrite IH.
    + now rewrite <- app_assoc.
    + lia.
    + intros r Hr. rewrite length_app. simpl.
      rewrite (merge_outer_width _ _ Hw r Hr). lia.
Qed.

Lemma merge_all_scale (ms : list Q) (ss : list Aligner.series) :
  length ms = length ss ->
  Aligner.merge_all (zip_with scale ms ss) =
  map (scale_row ms) (Aligner.merge_all ss).
Proof.
  destruct ss as [|s rest], ms as [|m mrest]; simpl; try discriminate;
    [reflexivity|].
  intros Hlen.
  assert (E : Aligner.of_series (scale m s) =
              map (scale_row [m]) (Aligner.of_series s)).
  { unfold Aligner.of_series, scale. rewrite !map_map. reflexivity. }
  rewrite E.
  apply (@merge_fold_scale rest mrest [m] (Aligner.of_series s)); [lia|].
  intros r Hr. unfold Aligner.of_series in Hr. apply in_map_iff in Hr.
  now destruct Hr as (y & <- & _).
Qed.

Lemma insert_sorted_scale (ms : list Q) (x : Aligner.row) (l : Aligner.table) :
  insert_sorted date_leb (scale_row ms x) (map (scale_row ms) l) =
  map (scale_row ms) (insert_sorted date_leb x l).
Proof.
  induction l as [|y l IH]; simpl; [reflexivity|].
  change (date_leb (scale_row ms x) (scale_row ms y)) with (date_leb x y).
  destruct (date_leb x y); simpl; [reflexivity|]. now rewrite IH.
Qed.

Lemma sort_by_date_scale (ms : list Q) (t : Aligner.table) :
  sort_by_date (map (scale_row ms) t) = map (scale_row ms) (sort_by_date t).
Proof.
  unfold sort_by_date. induction t as [|x t IH]; simpl; [reflexivity|].
  now rewrite IH, insert_sorted_scale.
Qed.

Lemma fill_cells_scale (ms : list Q) (cells above : list (option Q)) :
  zip_with Aligner.fill_cell (scale_cells ms cells) (scale_cells ms above) =
  scale_cells ms (zip_with Aligner.fill_cell cells above).
Proof.
  unfold scale_cells. revert cells above.
  induction ms as [|m ms IH]; intros [|c cells] [|a above]; simpl;
    try reflexivity.
  rewrite IH. f_equal. now destruct c.
Qed.

Lemma ffill_rows_scale (ms : list Q) (t : Aligner.table) (above : list (option Q)) :
  Aligner.ffill_rows (scale_cells ms above) (map (scale_row ms) t) =
  map (scale_row ms) (Aligner.ffill_rows above t).
Proof.
  revert above. induction t as [|[d cells] t IH]; intros above; simpl;
    [reflexivity|].
  rewrite fill_cells_scale, IH. reflexivity.
Qed.

Lemma all_present_scale (ms : list Q) (cells : list (option Q)) :
  length cells = length ms ->
  Aligner.all_present (scale_cells ms cells) = Aligner.all_present cells.
Proof.
  unfold scale_cells, Aligner.all_present. revert cells.
  induction ms as [|m ms IH]; intros [|c cells] H; simpl in *;
    try discriminate; [reflexivity|].
  rewrite IH by lia. now destruct c.
Qed.

Lemma filter_map_in {A B} (p : B -> bool) (q : A -> bool) (h : A -> B) (l : list A) :
  (forall x, In x l -> p (h x) = q x) ->
  filter p (map h l) = map h (filter q l).
Proof.
  induction l as [|x l IH]; intros H; simpl; [reflexivity|].
  rewrite H by now left. rewrite IH by (intros y Hy; apply H; now right).
  now destruct (q x).
Qed.

(** Converting the units of every series and then aligning gives the aligned
    frame with every column converted. *)
Lemma build_aligned_scale (ms : list Q) (ss : list Aligner.series) :
  length ms = length ss ->
  Aligner.build_aligned (zip_with scale ms ss) =
  map (scale_row ms) (Aligner.build_aligned ss).
Proof.
  intros Hlen. rewrite !Aligner.build_aligned_unfold.
  rewrite merge_all_scale, sort_by_date_scale by exact Hlen.
  assert (El : length (zip_with scale ms ss) = length ms)
    by (apply Regime.length_zip_with; exact Hlen).
  unfold Aligner.ffill. rewrite El, <- Hlen.
  rewrite <- (scale_cells_none ms) at 1. rewrite ffill_rows_scale.
  apply filter_map_in. intros r Hr. unfold scale_row. simpl.
  apply all_present_scale.
  apply (@ffill_rows_width (sort_by_date (Aligner.merge_all ss))
           (repeat None (length ms)) (length ms));
    [apply repeat_length| |exact Hr].
  intros x Hx. rewrite Hlen. apply merge_all_width.
  unfold sort_by_date in Hx. now apply isort_In in Hx.
Qed.

Example multiplier_examples :
  map _to_millions_multiplier
      [Some "Billions of Dollars"; Some "MILLIONS OF DOLLARS";
       Some "Thousands of Persons"; Some "Index 1982=100";
       Some String.EmptyString; None;
       Some "Millions (Billions from 2020)"]%string
  = [1000; 1; 1 # 1000; 1; 1; 1; 1000].
Proof. reflexivity. Qed.

Lemma val_scale_row (ms : list Q) (r : Aligner.row) (vs : list Q) (i : nat) (m : Q) :
  snd r = map Some vs -> length vs = length ms -> nth_error ms i = Some m ->
  val i (scale_row ms r) = val i r * m.
Proof.
  intros E Hl Hm. unfold val, scale_row, scale_cells. simpl. rewrite E.
  clear E. revert ms i Hl Hm.
  induction vs as [|v vs IH]; intros [|m0 ms] i Hl Hm; simpl in *;
    try discriminate.
  - destruct i; discriminate.
  - destruct i as [|i]; simpl in *.
    + now injection Hm as ->.
    + apply IH; [lia|exact Hm].
Qed.

(** X9. Script 03 converts each series to millions before it merges.  That
    commutes with the alignment: the fixed-units frame has the dates of the
    plain frame of 02, each level is the plain level times its own
    multiplier, and the net liquidity is the difference of the converted
    levels - so series reported in different units are subtracted in one
    unit. *)
Theorem fixed_units_convert_then_align
    (units_walcl units_rrp units_tga : option string)
    (walcl rrp tga : Aligner.series) :
  let mw := _to_millions_multiplier units_walcl in
  let mr := _to_millions_multiplier units_rrp in
  let mt := _to_millions_multiplier units_tga in
  let T := build_net_liquidity_fixed_units units_walcl units_rrp units_tga
                                          walcl rrp tga in
  let T0 := build_net_liquidity walcl rrp tga in
  nl_date T = nl_date T0 /\
  forall t a b c,
    nth_error (WALCL T0) t = Some (Fin a) ->
    nth_error (RRPONTSYD T0) t = Some (Fin b) ->
    nth_error (WTREGEN T0) t = Some (Fin c) ->
    nth_error (WALCL T) t = Some (Fin (a * mw)) /\
    nth_error (RRPONTSYD T) t = Some (Fin (b * mr)) /\
    nth_error (WTREGEN T) t = Some (Fin (c * mt)) /\
    nth_error (net_liquidity_usa T) t = Some (Fin (a * mw - b * mr - c * mt)).
Proof.
  intros mw mr mt T T0.
  set (df0 := Aligner.build_aligned [walcl; rrp; tga]).
  set (ms := [mw; mr; mt]).
  assert (Edf : Aligner.build_aligned [scale mw walcl; scale mr rrp; scale mt tga]
                = map (scale_row ms) df0)
    by (apply (@build_aligned_scale ms [walcl; rrp; tga]); reflexivity).
  assert (Hpres : forall r, In r df0 ->
            exists vs, snd r = map Some vs /\ length vs = 3%nat)
    by (intros r Hr; exact (build_aligned_present _ _ Hr)).
  assert (E0 : forall i, (i < 3)%nat ->
            column i df0 = map Fin (map (val i) df0))
    by (intros i Hi; apply (@column_finite [walcl; rrp; tga] i); exact Hi).
  assert (Ecol : forall i, (i < 3)%nat ->
            column i (map (scale_row ms) df0) =
            map Fin (map (val i) (map (scale_row ms) df0))).
  { intros i Hi. rewrite <- Edf.
    apply (@column_finite [scale mw walcl; scale mr rrp; scale mt tga] i).
    exact Hi. }
  assert (ET : forall i, column i (Aligner.build_aligned
                 [scale mw walcl; scale mr rrp; scale mt tga]) =
               column i (map (scale_row ms) df0))
    by (intros i; now rewrite Edf).
  assert (Ea : WALCL T = column 0 (map (scale_row ms) df0)) by apply ET.
  assert (Eb : RRPONTSYD T = column 1 (map (scale_row ms) df0)) by apply ET.
  assert (Ec : WTREGEN T = column 2 (map (scale_row ms) df0)) by apply ET.
  assert (En : net_liquidity_usa T =
               zip_with fsub (zip_with fsub (WALCL T) (RRPONTSYD T)) (WTREGEN T))
    by reflexivity.
  assert (Ed : nl_date T = Aligner.dates (map (scale_row ms) df0)).
  { change (nl_date T) with
      (Aligner.dates (Aligner.build_aligned
                        [scale mw walcl; scale mr rrp; scale mt tga])).
    now rewrite Edf. }
  assert (Ea0 : WALCL T0 = column 0 df0) by reflexivity.
  assert (Eb0 : RRPONTSYD T0 = column 1 df0) by reflexivity.
  assert (Ec0 : WTREGEN T0 = column 2 df0) by reflexivity.
  assert (Ed0 : nl_date T0 = Aligner.dates df0) by reflexivity.
  clearbody T T0 df0.
  split; [rewrite Ed, Ed0; apply dates_scale_row|].
  intros t a b c Ha Hb Hc.
  rewrite Ea0, E0, !nth_error_map in Ha by lia.
  rewrite Eb0, E0, !nth_error_map in Hb by lia.
  rewrite Ec0, E0, !nth_error_map in Hc by lia.
  destruct (nth_error df0 t) as [r|] eqn:Er; [|discriminate].
  cbn [option_map] in Ha, Hb, Hc.
  injection Ha as <-. injection Hb as <-. injection Hc as <-.
  destruct (Hpres r) as (vs & E & Hl); [eapply nth_error_In; eauto|].
  assert (Hrow : forall i, (i < 3)%nat ->
            nth_error (column i (map (scale_row ms) df0)) t =
            Some (Fin (val i (scale_row ms r)))).
  { intros i Hi. rewrite Ecol by exact Hi.
    rewrite !nth_error_map, Er. reflexivity. }
  rewrite En, !nth_error_zip_with, Ea, Eb, Ec, !Hrow by lia.
  rewrite (@val_scale_row ms r vs 0 mw E Hl eq_refl).
  rewrite (@val_scale_row ms r vs 1 mr E Hl eq_refl).
  rewrite (@val_scale_row ms r vs 2 mt E Hl eq_refl).
  auto.
Qed.

End FixedUnits.

(* ===================================================================== *)
(** * The incremental ingestion of one series (run_ingest_incremental.py) *)
(* ===================================================================== *)

Module Incremental.

Import Normalizer.

Open Scope Z_scope.

Section Step.

(** A raw date cell and its coercion with [errors="coerce"], as for the
    readers; [stamp d] is the cell a written timestamp is read back as. *)
Variables Raw Rest : Type.
Variable to_datetime : Raw -> option Z.
Variable stamp : Z -> Raw.

(** [d.max()] of a non-empty column of timestamps. *)
Definition max_of (d0 : Z) (ds : list Z) : Z := fold_left Z.max ds d0.

(** The valid timestamps of a date column:
    [to_datetime(df["date"], utc=True, errors="coerce").dropna()]. *)
Definition valid_dates (cells : list Raw) : list Z :=
  flat_map (fun c => match to_datetime c with Some d => [d] | None => [] end) cells.

(** [_max_date_in_parquet]; [None] is a path that does not exist, the list
    is the "date" column of the file. *)
Definition _max_date_in_parquet (file : option (list Raw)) : option Z :=
  match file with
  | None => None
  | Some [] => None
  | Some cells =>
      match valid_dates cells with
      | [] => None
      | d0 :: ds => Some (max_of d0 ds)
      end
  end.

(** Lines 98-102: the start of the request; [meta_start] is
    [meta.get("start")].  Dates count days, so the next day is [+ 1]. *)
Definition request_start (meta_start : option Z)
    (file : option (list (bronze_row Raw Rest))) : option Z :=
  match _max_date_in_parquet (option_map (map (@b_date Raw Rest)) file) with
  | Some last => Some (last + 1)
  | None => meta_start
  end.

(** [df_all.to_parquet(out)] followed by a later [read_parquet(out)]. *)
Definition stored (df_all : list (Z * (string * Rest))) : list (bronze_row Raw Rest) :=
  map (fun x => {| b_date := stamp (fst x);
                   b_series := fst (snd x);
                   b_rest := snd (snd x) |}) df_all.

Record log_entry : Type := {
  rows_new : nat;
  rows_total : option nat
}.

(** One turn of the loop of lines 94-115 on the file of one series.  [fetch]
    is [fetch_fred_series] with the series and the end date fixed: from the
    start of the request to [df_new] ([None] when it returns [None]).  The
    frames it returns carry a "series_id" column. *)
Definition update_series (meta_start : option Z)
    (fetch : option Z -> option (list (bronze_row Raw Rest)))
    (file : option (list (bronze_row Raw Rest)))
  : option (list (bronze_row Raw Rest)) * log_entry :=
  let start := request_start meta_start file in
  match fetch start with
  | None | Some [] => (file, {| rows_new := 0; rows_total := None |})
  | Some df_new =>
      let df_all := _merge_append to_datetime true file df_new in
      (Some (stored df_all),
       {| rows_new := length df_new; rows_total := Some (length df_all) |})
  end.

(** The key [drop_duplicates] compares: coerced date and series id. *)
Definition row_key (r : bronze_row Raw Rest) : option Z * string :=
  (to_datetime (b_date r), b_series r).

End Step.

(** Cells that are a timestamp or nothing, for the examples. *)
Definition stored_ex : list (bronze_row (option Z) Z) :=
  [ {| b_date := Some 3; b_series := "WALCL"; b_rest := 9 |};
    {| b_date := Some 5; b_series := "WALCL"; b_rest := 1 |} ].

Definition fetch_ex (start : option Z) : option (list (bronze_row (option Z) Z)) :=
  match start with
  | Some s =>
      Some (filter (fun r => match b_date r with
                             | Some d => s <=? d
                             | None => true
                             end)
                   [ {| b_date := Some 5; b_series := "WALCL"; b_rest := 2 |};
                     {| b_date := Some 6; b_series := "WALCL"; b_rest := 7 |};
                     {| b_date := Some 8; b_series := "WALCL"; b_rest := 4 |} ])
  | None => None
  end.

(** A source that ignores the start and sends a revised value for day 5. *)
Definition refetch_ex (start : option Z) : option (list (bronze_row (option Z) Z)) :=
  Some [ {| b_date := Some 5; b_series := "WALCL"; b_rest := 2 |} ].

(** ** Properties of the incremental update *)

Section StepFacts.

Variables Raw Rest : Type.
Variable to_datetime : Raw -> option Z.
Variable stamp : Z -> Raw.

Lemma valid_dates_In (cells : list Raw) (d : Z) :
  In d (valid_dates to_datetime cells) <->
  exists c, In c cells /\ to_datetime c = Some d.
Proof.
  unfold valid_dates. rewrite in_flat_map. split.
  - intros (c & Hc & Hd). exists c. split; [exact Hc|].
    destruct (to_datetime c) as [d'|]; simpl in Hd; [|tauto].
    destruct Hd as [->|[]]. reflexivity.
  - intros (c & Hc & E). exists c. split; [exact Hc|]. rewrite E. now left.
Qed.

Lemma max_of_spec (d0 : Z) (ds : list Z) :
  In (max_of d0 ds) (d0 :: ds) /\ forall d, In d (d0 :: ds) -> d <= max_of d0 ds.
Proof.
  unfold max_of. revert d0. induction ds as [|x ds IH]; intros d0; simpl.
  - split; [now left|]. intros d [->|[]]. lia.
  - destruct (IH (Z.max d0 x)) as [Hin Hmax]. split.
    + destruct Hin as [E|Hin]; [|now right; right].
      rewrite <- E. destruct (Z.max_spec d0 x) as [[_ ->]|[_ ->]]; auto.
    + intros d Hd. assert (Hle : Z.max d0 x <= fold_left Z.max ds (Z.max d0 x))
        by (apply Hmax; now left).
      destruct Hd as [->|[->|Hd]]; [lia|lia|]. apply Hmax. now right.
Qed.

Lemma max_date_spec (file : option (list Raw)) :
  match _max_date_in_parquet to_datetime file with
  | Some m =>
      exists cells, file = Some cells /\
        In m (valid_dates to_datetime cells) /\
        forall d, In d (valid_dates to_datetime cells) -> d <= m
  | None =>
      file = None \/
      exists cells, file = Some cells /\ valid_dates to_datetime cells = []
  end.
Proof.
  destruct file as [cells|]; simpl; [|now left].
  destruct cells as [|c cells]; [right; now exists []|].
  destruct (valid_dates to_datetime (c :: cells)) as [|d0 ds] eqn:E.
  - right. exists (c :: cells). auto.
  - exists (c :: cells). split; [reflexivity|]. rewrite E. apply max_of_spec.
Qed.

Hypothesis stamp_ok : forall d, to_datetime (stamp d) = Some d.

Let coerced (r : bronze_row Raw Rest) : option Z * (string * Rest) :=
  (to_datetime (b_date r), (b_series r, b_rest r)).

Let key (x : option Z * (string * Rest)) : option Z * string :=
  (fst x, fst (snd x)).

Lemma merge_append_In (old : option (list (bronze_row Raw Rest)))
    (new_df : list (bronze_row Raw Rest)) (d : Z) (x : string * Rest) :
  In (d, x) (_merge_append to_datetime true old new_df) <->
  In (Some d, x) (drop_duplicates_last key (coerced_rows to_datetime old new_df)).
Proof.
  unfold _merge_append, coerced_rows, all_rows, sort_by_date. cbv zeta.
  rewrite isort_In, dropna_date_In. reflexivity.
Qed.

(** The last row of a key survives [drop_duplicates(keep="last")]. *)
Lemma drop_duplicates_last_covers {A K} `{EqDecision K} (f : A -> K)
    (l : list A) (x : A) :
  In x l -> exists y, In y (drop_duplicates_last f l) /\ f y = f x.
Proof.
  revert x. induction l as [|a l IH]; intros x; simpl; [tauto|]. intros [->|Hx].
  - destruct (existsb (fun y => bool_decide (f y = f x)) l) eqn:E.
    + apply existsb_exists in E. destruct E as (y & Hy & Hk).
      apply bool_decide_eq_true_1 in Hk.
      destruct (IH y Hy) as (z & Hz & Hkz). exists z. split; [exact Hz|congruence].
    + exists x. split; [now left|reflexivity].
  - destruct (IH x Hx) as (y & Hy & Hk). exists y. split; [|exact Hk].
    destruct (existsb (fun y => bool_decide (f y = f a)) l); [exact Hy|now right].
Qed.

Lemma stored_In (df_all : list (Z * (string * Rest))) (d : Z) (x : string * Rest) :
  In (d, x) df_all ->
  exists r', In r' (stored stamp df_all) /\
             to_datetime (b_date r') = Some d /\
             b_series r' = fst x /\ b_rest r' = snd x.
Proof.
  intros Hin. eexists. split.
  - unfold stored. apply in_map_iff. exists (d, x). split; [reflexivity|exact Hin].
  - simpl. auto.
Qed.

Lemma update_series_cases (meta_start : option Z)
    (fetch : option Z -> option (list (bronze_row Raw Rest)))
    (file : option (list (bronze_row Raw Rest))) :
  (fst (update_series to_datetime stamp meta_start fetch file) = file /\
   (fetch (request_start to_datetime meta_start file) = None \/
    fetch (request_start to_datetime meta_start file) = Some [])) \/
  (exists df_new,
     fetch (request_start to_datetime meta_start file) = Some df_new /\
     df_new <> [] /\
     fst (update_series to_datetime stamp meta_start fetch file) =
     Some (stored stamp (_merge_append to_datetime true file df_new))).
Proof.
  unfold update_series. cbv zeta.
  destruct (fetch (request_start to_datetime meta_start file)) as [[|r df]|].
  - left. auto.
  - right. exists (r :: df). repeat split. discriminate.
  - left. auto.
Qed.

Lemma request_start_spec (meta_start : option Z)
    (rows : list (bronze_row Raw Rest)) (r : bronze_row Raw Rest) (d : Z) :
  In r rows -> to_datetime (b_date r) = Some d ->
  exists last,
    _max_date_in_parquet to_datetime (Some (map (@b_date Raw Rest) rows)) = Some last /\
    request_start to_datetime meta_start (Some rows) = Some (last + 1) /\
    d <= last /\
    exists r', In r' rows /\ to_datetime (b_date r') = Some last.
Proof.
  intros Hr Hd.
  assert (Hv : In d (valid_dates to_datetime (map (@b_date Raw Rest) rows))).
  { apply valid_dates_In. exists (b_date r). split; [now apply in_map|exact Hd]. }
  pose proof (max_date_spec (Some (map (@b_date Raw Rest) rows))) as Hm.
  unfold request_start. cbn [option_map].
  destruct (_max_date_in_parquet to_datetime (Some (map (@b_date Raw Rest) rows)))
    as [last|].
  - destruct Hm as (cells & Ec & Hin & Hmax). injection Ec as <-.
    exists last. split; [reflexivity|]. split; [reflexivity|].
    split; [now apply Hmax|].
    apply valid_dates_In in Hin. destruct Hin as (c & Hc & E).
    apply in_map_iff in Hc. destruct Hc as (r' & <- & Hr'). eauto.
  - exfalso. destruct Hm as [Hm|(cells & Ec & Hm)]; [discriminate|].
    injection Ec as <-. rewrite Hm in Hv. exact Hv.
Qed.

(** X10. The start of an incremental request.  With no file, or a file in
    which no date parses, it is the configured start.  Otherwise it is the
    day after the latest stored date: strictly later than every stored date,
    and one more than a date that is stored. *)
Theorem request_starts_after_stored (meta_start : option Z)
    (rows : list (bronze_row Raw Rest)) :
  request_start to_datetime meta_start (@None (list (bronze_row Raw Rest)))
    = meta_start /\
  ((forall r, In r rows -> to_datetime (b_date r) = None) ->
   request_start to_datetime meta_start (Some rows) = meta_start) /\
  (forall r d, In r rows -> to_datetime (b_date r) = Some d ->
     exists s,
       request_start to_datetime meta_start (Some rows) = Some s /\
       (forall r' d', In r' rows -> to_datetime (b_date r') = Some d' -> d' < s) /\
       exists r', In r' rows /\ to_datetime (b_date r') = Some (s - 1)).
Proof.
  split; [reflexivity|]. split.
  - intros Hnone.
    pose proof (max_date_spec (Some (map (@b_date Raw Rest) rows))) as Hm.
    unfold request_start. cbn [option_map].
    destruct (_max_date_in_parquet to_datetime (Some (map (@b_date Raw Rest) rows)))
      as [last|]; [|reflexivity].
    exfalso. destruct Hm as (cells & Ec & Hin & _). injection Ec as <-.
    apply valid_dates_In in Hin. destruct Hin as (c & Hc & E).
    apply in_map_iff in Hc. destruct Hc as (r' & <- & Hr').
    rewrite (Hnone r' Hr') in E. discriminate.
  - intros r d Hr Hd.
    destruct (request_start_spec meta_start rows r Hr Hd)
      as (last & Hmax & Hs & _ & r0 & Hr0 & E0).
    exists (last + 1). split; [exact Hs|]. split.
    + intros r' d' Hr' Hd'.
      destruct (request_start_spec meta_start rows r' Hr' Hd')
        as (last' & Hmax' & _ & Hle & _).
      rewrite Hmax in Hmax'. injection Hmax' as <-. lia.
    + exists r0. split; [exact Hr0|]. rewrite E0. f_equal. lia.
Qed.

(** X11. An update never loses a stored date, whatever the source sends:
    every (date, series id) of the file is still a (date, series id) of the
    file afterwards, and the latest stored date - hence the start of the
    next request - never moves back. *)
Theorem update_keeps_every_date (meta_start : option Z)
    (fetch : option Z -> option (list (bronze_row Raw Rest)))
    (rows : list (bronze_row Raw Rest)) (r : bronze_row Raw Rest) (d : Z) :
  In r rows -> to_datetime (b_date r) = Some d ->
  exists rows',
    fst (update_series to_datetime stamp meta_start fetch (Some rows)) = Some rows' /\
    (exists r', In r' rows' /\
                row_key to_datetime r' = row_key to_datetime r) /\
    exists s s',
      request_start to_datetime meta_start (Some rows) = Some s /\
      request_start to_datetime meta_start (Some rows') = Some s' /\
      s <= s'.
Proof.
  intros Hr Hd.
  assert (Hkeep : forall r0 d0, In r0 rows -> to_datetime (b_date r0) = Some d0 ->
            exists rows',
              fst (update_series to_datetime stamp meta_start fetch (Some rows))
                = Some rows' /\
              exists r', In r' rows' /\ to_datetime (b_date r') = Some d0 /\
                         b_series r' = b_series r0).
  { intros r0 d0 Hr0 Hd0.
    destruct (update_series_cases meta_start fetch (Some rows))
      as [[E _]|(df_new & _ & _ & E)]; rewrite E.
    - exists rows. split; [reflexivity|]. exists r0. auto.
    - eexists. split; [reflexivity|].
      destruct (@drop_duplicates_last_covers _ _ _ key
                  (coerced_rows to_datetime (Some rows) df_new) (coerced r0))
        as ([dy y] & Hy & Hk).
      { unfold coerced_rows, all_rows. apply in_map_iff. exists r0.
        split; [reflexivity|]. apply in_or_app. now left. }
      unfold key, coerced in Hk. simpl in Hk. rewrite Hd0 in Hk.
      injection Hk as -> Hsid.
      apply merge_append_In in Hy.
      destruct (@stored_In _ _ _ Hy) as (r' & Hr' & Hd' & Hs' & _).
      exists r'. split; [exact Hr'|]. split; [exact Hd'|]. congruence. }
  destruct (Hkeep r d Hr Hd) as (rows' & E & r' & Hr' & Hd' & Hs').
  exists rows'. split; [exact E|]. split.
  - exists r'. split; [exact Hr'|]. unfold row_key. congruence.
  - destruct (request_start_spec meta_start rows r Hr Hd)
      as (last & _ & Hs & _ & r0 & Hr0 & E0).
    destruct (Hkeep r0 last Hr0 E0) as (rows'' & E'' & r1 & Hr1 & Hd1 & _).
    rewrite E in E''. injection E'' as <-.
    destruct (request_start_spec meta_start rows' r1 Hr1 Hd1)
      as (last' & _ & Hs1 & Hle & _).
    exists (last + 1), (last' + 1). split; [exact Hs|]. split; [exact Hs1|]. lia.
Qed.

(** X12. History is append-only when the source honours the start and the
    file holds one row per (date, series id), as every file the update wrote
    does: the update then leaves every stored observation as it is - same
    date, same series id, same cells. *)
Theorem honest_update_keeps_history (meta_start : option Z)
    (fetch : option Z -> option (list (bronze_row Raw Rest)))
    (rows : list (bronze_row Raw Rest)) (r : bronze_row Raw Rest) (d : Z) :
  List.NoDup (map (row_key to_datetime) rows) ->
  (forall s df_new r' d', fetch (Some s) = Some df_new -> In r' df_new ->
     to_datetime (b_date r') = Some d' -> s <= d') ->
  In r rows -> to_datetime (b_date r) = Some d ->
  exists rows' r',
    fst (update_series to_datetime stamp meta_start fetch (Some rows)) = Some rows' /\
    In r' rows' /\
    to_datetime (b_date r') = Some d /\
    b_series r' = b_series r /\ b_rest r' = b_rest r.
Proof.
  intros Hnd Hhonest Hr Hd.
  destruct (update_series_cases meta_start fetch (Some rows))
    as [[E _]|(df_new & Hf & _ & E)]; rewrite E.
  - exists rows, r. auto.
  - destruct (request_start_spec meta_start rows r Hr Hd)
      as (last & _ & Hs & Hle & _).
    rewrite Hs in Hf.
    assert (Hin : In (d, (b_series r, b_rest r))
                     (_merge_append to_datetime true (Some rows) df_new)).
    { apply merge_append_In. apply drop_duplicates_last_In.
      apply in_split in Hr. destruct Hr as (pre & post & ->).
      exists (map coerced pre), (map coerced post ++ map coerced df_new).
      split.
      - unfold coerced_rows, all_rows.
        rewrite !map_app. cbn [map]. rewrite <- app_assoc. cbn [app].
        unfold coerced. rewrite Hd. reflexivity.
      - apply Forall_app. split; apply Forall_forall; intros y Hy;
          apply in_map_iff in Hy; destruct Hy as (r0 & <- & Hr0);
          unfold key, coerced; simpl; intros Hk; injection Hk as Hk1 Hk2.
        + rewrite map_app in Hnd. apply NoDup_remove_2 in Hnd.
          apply Hnd. apply in_or_app. right. apply in_map_iff.
          exists r0. split; [|exact Hr0]. unfold row_key. congruence.
        + pose proof (Hhonest _ _ r0 d Hf Hr0 Hk1). lia. }
    destruct (@stored_In _ _ _ Hin) as (r' & Hr' & Hd' & Hs' & Hrest).
    exists (stored stamp (_merge_append to_datetime true (Some rows) df_new)), r'.
    auto.
Qed.

End StepFacts.

Lemma update_keeps_every_date_witness :
  exists rows',
    fst (update_series parse_date Some None refetch_ex (Some stored_ex)) = Some rows' /\
    (exists r', In r' rows' /\
                row_key parse_date r' =
                row_key parse_date
                  {| b_date := Some 3; b_series := "WALCL"; b_rest := 9 |}) /\
    exists s s',
      request_start parse_date None (Some stored_ex) = Some s /\
      request_start parse_date None (Some rows') = Some s' /\
      s <= s'.
Proof.
  apply (@update_keeps_every_date (option Z) Z parse_date Some
           (fun d => eq_refl) None refetch_ex stored_ex
           {| b_date := Some 3; b_series := "WALCL"; b_rest := 9 |} 3).
  - simpl. auto.
  - reflexivity.
Defined.

Lemma fetch_ex_honest (s : Z) (df_new : list (bronze_row (option Z) Z))
    (r' : bronze_row (option Z) Z) (d' : Z) :
  fetch_ex (Some s) = Some df_new -> In r' df_new ->
  parse_date (b_date r') = Some d' -> s <= d'.
Proof.
  unfold fetch_ex, parse_date. intros E Hin Hd.
  match type of E with
  | Some ?l = _ => assert (Hin' : In r' l) by congruence
  end.
  apply filter_In in Hin'. destruct Hin' as [_ Hle]. rewrite Hd in Hle.
  now apply Z.leb_le.
Qed.

Lemma honest_update_keeps_history_witness :
  exists rows' r',
    fst (update_series parse_date Some None fetch_ex (Some stored_ex)) = Some rows' /\
    In r' rows' /\
    parse_date (b_date r') = Some 5 /\
    b_series r' = "WALCL"%string /\ b_rest r' = 1.
Proof.
  apply (@honest_update_keeps_history (option Z) Z parse_date Some
           (fun d => eq_refl) None fetch_ex stored_ex
           {| b_date := Some 5; b_series := "WALCL"; b_rest := 1 |} 5).
  - vm_compute. repeat constructor; simpl; intuition discriminate.
  - exact fetch_ex_honest.
  - simpl. auto.
  - reflexivity.
Defined.

(** The honest source adds days 6 and 8 and leaves day 5 alone; the source
    that ignores the start replaces the value of day 5. *)
Example update_examples :
  fst (update_series parse_date Some None fetch_ex (Some stored_ex)) =
    Some [ {| b_date := Some 3; b_series := "WALCL"; b_rest := 9 |};
           {| b_date := Some 5; b_series := "WALCL"; b_rest := 1 |};
           {| b_date := Some 6; b_series := "WALCL"; b_rest := 7 |};
           {| b_date := Some 8; b_series := "WALCL"; b_rest := 4 |} ] /\
  fst (update_series parse_date Some None refetch_ex (Some stored_ex)) =
    Some [ {| b_date := Some 3; b_series := "WALCL"; b_rest := 9 |};
           {| b_date := Some 5; b_series := "WALCL"; b_rest := 2 |} ].
Proof. split; reflexivity. Qed.

End Incremental.

(* ===================================================================== *)
(** * The matrix handed to the models (06, 07)                            *)
(* ===================================================================== *)

Module FitInput.

Import Features.
Import ZScore.

(** A float of the exact model as a float of the model with square roots. *)
Definition to_float (x : fval Q) : fval R :=
  match x with
  | Fin q => Fin (Q2R q)
  | PInf => PInf
  | NInf => NInf
  | NaN => NaN
  end.

(** A row of the merged frame of 05: the four columns the 252-day features
    are computed from. *)
Record master_row : Type := {
  net_liquidity_usa_millions : fval Q;
  net_liquidity_usa_millions_d1 : fval Q;
  global_cb_assets_usd_millions : fval Q;
  global_cb_assets_usd_d1 : fval Q
}.

Definition frame : Type := list master_row.

(** Lines 68-78 of 05, for one window. *)
Definition netliq_z (df : frame) (w : nat) : list (fval R) :=
  zscore (map (fun r => to_float (net_liquidity_usa_millions r)) df) w.

Definition gcb_z (df : frame) (w : nat) : list (fval R) :=
  zscore (map (fun r => to_float (global_cb_assets_usd_millions r)) df) w.

Definition netliq_d1_z (df : frame) (w : nat) : list (fval R) :=
  zscore (map (fun r => to_float (net_liquidity_usa_millions_d1 r)) df) w.

Definition gcb_d1_z (df : frame) (w : nat) : list (fval R) :=
  zscore (map (fun r => to_float (global_cb_assets_usd_d1 r)) df) w.

Definition netliq_pct (df : frame) (w : nat) : list (fval R) :=
  map to_float (pct_rank (map net_liquidity_usa_millions df) w).

Definition gcb_pct (df : frame) (w : nat) : list (fval R) :=
  map to_float (pct_rank (map global_cb_assets_usd_millions df) w).

(** [feat_cols] of 07 and of 06. *)
Definition hmm_feat_cols (df : frame) : list (list (fval R)) :=
  [netliq_z df 252; gcb_z df 252; netliq_d1_z df 252; gcb_d1_z df 252].

Definition gmm_feat_cols (df : frame) : list (list (fval R)) :=
  [netliq_d1_z df 252; gcb_d1_z df 252; netliq_pct df 252; gcb_pct df 252;
   netliq_z df 252; gcb_z df 252].

(** [X = df[feat_cols]]: per row of the frame, its cell in each column. *)
Definition select (cols : list (list (fval R))) (n : nat) : list (list (fval R)) :=
  map (fun t => map (fun c => nth t c NaN) cols) (seq 0 n).

(** [mask = X.notna().all(axis=1)]. *)
Definition notna_all (row : list (fval R)) : bool :=
  forallb (fun x => negb (isna x)) row.

Definition mask (X : list (list (fval R))) : list bool := map notna_all X.

(** [X2 = X.loc[mask].to_numpy()]. *)
Definition fit_rows (X : list (list (fval R))) : list (list (fval R)) :=
  filter notna_all X.

Definition hmm_X2 (df : frame) : list (list (fval R)) :=
  fit_rows (select (hmm_feat_cols df) (length df)).

Definition gmm_X2 (df : frame) : list (list (fval R)) :=
  fit_rows (select (gmm_feat_cols df) (length df)).

(** ** Properties of the fit matrix *)

Lemma fit_rows_present (cols : list (list (fval R))) (n : nat) :
  Forall (fun row => length row = length cols /\
                     Forall (fun y => isna y = false) row)
         (fit_rows (select cols n)).
Proof.
  apply Forall_forall. intros row Hrow.
  unfold fit_rows in Hrow. apply filter_In in Hrow. destruct Hrow as [Hin Hmask].
  unfold select in Hin. apply in_map_iff in Hin. destruct Hin as (t & <- & _).
  split; [apply length_map|].
  unfold notna_all in Hmask. rewrite forallb_forall in Hmask.
  apply Forall_forall. intros y Hy. specialize (Hmask y Hy).
  now destruct (isna y).
Qed.

(** A z-score is NaN on a row that has fewer than w rows up to it. *)
Lemma zscore_early_nan (s : list (fval R)) (w t : nat) :
  (S t < w)%nat -> nth t (zscore s w) NaN = NaN.
Proof.
  intros Ht. destruct (nth_error s t) as [x|] eqn:Ex.
  - pose proof (@zscore_row s w t x Ex) as Hrow. cbv zeta in Hrow.
    pose proof (length_observations (window s w t)) as Hle.
    rewrite length_window in Hle.
    destruct (Nat.ltb_spec (length (observations (window s w t))) w); [|lia].
    now apply nth_error_nth.
  - apply nth_overflow. apply nth_error_None.
    unfold zscore. cbv zeta. now rewrite !nth_error_zip_with, Ex.
Qed.

Lemma mask_row (cols : list (list (fval R))) (n t : nat) :
  nth_error (mask (select cols n)) t = Some true ->
  (t < n)%nat /\ forall c, In c cols -> isna (nth t c NaN) = false.
Proof.
  unfold mask, select. rewrite map_map, nth_error_map.
  destruct (nth_error (seq 0 n) t) as [i|] eqn:Ei; [|discriminate].
  assert (Hlt : (t < n)%nat).
  { assert (H : nth_error (seq 0 n) t <> None) by congruence.
    apply nth_error_Some in H. now rewrite length_seq in H. }
  rewrite nth_error_seq_lt in Ei by exact Hlt. simpl in Ei. injection Ei as <-.
  cbn [option_map]. intros H. injection H as H. split; [exact Hlt|].
  unfold notna_all in H. rewrite forallb_forall in H.
  intros c Hc. specialize (H (nth t c NaN)).
  destruct (isna (nth t c NaN)); [|reflexivity].
  assert (false = true); [|discriminate].
  apply H. apply in_map_iff. eauto.
Qed.

Lemma filter_none {A} (p : A -> bool) (l : list A) :
  (forall x, In x l -> p x = false) -> filter p l = [].
Proof.
  induction l as [|x l IH]; intros H; simpl; [reflexivity|].
  rewrite (H x) by now left. apply IH. intros y Hy. apply H. now right.
Qed.

(** A row before row 251 fails the mask as soon as one of the selected
    columns is a 252-day z-score. *)
Lemma early_row_masked (cols : list (list (fval R))) (s : list (fval R)) (t : nat) :
  In (zscore s 252) cols -> (t < 251)%nat ->
  notna_all (map (fun c => nth t c NaN) cols) = false.
Proof.
  intros Hin Ht. unfold notna_all.
  destruct (forallb (fun x => negb (isna x)) (map (fun c => nth t c NaN) cols)) eqn:E;
    [|reflexivity].
  rewrite forallb_forall in E.
  specialize (E (nth t (zscore s 252) NaN)).
  rewrite zscore_early_nan in E by lia.
  assert (H : negb (isna (@NaN R)) = true)
    by (apply E; apply in_map_iff; exists (zscore s 252); split;
        [now rewrite zscore_early_nan by lia|exact Hin]).
  discriminate H.
Qed.

Lemma short_frame_no_rows (cols : list (list (fval R))) (s : list (fval R)) (n : nat) :
  In (zscore s 252) cols -> (n <= 251)%nat -> fit_rows (select cols n) = [].
Proof.
  intros Hin Hn. unfold fit_rows. apply filter_none.
  intros row Hrow. unfold select in Hrow. apply in_map_iff in Hrow.
  destruct Hrow as (t & <- & Ht). apply in_seq in Ht.
  apply (@early_row_masked cols s t Hin). lia.
Qed.

(** X13. What the models are fitted on.  Whatever the master frame holds -
    NaN and infinities included - every row of the matrix handed to the
    scaler has one cell per feature (four for the HMM, six for the GMM) and
    none of them is missing.  The 252-day windows cost the first 251 rows:
    no row among them is part of the matrix, and a master frame of fewer than
    252 rows leaves the scaler an empty matrix. *)
Theorem fit_matrix_skips_warm_up (df : frame) :
  Forall (fun row => length row = 4%nat /\ Forall (fun y => isna y = false) row)
         (hmm_X2 df) /\
  Forall (fun row => length row = 6%nat /\ Forall (fun y => isna y = false) row)
         (gmm_X2 df) /\
  (forall t, nth_error (mask (select (hmm_feat_cols df) (length df))) t = Some true ->
     (251 <= t < length df)%nat) /\
  (forall t, nth_error (mask (select (gmm_feat_cols df) (length df))) t = Some true ->
     (251 <= t < length df)%nat) /\
  ((length df < 252)%nat -> hmm_X2 df = [] /\ gmm_X2 df = []).
Proof.
  split; [|split; [|split; [|split]]].
  - apply (@fit_rows_present (hmm_feat_cols df) (length df)).
  - apply (@fit_rows_present (gmm_feat_cols df) (length df)).
  - intros t Ht. apply mask_row in Ht. destruct Ht as [Hlt Hna].
    split; [|exact Hlt].
    destruct (Nat.lt_ge_cases t 251) as [Hearly|]; [|assumption].
    specialize (Hna (netliq_z df 252) (or_introl eq_refl)).
    unfold netliq_z in Hna. rewrite zscore_early_nan in Hna by lia.
    discriminate.
  - intros t Ht. apply mask_row in Ht. destruct Ht as [Hlt Hna].
    split; [|exact Hlt].
    destruct (Nat.lt_ge_cases t 251) as [Hearly|]; [|assumption].
    specialize (Hna (netliq_d1_z df 252) (or_introl eq_refl)).
    unfold netliq_d1_z in Hna. rewrite zscore_early_nan in Hna by lia.
    discriminate.
  - intros Hshort. split.
    + apply (@short_frame_no_rows (hmm_feat_cols df)
               (map (fun r => to_float (net_liquidity_usa_millions r)) df) (length df));
        [now left|lia].
    + apply (@short_frame_no_rows (gmm_feat_cols df)
               (map (fun r => to_float (net_liquidity_usa_millions_d1 r)) df) (length df));
        [now left|lia].
Qed.

End FitInput.

(* ===================================================================== *)
(** * The weekly driver (run_weekly_update.py)                            *)
(* ===================================================================== *)

Module Weekly.

Open Scope Z_scope.

(** How [main] ends: it returns, or [SystemExit(code)] leaves it. *)
Inductive ending : Type :=
| Completed
| SystemExit (code : Z).

Section Driver.

(** A command line, the state of the machine the commands act on, and
    [subprocess.run]: the state the child leaves and its return code. *)
Variables cmd world : Type.
Variable subprocess_run : cmd -> world -> world * Z.

(** [run_step]: the child's return code decides.  The middle component is
    what the step prints: the command, and [OK] (code 0) or [FAIL] with the
    code. *)
Definition run_step (c : cmd) (w : world) : world * (cmd * Z) * ending :=
  let (w', returncode) := subprocess_run c w in
  (w', (c, returncode),
   if returncode =? 0 then Completed else SystemExit returncode).

(** [main] over a pipeline, with what the steps printed, in order. *)
Fixpoint main (pipeline : list cmd) (w : world) : world * list (cmd * Z) * ending :=
  match pipeline with
  | [] => (w, [], Completed)
  | c :: rest =>
      let '(w', line, e) := run_step c w in
      match e with
      | Completed =>
          let '(w'', log, e') := main rest w' in
          (w'', line :: log, e')
      | SystemExit code => (w', [line], SystemExit code)
      end
  end.

End Driver.

(** The six commands of [PIPELINE], by script. *)
Inductive script : Type :=
| run_ingest_incremental
| build_net_liquidity
| build_net_liquidity_fixed_units
| build_global_cb_assets_usd
| build_gli_master
| train_liquidity_regime_hmm.

Definition PIPELINE : list script :=
  [run_ingest_incremental; build_net_liquidity; build_net_liquidity_fixed_units;
   build_global_cb_assets_usd; build_gli_master; train_liquidity_regime_hmm].

(** A run in which the fixed-units build fails with code 1; the state counts
    the commands started. *)
Definition fails_at_03 (c : script) (w : nat) : nat * Z :=
  (S w, match c with build_net_liquidity_fixed_units => 1 | _ => 0 end).

(** ** Properties of the driver *)

Section DriverFacts.

Variables cmd world : Type.
Variable subprocess_run : cmd -> world -> world * Z.

(** X14. The driver fails fast.  The commands started (the ones it prints)
    are a prefix of the pipeline, in order; all but the last returned 0.  The run completes
    exactly when every command was started and returned 0; otherwise it
    ends in [SystemExit] with the non-zero code of the last command started,
    and no later command is started.  The state is the one the last command
    left. *)
Theorem main_fails_fast (pipeline : list cmd) (w : world) :
  let '(w', log, e) := main subprocess_run pipeline w in
  exists later,
    pipeline = map fst log ++ later /\
    Forall (fun r => snd r = 0) (removelast log) /\
    match e with
    | Completed => later = [] /\ Forall (fun r => snd r = 0) log
    | SystemExit code =>
        code <> 0 /\ exists c, last log (c, 0) = (c, code) /\ log <> []
    end /\
    w' = fold_left (fun s c => fst (subprocess_run c s)) (map fst log) w.
Proof.
  revert w. induction pipeline as [|c rest IH]; intros w; simpl.
  - exists []. repeat split; constructor.
  - unfold run_step. destruct (subprocess_run c w) as [w1 code] eqn:E.
    destruct (Z.eqb_spec code 0) as [->|Hne].
    + specialize (IH w1).
      destruct (main subprocess_run rest w1) as [[w2 log] e].
      destruct IH as (later & Hp & Hz & He & Hw).
      exists later. split; [simpl; now rewrite Hp at 1|].
      split.
      { destruct log as [|r log]; [constructor|].
        change (removelast ((c, 0) :: r :: log))
          with ((c, 0) :: removelast (r :: log)).
        constructor; [reflexivity|exact Hz]. }
      split.
      { destruct e as [|code].
        - destruct He as [-> Hall]. split; [reflexivity|].
          constructor; [reflexivity|exact Hall].
        - destruct He as (Hc & c0 & Hlast & Hlog). split; [exact Hc|].
          exists c0. split; [|discriminate].
          destruct log as [|r log]; [congruence|]. exact Hlast. }
      simpl. rewrite E. exact Hw.
    + exists rest. repeat split; try constructor; auto.
      * exists c. split; [reflexivity|discriminate].
      * simpl. now rewrite E.
Qed.

End DriverFacts.

(** When 03 fails, 04, 05 and 07 are not started and the exit code is 1. *)
Example run_fails_at_03 :
  main fails_at_03 PIPELINE 0%nat =
  (3%nat,
   [(run_ingest_incremental, 0); (build_net_liquidity, 0);
    (build_net_liquidity_fixed_units, 1)],
   SystemExit 1).
Proof. reflexivity. Qed.

End Weekly.

(* ===================================================================== *)
(** * The aligned frame is point-in-time (02, 03, 04)                     *)
(* ===================================================================== *)

Module PointInTime.

Import Aligner.

Open Scope Z_scope.

(** A series, respectively a frame, as it stood on day [T]: the rows dated
    [T] or earlier. *)
Definition upto {X} (T : Z) (l : list (Z * X)) : list (Z * X) :=
  filter (fun r => fst r <=? T) l.

(** ** Properties of the aligned frame cut at a date *)

Lemma upto_In {X} (T : Z) (l : list (Z * X)) (r : Z * X) :
  In r (upto T l) <-> In r l /\ fst r <= T.
Proof. unfold upto. rewrite filter_In, Z.leb_le. reflexivity. Qed.

Lemma dates_upto_In {X} (T : Z) (l : list (Z * X)) (d : Z) :
  In d (dates (upto T l)) <-> In d (dates l) /\ d <= T.
Proof.
  unfold dates. rewrite !in_map_iff. split.
  - intros (r & <- & Hr). apply upto_In in Hr. destruct Hr as [Hr Hle].
    split; [eauto|exact Hle].
  - intros [(r & <- & Hr) Hle]. exists r. split; [reflexivity|].
    apply upto_In. auto.
Qed.

Lemma unique_dates_upto (T : Z) (s : series) :
  unique_dates s -> unique_dates (upto T s).
Proof.
  unfold unique_dates, upto, dates. induction s as [|r s IH]; simpl; intros H.
  - constructor.
  - inversion H as [|? ? Hni Hnd]; subst.
    destruct (fst r <=? T); simpl; [|now apply IH].
    constructor; [|now apply IH].
    intros Hin. apply Hni. apply in_map_iff in Hin.
    destruct Hin as (x & Hx & Hin). apply filter_In in Hin.
    apply in_map_iff. exists x. tauto.
Qed.

Lemma unique_value (s : series) (d : Z) (v v' : Q) :
  unique_dates s -> In (d, v) s -> In (d, v') s -> v = v'.
Proof.
  intros Hu H1 H2. apply (@lookup_date_Some s d v Hu) in H1.
  apply (@lookup_date_Some s d v' Hu) in H2. congruence.
Qed.

(** What a series last showed at or before a date is determined. *)
Lemma last_at_or_before_unique (s : series) (t : Z) (o o' : option Q) :
  unique_dates s ->
  last_at_or_before s t o -> last_at_or_before s t o' -> o = o'.
Proof.
  intros Hu H H'. destruct o as [v|], o' as [v'|]; simpl in *.
  - destruct H as (d & Hd & Hle & Hmax), H' as (d' & Hd' & Hle' & Hmax').
    assert (d = d').
    { assert (d' <= d) by (apply Hmax; [apply in_map_iff; exists (d', v'); auto|lia]).
      assert (d <= d') by (apply Hmax'; [apply in_map_iff; exists (d, v); auto|lia]).
      lia. }
    subst d'. f_equal. eapply unique_value; eauto.
  - destruct H as (d & Hd & Hle & _).
    assert (t < d) by (apply H'; apply in_map_iff; exists (d, v); auto). lia.
  - destruct H' as (d & Hd & Hle & _).
    assert (t < d) by (apply H; apply in_map_iff; exists (d, v'); auto). lia.
  - reflexivity.
Qed.

Lemma last_at_or_before_upto (s : series) (T t : Z) (o : option Q) :
  t <= T -> (last_at_or_before (upto T s) t o <-> last_at_or_before s t o).
Proof.
  intros Hle. destruct o as [v|]; simpl.
  - split.
    + intros (d & Hd & Hdt & Hmax). apply upto_In in Hd. destruct Hd as [Hd _].
      exists d. split; [exact Hd|]. split; [exact Hdt|].
      intros d' Hd' Hle'. apply Hmax; [|exact Hle'].
      apply dates_upto_In. split; [exact Hd'|lia].
    + intros (d & Hd & Hdt & Hmax). exists d. split.
      * apply upto_In. split; [exact Hd|simpl; lia].
      * split; [exact Hdt|]. intros d' Hd' Hle'.
        apply dates_upto_In in Hd'. apply Hmax; tauto.
  - split.
    + intros H d' Hd'. destruct (Z_lt_le_dec t d') as [|Hge]; [assumption|].
      apply H. apply dates_upto_In. split; [exact Hd'|lia].
    + intros H d' Hd'. apply dates_upto_In in Hd'. apply H. tauto.
Qed.

Lemma Forall2_unique {A B} (P : A -> B -> Prop) (l : list A) (l1 l2 : list B) :
  (forall a b b', In a l -> P a b -> P a b' -> b = b') ->
  Forall2 P l l1 -> Forall2 P l l2 -> l1 = l2.
Proof.
  intros Hu H1. revert l2. induction H1 as [|a b l l1 Hab _ IH]; intros l2 H2.
  - now inversion H2.
  - inversion H2 as [|? b' ? l2' Hab' H2']; subst. f_equal.
    + apply (Hu a); [now left|assumption|assumption].
    + apply IH; [|exact H2']. intros x y y' Hx. apply Hu. now right.
Qed.

Lemma Forall2_map_l {A A' B} (P : A' -> B -> Prop) (f : A -> A') (l : list A)
    (l' : list B) :
  Forall2 P (map f l) l' <-> Forall2 (fun a b => P (f a) b) l l'.
Proof.
  revert l'. induction l as [|a l IH]; intros l'; simpl; split; intros H;
    inversion H; subst; constructor; try assumption; now apply IH.
Qed.

Lemma build_aligned_sorted (ss : list series) :
  ss <> [] -> Forall unique_dates ss ->
  StronglySorted Z.lt (dates (build_aligned ss)).
Proof.
  intros Hne Hall. destruct (sorted_join Hne Hall) as (Hsorted & _ & _).
  pose proof (ffill_sorted_join Hne Hall) as HF.
  rewrite build_aligned_unfold. apply sorted_dates_filter.
  now rewrite (@Forall2_dates _ _ _ HF).
Qed.

(** A row of the aligned frame, by its date and what each series last
    showed. *)
Lemma build_aligned_row (ss : list series) (t : Z) (cells : list (option Q)) :
  ss <> [] -> Forall unique_dates ss ->
  (In (t, cells) (build_aligned ss) <->
   In t (dates (build_aligned ss)) /\
   Forall2 (fun s o => last_at_or_before s t o) ss cells).
Proof.
  intros Hne Hall. pose proof (ffill_sorted_join Hne Hall) as HF.
  assert (Hrow : forall c, In (t, c) (build_aligned ss) ->
                   Forall2 (fun s o => last_at_or_before s t o) ss c).
  { intros c Hin. rewrite build_aligned_unfold in Hin.
    apply filter_In in Hin. destruct Hin as [Hin _].
    destruct (Forall2_In_r _ HF Hin) as ([t0 c0] & _ & Hfst & Hlast).
    simpl in *. now subst t0. }
  split.
  - intros Hin. split; [|now apply Hrow].
    unfold dates. apply in_map_iff. exists (t, cells). auto.
  - intros [Hd Hcells]. unfold dates in Hd. apply in_map_iff in Hd.
    destruct Hd as ([t0 c0] & Ht0 & Hin). simpl in Ht0. subst t0.
    assert (c0 = cells); [|now subst].
    apply (Forall2_unique (l := ss)
             (P := fun s o => last_at_or_before s t o));
      [|now apply Hrow|exact Hcells].
    intros s o o' Hs. apply last_at_or_before_unique.
    rewrite Forall_forall in Hall. now apply Hall.
Qed.

(** Two frames sorted strictly by date that hold the same rows are equal. *)
Lemma sorted_rows_ext (l l' : table) :
  StronglySorted Z.lt (dates l) -> StronglySorted Z.lt (dates l') ->
  (forall r, In r l <-> In r l') -> l = l'.
Proof.
  revert l'. induction l as [|r l IH]; intros l' Hs Hs' Hin.
  - destruct l' as [|r' l']; [reflexivity|].
    exfalso. apply (Hin r'). now left.
  - destruct l' as [|r' l'].
    { exfalso. apply (Hin r). now left. }
    simpl in Hs, Hs'. inversion Hs as [|? ? Hs1 Hr]; subst.
    inversion Hs' as [|? ? Hs1' Hr']; subst.
    rewrite Forall_forall in Hr, Hr'.
    assert (Hlt : forall x, In x l -> fst r < fst x)
      by (intros x Hx; apply Hr; unfold dates; now apply in_map).
    assert (Hlt' : forall x, In x l' -> fst r' < fst x)
      by (intros x Hx; apply Hr'; unfold dates; now apply in_map).
    assert (E : r = r').
    { destruct (proj1 (Hin r) (or_introl eq_refl)) as [E|Hr1]; [now symmetry|].
      destruct (proj2 (Hin r') (or_introl eq_refl)) as [E|Hr2]; [exact E|].
      specialize (Hlt _ Hr2). specialize (Hlt' _ Hr1). lia. }
    subst r'. f_equal. apply IH; try assumption.
    intros x. split; intros Hx.
    + destruct (proj1 (Hin x) (or_intror Hx)) as [E|Hx']; [|exact Hx'].
      subst x. specialize (Hlt _ Hx). lia.
    + destruct (proj2 (Hin x) (or_intror Hx)) as [E|Hx']; [|exact Hx'].
      subst x. specialize (Hlt' _ Hx). lia.
Qed.

(** X16. The aligned frame is point-in-time.  Aligning the series as they
    stood on day T (their rows dated T or earlier) gives exactly the rows
    dated T or earlier of the frame aligned from the full series: no row
    takes anything from an observation after its own date, and later data
    never change an earlier row.  (Series without repeated timestamps.) *)
Theorem build_aligned_point_in_time (ss : list series) (T : Z) :
  ss <> [] -> Forall unique_dates ss ->
  build_aligned (map (upto T) ss) = upto T (build_aligned ss).
Proof.
  intros Hne Hall.
  assert (Hne' : map (upto T) ss <> []) by (destruct ss; [congruence|discriminate]).
  assert (Hall' : Forall unique_dates (map (upto T) ss)).
  { apply Forall_map. eapply Forall_impl; [|exact Hall].
    intros s. apply unique_dates_upto. }
  apply sorted_rows_ext.
  - now apply build_aligned_sorted.
  - unfold upto. apply sorted_dates_filter. now apply build_aligned_sorted.
  - intros [t cells].
    assert (HR : In (t, cells) (upto T (build_aligned ss)) <->
                 In (t, cells) (build_aligned ss) /\ t <= T)
      by apply (@upto_In _ T (build_aligned ss) (t, cells)).
    rewrite HR. clear HR.
    rewrite (build_aligned_row t cells Hne' Hall').
    rewrite (build_aligned_row t cells Hne Hall).
    rewrite (build_aligned_dates t Hne' Hall').
    rewrite (build_aligned_dates t Hne Hall).
    rewrite Forall2_map_l.
    split.
    + intros [[(s' & Hs' & Ht) Hstart] Hcells].
      apply in_map_iff in Hs'. destruct Hs' as (s & <- & Hs).
      apply dates_upto_In in Ht. destruct Ht as [Ht HtT].
      split; [|exact HtT]. split.
      * split; [eauto|]. intros s0 Hs0.
        destruct (Hstart (upto T s0)) as (d & Hd & Hle);
          [apply in_map; exact Hs0|].
        apply dates_upto_In in Hd. exists d. tauto.
      * eapply Forall2_impl; [|exact Hcells]. intros s0 o.
        now apply last_at_or_before_upto.
    + intros [[[(s & Hs & Ht) Hstart] Hcells] HtT]. split.
      * split.
        -- exists (upto T s). split; [now apply in_map|].
           apply dates_upto_In. auto.
        -- intros s' Hs'. apply in_map_iff in Hs'.
           destruct Hs' as (s0 & <- & Hs0).
           destruct (Hstart s0 Hs0) as (d & Hd & Hle).
           exists d. split; [|exact Hle]. apply dates_upto_In. split; [exact Hd|lia].
      * eapply Forall2_impl; [|exact Hcells]. intros s0 o.
        now apply last_at_or_before_upto.
Qed.

Lemma build_aligned_point_in_time_witness :
  build_aligned (map (upto 4) [weekly; daily; other]) =
  upto 4 (build_aligned [weekly; daily; other]).
Proof.
  apply (@build_aligned_point_in_time [weekly; daily; other] 4).
  - discriminate.
  - repeat constructor; simpl; intuition discriminate.
Defined.

End PointInTime.

(* ===================================================================== *)
(** * The canonical labels are a fixed point of the ordering (06, 07)     *)
(* ===================================================================== *)

Module Canonical.

Import Features.
Import Regime.

Open Scope Q_scope.

Definition set_state (r : obs_row) (k : nat) : obs_row :=
  {| netliq_z252 := netliq_z252 r; gcb_z252 := gcb_z252 r;
     state := k; post := post r |}.

(** The output frame read with its [regime] column as the state: every row
    keeps its features and carries its canonical label.  (Every raw state of
    a row is a key of the mapping.) *)
Definition relabeled (rows : list obs_row) : list obs_row :=
  let mapping := _order_states_by_expansiveness rows in
  map (fun r => match mapping !! state r with
                | Some new => set_state r new
                | None => r
                end) rows.

(** ** Properties of the relabeled frame *)

Lemma isort_of_sorted {A} (leb : A -> A -> bool) (l : list A) :
  sorted_by leb l -> isort leb l = l.
Proof.
  induction 1 as [|x l Hs IH Hx]; simpl; [reflexivity|].
  rewrite IH. destruct l as [|y l]; [reflexivity|]. simpl.
  rewrite Forall_forall in Hx. rewrite (Hx y) by now left. reflexivity.
Qed.

Lemma sorted_nat_ext (l l' : list nat) :
  StronglySorted lt l -> StronglySorted lt l' ->
  (forall x, In x l <-> In x l') -> l = l'.
Proof.
  revert l'. induction l as [|a l IH]; intros l' Hs Hs' Hin.
  - destruct l' as [|b l']; [reflexivity|]. exfalso. apply (Hin b). now left.
  - destruct l' as [|b l']; [exfalso; apply (Hin a); now left|].
    inversion Hs as [|? ? Hs1 Ha]; subst.
    inversion Hs' as [|? ? Hs1' Hb]; subst.
    rewrite Forall_forall in Ha, Hb.
    assert (E : a = b).
    { destruct (proj1 (Hin a) (or_introl eq_refl)) as [E|H1]; [now symmetry|].
      destruct (proj2 (Hin b) (or_introl eq_refl)) as [E|H2]; [exact E|].
      specialize (Ha _ H2). specialize (Hb _ H1). lia. }
    subst b. f_equal. apply IH; try assumption.
    intros x. split; intros Hx.
    + destruct (proj1 (Hin x) (or_intror Hx)) as [E|Hx']; [|exact Hx'].
      subst x. specialize (Ha _ Hx). lia.
    + destruct (proj2 (Hin x) (or_intror Hx)) as [E|Hx']; [|exact Hx'].
      subst x. specialize (Hb _ Hx). lia.
Qed.

Lemma sorted_map_seq {A} (R : A -> A -> Prop) (f : nat -> A) (n i : nat) :
  (forall a b, (i <= a)%nat -> (a < b)%nat -> (b < i + n)%nat -> R (f a) (f b)) ->
  StronglySorted R (map f (seq i n)).
Proof.
  revert i. induction n as [|n IH]; intros i H; simpl; constructor.
  - apply IH. intros a b Ha Hab Hb. apply H; lia.
  - apply Forall_forall. intros y Hy. apply in_map_iff in Hy.
    destruct Hy as (b & <- & Hb). apply in_seq in Hb. apply H; lia.
Qed.

Lemma group_keys_sorted (states : list nat) :
  StronglySorted lt (group_keys states).
Proof.
  pose proof (group_keys_NoDup states) as Hnd.
  assert (Hle : StronglySorted (fun a b => Nat.leb a b = true) (group_keys states)).
  { unfold group_keys. apply isort_sorted.
    - intros a b. destruct (Nat.leb_spec a b); [now left|right].
      apply Nat.leb_le. lia.
    - intros a b c H1 H2. apply Nat.leb_le in H1, H2. apply Nat.leb_le. lia. }
  induction Hle as [|a l Hs IH Ha]; constructor.
  - apply IH. now inversion Hnd.
  - inversion Hnd as [|? ? Hni _]; subst.
    rewrite Forall_forall in *. intros x Hx. specialize (Ha x Hx).
    apply Nat.leb_le in Ha.
    assert (a <> x) by (intros ->; contradiction). lia.
Qed.

Section Relabeled.

Variable rows : list obs_row.

Let m := _order_states_by_expansiveness rows.
Let K := length (group_keys (map state rows)).

Lemma row_label (r : obs_row) :
  In r rows -> exists new, m !! state r = Some new /\ (new < K)%nat.
Proof.
  intros Hr. destruct (m !! state r) as [new|] eqn:E.
  - exists new. split; [reflexivity|]. now apply mapping_range in E.
  - apply mapping_None in E. exfalso. apply E. now apply in_map.
Qed.

Lemma relabeled_states (k : nat) :
  In k (map state (relabeled rows)) <-> (k < K)%nat.
Proof.
  unfold relabeled. cbv zeta. fold m. rewrite map_map, in_map_iff. split.
  - intros (r & <- & Hr). destruct (row_label r Hr) as (new & -> & Hnew).
    exact Hnew.
  - intros Hk. destruct (@mapping_onto rows k Hk) as [old Hold].
    destruct (mapping_range _ _ Hold) as [_ Hin].
    apply in_map_iff in Hin. destruct Hin as (r & <- & Hr).
    exists r. split; [|exact Hr]. fold m in Hold. now rewrite Hold.
Qed.

Lemma relabeled_keys : group_keys (map state (relabeled rows)) = seq 0 K.
Proof.
  apply sorted_nat_ext.
  - apply group_keys_sorted.
  - replace (seq 0 K) with (map (fun k : nat => k) (seq 0 K)) by apply map_id.
    apply sorted_map_seq. intros; lia.
  - intros k. rewrite group_keys_In, relabeled_states, in_seq. lia.
Qed.

Lemma relabeled_group (col : obs_row -> Q) (old new : nat) :
  (forall r k, col (set_state r k) = col r) ->
  m !! old = Some new ->
  group_mean col (relabeled rows) new = group_mean col rows old.
Proof.
  intros Hcol Hon. unfold group_mean. cbv zeta.
  unfold relabeled. cbv zeta. fold m.
  rewrite (@FixedUnits.filter_map_in _ _ _ (fun r => (state r =? old)%nat)).
  - rewrite map_map, length_map. f_equal. f_equal. apply map_ext_in.
    intros r Hr. destruct (m !! state r); [apply Hcol|reflexivity].
  - intros r Hr. destruct (row_label r Hr) as (k & Hk & _). rewrite Hk. simpl.
    destruct (Nat.eqb_spec k new) as [->|Hne], (Nat.eqb_spec (state r) old)
      as [E|Hne']; try reflexivity.
    + exfalso. apply Hne'. eapply mapping_injective; eauto.
    + exfalso. apply Hne. rewrite E in Hk. fold m in Hk. congruence.
Qed.

Lemma relabeled_expansiveness (old new : nat) :
  m !! old = Some new ->
  expansiveness (relabeled rows) new = expansiveness rows old.
Proof.
  intros Hon. unfold expansiveness.
  now rewrite !(@relabeled_group _ old new) by (reflexivity || exact Hon).
Qed.

Lemma relabeled_descending (a b : nat) :
  (a < b)%nat -> (b < K)%nat ->
  expansiveness (relabeled rows) b <= expansiveness (relabeled rows) a.
Proof.
  intros Hab Hb.
  assert (Ha0 : (a < K)%nat) by lia.
  destruct (@mapping_onto rows a Ha0) as [oa Ha].
  destruct (@mapping_onto rows b Hb) as [ob Hb'].
  rewrite (relabeled_expansiveness _ Ha), (relabeled_expansiveness _ Hb').
  apply mapping_lookup in Ha, Hb'.
  exact (@order_descending rows a b oa ob Hab Ha Hb').
Qed.

Lemma relabeled_order : order (relabeled rows) = seq 0 K.
Proof.
  unfold order, scores. rewrite relabeled_keys.
  rewrite isort_of_sorted.
  - rewrite map_map. simpl. apply map_id.
  - apply sorted_map_seq. intros a b _ Hab Hb. unfold score_desc. simpl.
    apply Qle_bool_iff. apply relabeled_descending; lia.
Qed.

End Relabeled.

(** X17. The canonical labels are a fixed point.  Read the output frame with
    its regime column as the state and order the states again: the mapping
    is the identity on the regimes 0..K-1 that occur (K the number of raw
    states observed) and has no other key; and in the output a smaller
    regime never has a smaller expansiveness score than a larger one. *)
Theorem relabel_is_idempotent (rows : list obs_row) :
  let K := length (group_keys (map state rows)) in
  (forall k, _order_states_by_expansiveness (relabeled rows) !! k =
             if (k <? K)%nat then Some k else None) /\
  (forall a b, (a < b)%nat -> (b < K)%nat ->
     expansiveness (relabeled rows) b <= expansiveness (relabeled rows) a).
Proof.
  intros K. split; [|apply relabeled_descending].
  intros k. destruct (Nat.ltb_spec k K) as [Hk|Hk].
  - apply mapping_lookup. rewrite relabeled_order.
    rewrite nth_error_seq_lt by exact Hk. reflexivity.
  - apply mapping_None. rewrite relabeled_states. fold K. lia.
Qed.

Example relabeled_fit_rows :
  map state (relabeled fit_rows) = [2; 0; 1; 0]%nat /\
  order (relabeled fit_rows) = [0; 1; 2]%nat.
Proof. split; vm_compute; reflexivity. Qed.

End Canonical.

(* ===================================================================== *)
(** * The full ingestion and the two validations of the FRED config       *)
(** * (run_ingest.py, run_ingest_incremental.py)                          *)
(* ===================================================================== *)

Module Ingest.

Open Scope Z_scope.

(** What [yaml.safe_load] returns: scalars, lists, dicts (as their items, in
    order; the keys are scalars). *)
Inductive scalar : Type :=
| SNull
| SBool (b : bool)
| SInt (z : Z)
| SStr (s : string).

#[warnings="-register-all"] Inductive yaml : Type :=
| YScalar (s : scalar)
| YList (l : list yaml)
| YDict (d : list (scalar * yaml)).

(** A config path: no file, a file that is not YAML, a file that loads. *)
Inductive config_file : Type :=
| Missing
| Unparsable
| Parsed (y : yaml).

Inductive exc : Type :=
| SystemExit (code : Z)
| YAMLError
| TypeError
| KeyError
| AttributeError
| ImportError
| FetchError.

Inductive res (A : Type) : Type :=
| Ok (a : A)
| Raise (e : exc).

Arguments Ok {A} a.
Arguments Raise {A} e.

#[export] Instance res_bind : MBind res := fun A B f r =>
  match r with
  | Ok a => f a
  | Raise e => Raise e
  end.

Definition py_None : yaml := YScalar SNull.

(** [key == k] for a dict key and a string. *)
Definition is_str (k : string) (s : scalar) : bool :=
  match s with
  | SStr s' => String.eqb k s'
  | _ => false
  end.

(** [k in d] and [d.get(k)] on a dict. *)
Definition has_key (k : string) (d : list (scalar * yaml)) : bool :=
  existsb (fun p => is_str k (fst p)) d.

Fixpoint dict_get (k : string) (d : list (scalar * yaml)) : option yaml :=
  match d with
  | [] => None
  | (k', v) :: rest => if is_str k k' then Some v else dict_get k rest
  end.

Definition is_dict (o : option yaml) : bool :=
  match o with
  | Some (YDict _) => true
  | _ => false
  end.

Definition dict_of (o : option yaml) : list (scalar * yaml) :=
  match o with
  | Some (YDict d) => d
  | _ => []
  end.

Definition is_empty {A} (l : list A) : bool :=
  match l with
  | [] => true
  | _ => false
  end.

(** [_die]: the message goes to stderr, the exit code is 1. *)
Definition _die {A} : res A := Raise (SystemExit 1).

(** [_read_yaml] of both scripts: no file, an empty document or a document
    that is no dict end the run; a syntax error is [safe_load]'s own
    exception. *)
Definition _read_yaml (f : config_file) : res (list (scalar * yaml)) :=
  match f with
  | Missing => _die
  | Unparsable => Raise YAMLError
  | Parsed (YDict d) => Ok d
  | Parsed _ => _die
  end.

(** Lines 88-106 of run_ingest.py: the items of [fred.series]. *)
Definition validate_fred (f : config_file) : res (list (scalar * yaml)) :=
  fred_cfg ← _read_yaml f;
  if negb (has_key "fred" fred_cfg) || negb (is_dict (dict_get "fred" fred_cfg))
  then _die
  else
    let fred := dict_of (dict_get "fred" fred_cfg) in
    if negb (has_key "series" fred) || negb (is_dict (dict_get "series" fred))
    then _die
    else
      let series_items := dict_of (dict_get "series" fred) in
      if is_empty series_items then _die else Ok series_items.

(** Python's [k in v], [v[k]], [v.items()] and [v.get(k)] for a string [k]
    and any loaded value [v]. *)
Definition py_in (k : string) (v : yaml) : res bool :=
  match v with
  | YDict d => Ok (has_key k d)
  | YList l =>
      Ok (existsb (fun x => match x with
                            | YScalar s => is_str k s
                            | _ => false
                            end) l)
  | YScalar (SStr s) => Ok (FixedUnits.contains k s)
  | YScalar _ => Raise TypeError
  end.

Definition py_getitem (v : yaml) (k : string) : res yaml :=
  match v with
  | YDict d =>
      match dict_get k d with
      | Some x => Ok x
      | None => Raise KeyError
      end
  | _ => Raise TypeError
  end.

Definition py_items (v : yaml) : res (list (scalar * yaml)) :=
  match v with
  | YDict d => Ok d
  | _ => Raise AttributeError
  end.

Definition py_get (v : yaml) (k : string) : res yaml :=
  match v with
  | YDict d => Ok (default py_None (dict_get k d))
  | _ => Raise AttributeError
  end.

(** Lines 84-92 of run_ingest_incremental.py: the same items, without the
    [isinstance] tests. *)
Definition validate_fred_incremental (f : config_file)
  : res (list (scalar * yaml)) :=
  fred_cfg ← _read_yaml f;
  if negb (has_key "fred" fred_cfg) then _die
  else
    fred ← py_getitem (YDict fred_cfg) "fred";
    has_series ← py_in "series" fred;
    if negb has_series then _die
    else
      series ← py_getitem fred "series";
      items ← py_items series;
      if is_empty items then _die else Ok items.

(** Configs the strict validation turns away with exit code 1. *)
Definition fred_is_null : config_file :=
  Parsed (YDict [(SStr "fred", py_None)]).

Definition series_is_a_list : config_file :=
  Parsed (YDict [(SStr "fred",
                  YDict [(SStr "series", YList [YScalar (SStr "WALCL")])])]).

Definition fred_is_a_string : config_file :=
  Parsed (YDict [(SStr "fred", YScalar (SStr "WALCL series"))]).

(** ** The run of run_ingest.py *)

(** The names ingest/sdmx.py binds at module level. *)
Definition sdmx_names : list string :=
  ["annotations"; "pd"; "requests"; "BASE_URLS"; "_to_float";
   "fetch_sdmx_series_http"]%string.

(** Python's truth value of a loaded value. *)
Definition truthy (v : yaml) : bool :=
  match v with
  | YScalar SNull => false
  | YScalar (SBool b) => b
  | YScalar (SInt z) => negb (z =? 0)
  | YScalar (SStr s) => negb (String.eqb s String.EmptyString)
  | YList l => negb (is_empty l)
  | YDict d => negb (is_empty d)
  end.

Section Run.

(** A fetched frame and its number of rows; the FRED fetcher by series id,
    start and end; what calling a name of ingest/sdmx.py with source, flow,
    key, start and end does. *)
Variable Frame : Type.
Variable len : Frame -> nat.
Variable fetch_fred_series : scalar -> yaml -> yaml -> res Frame.
Variable sdmx_call : string -> yaml -> yaml -> yaml -> yaml -> yaml -> res Frame.

(** The parquet file a frame is saved to. *)
Inductive parquet : Type :=
| FredFile (sid : scalar)
| SdmxFile (safe_name : yaml)
| SdmxSourceFlow (source flow : yaml).

Inductive origin : Type :=
| FRED
| SDMX (source : yaml).

Record log_row : Type := {
  log_source : origin;
  log_rows : nat
}.

(** What a run changes: the files saved under data/bronze (in the order they
    were saved), the list [logs] of [main], and manifests/ingest_log. *)
Record state : Type := {
  bronze : list (parquet * Frame);
  logs : list log_row;
  manifest : list log_row
}.

(** Statements: they change the state and return or raise. *)
Definition M (A : Type) : Type := state -> state * res A.

#[export] Instance M_bind : MBind M := fun A B f m st =>
  match m st with
  | (st', Ok a) => f a st'
  | (st', Raise e) => (st', Raise e)
  end.

Definition ret {A} (a : A) : M A := fun st => (st, Ok a).

Definition lift {A} (r : res A) : M A := fun st => (st, r).

Definition _save_parquet (df : Frame) (out : parquet) : M unit := fun st =>
  ({| bronze := bronze st ++ [(out, df)]; logs := logs st; manifest := manifest st |},
   Ok tt).

Definition logs_append (row : log_row) : M unit := fun st =>
  ({| bronze := bronze st; logs := logs st ++ [row]; manifest := manifest st |},
   Ok tt).

Definition logs_reset : M unit := fun st =>
  ({| bronze := bronze st; logs := []; manifest := manifest st |}, Ok tt).

(** [_append_ingest_log(logs)]. *)
Definition _append_ingest_log : M unit := fun st =>
  ({| bronze := bronze st; logs := logs st; manifest := manifest st ++ logs st |},
   Ok tt).

Fixpoint for_each {A} (l : list A) (body : A -> M unit) : M unit :=
  match l with
  | [] => ret tt
  | x :: rest => _ ← body x; for_each rest body
  end.

(** The body of the loop of lines 108-121. *)
Definition fred_item (item : scalar * yaml) : M unit :=
  let (sid, meta) := item in
  start ← lift (py_get meta "start");
  end_ ← lift (py_get meta "end");
  df ← lift (fetch_fred_series sid start end_);
  _ ← _save_parquet df (FredFile sid);
  logs_append {| log_source := FRED; log_rows := len df |}.

(** [from ingest.sdmx import name]. *)
Definition import_from_sdmx (name : string)
  : res (yaml -> yaml -> yaml -> yaml -> yaml -> res Frame) :=
  if existsb (String.eqb name) sdmx_names then Ok (sdmx_call name)
  else Raise ImportError.

(** The body of the loop of lines 152-179.  The three membership tests only
    print: their [continue] continues the inner loop. *)
Definition sdmx_item
    (fetch_sdmx_series : yaml -> yaml -> yaml -> yaml -> yaml -> res Frame)
    (item : yaml) : M unit :=
  _ ← lift (py_in "source" item);
  _ ← lift (py_in "flow" item);
  _ ← lift (py_in "key" item);
  source ← lift (py_getitem item "source");
  flow ← lift (py_getitem item "flow");
  key ← lift (py_getitem item "key");
  start ← lift (py_get item "start");
  end_ ← lift (py_get item "end");
  df ← lift (fetch_sdmx_series source flow key start end_);
  name ← lift (py_get item "name");
  out ← (if truthy name then ret (SdmxFile name)
         else
           source' ← lift (py_getitem item "source");
           flow' ← lift (py_getitem item "flow");
           ret (SdmxSourceFlow source' flow'));
  _ ← _save_parquet df out;
  source'' ← lift (py_getitem item "source");
  logs_append {| log_source := SDMX source''; log_rows := len df |}.

(** Lines 126-183. *)
Definition sdmx_part (sdmx_file : config_file) : M unit :=
  match sdmx_file with
  | Missing => ret tt
  | _ =>
      match _read_yaml sdmx_file with
      | Raise (SystemExit _) => ret tt
      | Raise e => lift (Raise e)
      | Ok sdmx_cfg =>
          let series_list :=
            match dict_get "series" sdmx_cfg with
            | Some (YList l) => l
            | _ => []
            end in
          if is_empty series_list then ret tt
          else
            match import_from_sdmx "fetch_sdmx_series" with
            | Raise _ => ret tt
            | Ok fetch_sdmx_series =>
                for_each series_list (sdmx_item fetch_sdmx_series)
            end
      end
  end.

(** [main] of run_ingest.py. *)
Definition main (fred_file sdmx_file : config_file) : M unit :=
  _ ← logs_reset;
  series_items ← lift (validate_fred fred_file);
  _ ← for_each series_items fred_item;
  _ ← sdmx_part sdmx_file;
  _append_ingest_log.

(** What the FRED loop has done when it stops after the items [done]. *)
Definition fred_files (done : list (scalar * Frame)) : list (parquet * Frame) :=
  map (fun x => (FredFile (fst x), snd x)) done.

Definition fred_logs (done : list (scalar * Frame)) : list log_row :=
  map (fun x => {| log_source := FRED; log_rows := len (snd x) |}) done.

(** The frame the fetcher returns for an item, if the item gets that far. *)
Definition fetched (item : scalar * yaml) : res Frame :=
  start ← py_get (snd item) "start";
  end_ ← py_get (snd item) "end";
  fetch_fred_series (fst item) start end_.

End Run.

(** ** Properties of the validations *)

Lemma has_key_get (k : string) (d : list (scalar * yaml)) :
  has_key k d = true <-> exists v, dict_get k d = Some v.
Proof.
  induction d as [|[k' v] d IH]; simpl.
  - split; [discriminate|]. intros [v H]. discriminate.
  - destruct (is_str k k'); simpl; [split; eauto|exact IH].
Qed.

(** X18. The two validations of the FRED config.  The strict one
    (run_ingest.py) only ever ends in exit code 1, in the YAML syntax error,
    or in the non-empty items of the dict [fred.series].  The incremental
    one accepts exactly the same configs with the same items; but where the
    strict one exits with code 1 because [fred] or [series] is no dict, the
    incremental one can end in an uncaught TypeError or AttributeError
    instead ([fred: null], [fred] a string, [series] a list). *)
Theorem fred_validations_agree_on_valid_configs (f : config_file) :
  (validate_fred f = Raise (SystemExit 1) \/
   (validate_fred f = Raise YAMLError /\ f = Unparsable) \/
   exists cfg fred items,
     f = Parsed (YDict cfg) /\
     dict_get "fred" cfg = Some (YDict fred) /\
     dict_get "series" fred = Some (YDict items) /\
     items <> [] /\ validate_fred f = Ok items) /\
  (forall items, validate_fred_incremental f = Ok items <->
                 validate_fred f = Ok items) /\
  (validate_fred fred_is_null = Raise (SystemExit 1) /\
   validate_fred_incremental fred_is_null = Raise TypeError) /\
  (validate_fred fred_is_a_string = Raise (SystemExit 1) /\
   validate_fred_incremental fred_is_a_string = Raise TypeError) /\
  (validate_fred series_is_a_list = Raise (SystemExit 1) /\
   validate_fred_incremental series_is_a_list = Raise AttributeError).
Proof.
  split; [|split; [|repeat split; reflexivity]].
  - destruct f as [| |[s|l|cfg]]; try (left; reflexivity).
    { right. left. auto. }
    unfold validate_fred. cbn [_read_yaml mbind res_bind].
    destruct (has_key "fred" cfg) eqn:Hk; [|left; reflexivity].
    destruct (dict_get "fred" cfg) as [[s|l|fred]|] eqn:Hf;
      try (left; reflexivity).
    cbn [is_dict dict_of negb orb].
    destruct (has_key "series" fred) eqn:Hs; [|left; reflexivity].
    destruct (dict_get "series" fred) as [[s|l|items]|] eqn:Hi;
      try (left; reflexivity).
    cbn [is_dict dict_of negb orb].
    destruct items as [|i items]; [left; reflexivity|].
    right. right. exists cfg, fred, (i :: items).
    repeat split; try assumption. discriminate.
  - intros items.
    destruct f as [| |[s|l|cfg]]; try (split; intros H; discriminate H).
    unfold validate_fred, validate_fred_incremental.
    cbn [_read_yaml mbind res_bind py_getitem].
    destruct (has_key "fred" cfg) eqn:Hk; [|split; intros H; discriminate H].
    apply has_key_get in Hk. destruct Hk as [v Hv]. rewrite Hv.
    cbn [negb orb].
    destruct v as [[| | |s]|l|fred]; simpl;
      try (split; intros H; discriminate H).
    + destruct (FixedUnits.contains "series" s); simpl;
        split; intros H; discriminate H.
    + destruct (existsb _ l); simpl; split; intros H; discriminate H.
    + destruct (has_key "series" fred) eqn:Hs; simpl;
        [|split; intros H; discriminate H].
      apply has_key_get in Hs. destruct Hs as [w Hw]. rewrite Hw.
      destruct w as [s|l|series]; simpl;
        try (split; intros H; discriminate H).
      reflexivity.
Qed.

Section RunFacts.

Variable Frame : Type.
Variable len : Frame -> nat.
Variable fetch_fred_series : scalar -> yaml -> yaml -> res Frame.
Variable sdmx_call : string -> yaml -> yaml -> yaml -> yaml -> yaml -> res Frame.

#[local] Abbreviation fred_item := (fred_item len fetch_fred_series).
#[local] Abbreviation fetched := (fetched fetch_fred_series).
#[local] Abbreviation main := (main len fetch_fred_series sdmx_call).

(** The name both scripts import is not one ingest/sdmx.py binds. *)
Lemma import_fails :
  import_from_sdmx sdmx_call "fetch_sdmx_series" = Raise ImportError.
Proof. reflexivity. Qed.

Lemma sdmx_part_skips (sdmx_file : config_file) (st : state Frame) :
  sdmx_part len sdmx_call sdmx_file st =
  (st, match sdmx_file with
       | Unparsable => Raise YAMLError
       | _ => Ok tt
       end).
Proof.
  destruct sdmx_file as [| |[s|l|cfg]]; try reflexivity.
  unfold sdmx_part. cbn [_read_yaml]. rewrite import_fails.
  now destruct (is_empty _).
Qed.

Lemma fred_item_step (item : scalar * yaml) (st : state Frame) :
  fred_item item st =
  match fetched item with
  | Ok df =>
      ({| bronze := bronze st ++ [(FredFile (fst item), df)];
          logs := logs st ++ [{| log_source := FRED; log_rows := len df |}];
          manifest := manifest st |}, Ok tt)
  | Raise e => (st, Raise e)
  end.
Proof.
  destruct item as [sid meta]. unfold Ingest.fred_item, Ingest.fetched.
  cbn [fst snd]. unfold mbind at 1, M_bind, lift.
  destruct (py_get meta "start") as [start|e]; [|reflexivity].
  cbn [mbind res_bind]. unfold mbind at 1, M_bind.
  destruct (py_get meta "end") as [end_|e]; [|reflexivity].
  cbn [mbind res_bind]. unfold mbind at 1, M_bind.
  destruct (fetch_fred_series sid start end_) as [df|e]; reflexivity.
Qed.

Lemma fred_loop (items : list (scalar * yaml)) (st : state Frame) :
  exists done,
    bronze (fst (for_each items fred_item st)) = bronze st ++ fred_files done /\
    logs (fst (for_each items fred_item st)) = logs st ++ fred_logs len done /\
    manifest (fst (for_each items fred_item st)) = manifest st /\
    Forall2 (fun it d => fst d = fst it /\ fetched it = Ok (snd d))
            (firstn (length done) items) done /\
    match snd (for_each items fred_item st) with
    | Ok _ => length done = length items
    | Raise e =>
        exists item, nth_error items (length done) = Some item /\
                     fetched item = Raise e
    end.
Proof.
  revert st. induction items as [|item items IH]; intros st.
  - exists []. simpl. rewrite !app_nil_r. repeat split. constructor.
  - cbn [for_each]. unfold mbind, M_bind. rewrite fred_item_step.
    destruct (fetched item) as [df|e] eqn:E.
    + match goal with
      | |- context [for_each items _ ?st1] =>
          destruct (IH st1) as (done & Hb & Hl & Hm & Hf & Hr)
      end.
      exists ((fst item, df) :: done). cbn [bronze logs manifest] in *.
      rewrite Hb, Hl, Hm. cbn [fred_files fred_logs map length firstn fst snd].
      rewrite <- !app_assoc. repeat split.
      * constructor; [auto|exact Hf].
      * destruct (snd (for_each items _ _)); [now f_equal|exact Hr].
    + exists []. simpl. rewrite !app_nil_r. repeat split; [constructor|].
      exists item. auto.
Qed.

(** [main], statement by statement. *)
Lemma main_steps (fred_file sdmx_file : config_file) (st : state Frame) :
  main fred_file sdmx_file st =
  let st0 := {| bronze := bronze st; logs := []; manifest := manifest st |} in
  match validate_fred fred_file with
  | Raise e => (st0, Raise e)
  | Ok items =>
      match for_each items fred_item st0 with
      | (st2, Raise e) => (st2, Raise e)
      | (st2, Ok _) =>
          match sdmx_file with
          | Unparsable => (st2, Raise YAMLError)
          | _ =>
              ({| bronze := bronze st2; logs := logs st2;
                  manifest := manifest st2 ++ logs st2 |}, Ok tt)
          end
      end
  end.
Proof.
  unfold Ingest.main, mbind, M_bind, logs_reset, lift. cbv zeta.
  destruct (validate_fred fred_file) as [items|e]; [|reflexivity].
  destruct (for_each items fred_item _) as [st2 [[]|e]]; [|reflexivity].
  rewrite sdmx_part_skips. now destruct sdmx_file.
Qed.

(** X19. A run of run_ingest.py.  Only FRED files are saved, one per series
    in the order of the config, each holding what the fetcher returned, up to
    the first series that fails: the name the script imports from
    ingest/sdmx.py is not bound there, the ImportError is caught, and no SDMX
    series is ever fetched, whatever the SDMX config lists.  The run
    completes exactly when the FRED config is valid, every series was
    fetched and the SDMX config, if present, is not a YAML syntax error; the
    ingest log then gains one FRED row per series.  If anything raises, the
    files already saved stay and the ingest log is not written at all. *)
Theorem run_ingest_outcome (fred_file sdmx_file : config_file) (st : state Frame) :
  exists done,
    bronze (fst (main fred_file sdmx_file st)) = bronze st ++ fred_files done /\
    (forall items, validate_fred fred_file = Ok items ->
       Forall2 (fun it d => fst d = fst it /\ fetched it = Ok (snd d))
               (firstn (length done) items) done) /\
    match snd (main fred_file sdmx_file st) with
    | Ok _ =>
        (exists items, validate_fred fred_file = Ok items /\
                       length done = length items) /\
        sdmx_file <> Unparsable /\
        manifest (fst (main fred_file sdmx_file st)) =
          manifest st ++ fred_logs len done
    | Raise e =>
        manifest (fst (main fred_file sdmx_file st)) = manifest st /\
        (validate_fred fred_file = Raise e /\ done = [] \/
         (exists items item,
            validate_fred fred_file = Ok items /\
            nth_error items (length done) = Some item /\
            fetched item = Raise e) \/
         (e = YAMLError /\ sdmx_file = Unparsable /\
          exists items, validate_fred fred_file = Ok items /\
                        length done = length items))
    end.
Proof.
  rewrite main_steps. cbv zeta.
  destruct (validate_fred fred_file) as [items|e] eqn:Ev.
  2:{ exists []. simpl. rewrite app_nil_r. repeat split; [discriminate|].
      left. auto. }
  destruct (fred_loop items {| bronze := bronze st; logs := []; manifest := manifest st |})
    as (done & Hb & Hl & Hm & Hf & Hr).
  destruct (for_each items fred_item
              {| bronze := bronze st; logs := []; manifest := manifest st |})
    as [st2 r2].
  cbn [fst snd bronze logs manifest] in *.
  exists done.
  assert (Hitems : forall items0, Ok items = Ok items0 ->
            Forall2 (fun it d => fst d = fst it /\ fetched it = Ok (snd d))
                    (firstn (length done) items0) done)
    by (intros ? E; injection E as <-; exact Hf).
  destruct r2 as [[]|e].
  - destruct sdmx_file as [| |y]; cbn [fst snd bronze manifest logs].
    + split; [exact Hb|]. split; [exact Hitems|].
      split; [eauto|]. split; [discriminate|]. now rewrite Hm, Hl.
    + split; [exact Hb|]. split; [exact Hitems|].
      split; [exact Hm|]. right. right. eauto.
    + split; [exact Hb|]. split; [exact Hitems|].
      split; [eauto|]. split; [discriminate|]. now rewrite Hm, Hl.
  - cbn [fst snd]. split; [exact Hb|]. split; [exact Hitems|].
    split; [exact Hm|]. right. left.
    destruct Hr as (item & Hi & He). eauto.
Qed.

End RunFacts.

End Ingest.

(* ===================================================================== *)
(** * What the restart search returns (07)                                *)
(* ===================================================================== *)

Module BestModel.

Import Restarts.

Open Scope Q_scope.

(** ** Properties of the model returned *)

Lemma fgt_beats_minus_infinity (x y : fval Q) :
  fgt x y = true -> fgt x NInf = true.
Proof. destruct x, y; simpl; intros H; try discriminate; reflexivity. Qed.

Section Search.

Variables (Obs Params : Type).
Variable fit : hyper -> Z -> Obs -> GaussianHMM Params.
Variable score : GaussianHMM Params -> Obs -> fval Q.
Variables (Xs : Obs) (hp : hyper) (eps : Q).

Let cand := restart fit score Xs hp eps.

(** The state of the loop after the seeds [l]: nothing kept and no score
    above minus infinity so far, or the model and score of one of them. *)
Let inv (l : list Z) (best : option (GaussianHMM Params) * fval Q) : Prop :=
  (best = (None, NInf) /\
   forall seed, In seed l -> fgt (snd (cand seed)) NInf = false) \/
  (exists seed, In seed l /\ best = (Some (fst (cand seed)), snd (cand seed)) /\
                fgt (snd (cand seed)) NInf = true).

Lemma keep_best_inv (l l0 : list Z) (best : option (GaussianHMM Params) * fval Q) :
  inv l0 best ->
  inv (l0 ++ l) (fold_left (keep_best fit score Xs hp eps) l best).
Proof.
  revert l0 best. induction l as [|seed l IH]; intros l0 best H.
  - now rewrite app_nil_r.
  - cbn [fold_left].
    replace (l0 ++ seed :: l) with ((l0 ++ [seed]) ++ l)
      by now rewrite <- app_assoc.
    apply IH. unfold keep_best. fold cand.
    destruct (cand seed) as [model sc] eqn:Ec.
    destruct (fgt sc (snd best)) eqn:Eg.
    + right. exists seed. rewrite Ec. split; [apply in_or_app; right; now left|].
      split; [reflexivity|]. simpl. eapply fgt_beats_minus_infinity; eauto.
    + destruct H as [[-> Hall]|(s & Hs & -> & Hgt)].
      * left. split; [reflexivity|]. intros s Hs.
        apply in_app_or in Hs. destruct Hs as [Hs|[<-|[]]]; [auto|].
        now rewrite Ec.
      * right. exists s. split; [apply in_or_app; now left|]. auto.
Qed.

Lemma fit_best_inv (n_tries : nat) :
  inv (seeds n_tries)
      (fold_left (keep_best fit score Xs hp eps) (seeds n_tries) (None, NInf)).
Proof.
  apply (keep_best_inv (seeds n_tries) (l0 := [])).
  left. split; [reflexivity|]. intros seed [].
Qed.

End Search.

(** X20. What [_fit_best_hmm] returns, whatever the scores are (NaN and
    infinities included).  If it returns a model, that model is the fitted
    and smoothed model of one of the seeds 42 .. 42+n_tries-1, and its score
    is above minus infinity; so when every fit has a square matrix with
    non-negative entries and positive row sums, the matrix of the returned
    model has strictly positive entries and rows that sum to 1.  The final
    assertion fails exactly when no restart scores above minus infinity
    (every score NaN or minus infinity, or [n_tries = 0]). *)
Theorem fit_best_hmm_returns_a_smoothed_restart
    (Obs Params : Type) (fit : hyper -> Z -> Obs -> GaussianHMM Params)
    (score : GaussianHMM Params -> Obs -> fval Q) (Xs : Obs)
    (n_components0 n_tries : nat) (min_covar0 eps : Q) :
  let hp := {| n_components := n_components0; covariance_diag := true;
               n_iter := 500; tol := 1 # 10000; min_covar := min_covar0 |} in
  let smoothed seed := smooth_model (fit hp seed Xs) eps in
  match _fit_best_hmm fit score Xs n_components0 n_tries min_covar0 eps with
  | Some m =>
      (exists seed, In seed (seeds n_tries) /\ m = smoothed seed /\
                    fgt (score m Xs) NInf = true) /\
      (0 < eps ->
       (forall seed,
          Smooth.is_square n_components0 (transmat_ (fit hp seed Xs)) /\
          Forall (fun row => Forall (fun x => 0 <= x) row /\ 0 < Qsum row)
                 (transmat_ (fit hp seed Xs))) ->
       Smooth.is_square n_components0 (transmat_ m) /\
       Forall (fun row => Forall (fun x => 0 < x) row /\ Qsum row == 1)
              (transmat_ m))
  | None =>
      forall seed, In seed (seeds n_tries) ->
        fgt (score (smoothed seed) Xs) NInf = false
  end.
Proof.
  intros hp smoothed. unfold _fit_best_hmm. cbv zeta. fold hp.
  pose proof (fit_best_inv fit score Xs hp eps n_tries) as H.
  destruct (fold_left (keep_best fit score Xs hp eps) (seeds n_tries) (None, NInf))
    as [best sc].
  destruct H as [[E Hall]|(seed & Hs & E & Hgt)]; injection E as -> ->;
    cbn [fst].
  - intros seed Hs. exact (Hall seed Hs).
  - split; [exists seed; auto|].
    intros He Hfit. unfold restart. cbn [fst smooth_model transmat_].
    destruct (Hfit seed) as [[HK Hrows] Hin].
    rewrite Smooth._smooth_transmat_rows. split.
    + split; [now rewrite length_map|].
      rewrite Forall_map. rewrite Forall_forall in *.
      intros row Hrow. destruct (Hin row Hrow) as [Hnn Hpos].
      destruct (Smooth.smooth_row_ok He Hnn Hpos) as (_ & _ & Hlen).
      cbv zeta in Hlen |- *. rewrite Hlen. now apply Hrows.
    + rewrite Forall_map. eapply Forall_impl; [|exact Hin].
      intros row [Hnn Hpos].
      destruct (Smooth.smooth_row_ok He Hnn Hpos) as (Hp & Hsum & _).
      cbv zeta in Hp, Hsum |- *. auto.
Qed.

End BestModel.

(* ===================================================================== *)
(** * Reading an IMF response (ingest/sdmx.py)                            *)
(* ===================================================================== *)

Module Sdmx.

Open Scope Q_scope.

(** A JSON scalar as [r.json()] gives it. *)
Inductive jval : Type :=
| JNull
| JBool (b : bool)
| JNum (x : fval Q)
| JStr (s : string).

(** A JSON object whose values are scalars: an observation. *)
Definition obs : Type := list (string * jval).

(** [o.get(k)]: a missing key and a null both give [None]. *)
Fixpoint get (o : obs) (k : string) : jval :=
  match o with
  | [] => JNull
  | (k', v) :: rest => if String.eqb k k' then v else get rest k
  end.

(** Python's truth value: [None], [False], a zero, the empty string are
    false. *)
Definition truthy (v : jval) : bool :=
  match v with
  | JNull => false
  | JBool b => b
  | JNum (Fin q) => negb (Qeq_bool q 0)
  | JNum _ => true
  | JStr s => negb (String.eqb s String.EmptyString)
  end.

(** [a or b]. *)
Definition py_or (a b : jval) : jval := if truthy a then a else b.

(** A field that is absent, one object, or a list of objects ([Series] and
    [Obs] of CompactData come in all three forms). *)
Inductive one_or_many (A : Type) : Type :=
| Absent
| One (a : A)
| Many (l : list A).

Arguments Absent {A}.
Arguments One {A} a.
Arguments Many {A} l.

Definition as_list {A} (x : one_or_many A) : list A :=
  match x with
  | Absent => []
  | One a => [a]
  | Many l => l
  end.

Record series : Type := { Obs : one_or_many obs }.

(** The three sources of [BASE_URLS]. *)
Inductive provider : Type := ECB | BIS | IMF.

Definition upper_ascii (c : Ascii.ascii) : Ascii.ascii :=
  let n := Ascii.N_of_ascii c in
  if ((97 <=? n) && (n <=? 122))%N then Ascii.ascii_of_N (n - 32) else c.

Fixpoint upper (s : string) : string :=
  match s with
  | String.EmptyString => String.EmptyString
  | String.String c s' => String.String (upper_ascii c) (upper s')
  end.

(** Lines 35-37: [None] is the ValueError. *)
Definition provider_of (source : string) : option provider :=
  let source := upper source in
  if String.eqb source "ECB" then Some ECB
  else if String.eqb source "BIS" then Some BIS
  else if String.eqb source "IMF" then Some IMF
  else None.

Section Imf.

(** [float(s)] on a string ([None] when it raises) and [to_datetime] with
    [errors="coerce"] on a time label. *)
Variable float_of_string : string -> option (fval Q).
Variable to_datetime : jval -> option Z.

(** [_to_float]: [None] when [float(x)] raises. *)
Definition _to_float (x : jval) : option (fval Q) :=
  match x with
  | JNull => None
  | JBool b => Some (Fin (if b then 1 else 0))
  | JNum x => Some x
  | JStr s => float_of_string s
  end.

(** Lines 133-138: the row an observation contributes, if any. *)
Definition imf_row (o : obs) : option (jval * fval Q) :=
  let t := py_or (get o "@TIME_PERIOD") (get o "TIME_PERIOD") in
  let v := py_or (get o "@OBS_VALUE") (get o "OBS_VALUE") in
  let v := _to_float v in
  match t, v with
  | JNull, _ => None
  | _, None => None
  | _, Some x => Some (t, x)
  end.

(** Lines 118-138. *)
Definition imf_rows (Series : one_or_many series) : list (jval * fval Q) :=
  flat_map
    (fun s =>
       flat_map (fun o => match imf_row o with
                          | Some r => [r]
                          | None => []
                          end)
                (as_list (Obs s)))
    (as_list Series).

(** Lines 140-142: coerce the date, drop NaT and NaN, sort. *)
Definition normalize (rows : list (jval * fval Q)) : list (Z * fval Q) :=
  sort_by_date
    (flat_map (fun r => match to_datetime (fst r), isna (snd r) with
                        | Some d, false => [(d, snd r)]
                        | _, _ => []
                        end)
              rows).

Definition fetch_imf (Series : one_or_many series) : list (Z * fval Q) :=
  normalize (imf_rows Series).

End Imf.

(** Time labels that are a day number, for the examples. *)
Definition day_of (t : jval) : option Z :=
  match t with
  | JNum (Fin q) => Some (Qnum q)
  | _ => None
  end.

Definition no_strings (s : string) : option (fval Q) := None.

(** ** Properties of the IMF reader *)

Section ImfFacts.

Variable float_of_string : string -> option (fval Q).
Variable to_datetime : jval -> option Z.

Lemma imf_rows_In (Series : one_or_many series) (r : jval * fval Q) :
  In r (imf_rows float_of_string Series) <->
  exists s o, In s (as_list Series) /\ In o (as_list (Obs s)) /\
              imf_row float_of_string o = Some r.
Proof.
  unfold imf_rows. rewrite in_flat_map. split.
  - intros (s & Hs & Hr). apply in_flat_map in Hr. destruct Hr as (o & Ho & Hr).
    exists s, o. split; [exact Hs|]. split; [exact Ho|].
    destruct (imf_row float_of_string o) as [r'|]; simpl in Hr; [|tauto].
    destruct Hr as [->|[]]. reflexivity.
  - intros (s & o & Hs & Ho & E). exists s. split; [exact Hs|].
    apply in_flat_map. exists o. split; [exact Ho|]. rewrite E. now left.
Qed.

(** X21. Which IMF observations reach the frame.  A row of the result has a
    date that parsed and a value that is not NaN, and comes from an
    observation that gave that time label and value; the rows are in date
    order.  The fields are chosen with [or], so a value that Python takes for
    false is passed over: an observation whose [@OBS_VALUE] is the number 0,
    with no [OBS_VALUE] beside it, is dropped, while the same observation
    with any other finite number is kept. *)
Theorem imf_zero_value_is_dropped (Series : one_or_many series) :
  StronglySorted Z.le (map fst (fetch_imf float_of_string to_datetime Series)) /\
  (forall d x,
     In (d, x) (fetch_imf float_of_string to_datetime Series) <->
     x <> NaN /\
     exists s o t, In s (as_list Series) /\ In o (as_list (Obs s)) /\
                   imf_row float_of_string o = Some (t, x) /\
                   to_datetime t = Some d) /\
  (forall o t q,
     get o "@TIME_PERIOD" = t -> truthy t = true ->
     get o "@OBS_VALUE" = JNum (Fin q) -> get o "OBS_VALUE" = JNull ->
     imf_row float_of_string o =
     if Qeq_bool q 0 then None else Some (t, Fin q)).
Proof.
  split; [apply sort_by_date_sorted|]. split.
  - intros d x. unfold fetch_imf, normalize, sort_by_date.
    rewrite isort_In, in_flat_map. split.
    + intros ([t x'] & Hr & Hin). simpl in Hin.
      destruct (to_datetime t) as [d'|] eqn:Ed; [|destruct Hin].
      destruct (isna x') eqn:En; [destruct Hin|].
      destruct Hin as [E|[]]. injection E as -> ->.
      split; [intros ->; discriminate|].
      apply imf_rows_In in Hr. destruct Hr as (s & o & Hs & Ho & E).
      exists s, o, t. auto.
    + intros (Hx & s & o & t & Hs & Ho & E & Ed).
      exists (t, x). split; [apply imf_rows_In; eauto|].
      simpl. rewrite Ed. destruct x; try (now left). congruence.
  - intros o t q Ht Htrue Hv Hv'. unfold imf_row. cbv zeta.
    rewrite Ht, Hv, Hv'.
    assert (E : py_or t (get o "TIME_PERIOD") = t)
      by (unfold py_or; now rewrite Htrue).
    rewrite E. unfold py_or. cbn [truthy].
    destruct (Qeq_bool q 0); cbn [negb _to_float];
      destruct t; try reflexivity; discriminate Htrue.
Qed.

End ImfFacts.

(** A response with the value 0 on day 2: only days 1 and 3 come out.  The
    source name is matched without regard to case. *)
Example imf_response :
  fetch_imf no_strings day_of
    (One {| Obs := Many [ [("@TIME_PERIOD", JNum (Fin 3)); ("@OBS_VALUE", JNum (Fin 7))];
                          [("@TIME_PERIOD", JNum (Fin 2)); ("@OBS_VALUE", JNum (Fin 0))];
                          [("@TIME_PERIOD", JNum (Fin 1)); ("@OBS_VALUE", JNum (Fin 5))] ]%string |})
  = [(1%Z, Fin 5); (3%Z, Fin 7)] /\
  map provider_of ["imf"; "Ecb"; "BIS"; "OECD"]%string
  = [Some IMF; Some ECB; Some BIS; None].
Proof. split; reflexivity. Qed.

End Sdmx.

(* ===================================================================== *)
(** * The dates of the feature master (03, 04, 05)                        *)
(* ===================================================================== *)

Module Master.

Import Features.

Open Scope Z_scope.

(** Two silver tables with two dates in common. *)
Definition net_ex : list (Z * Z) := [(3, 30); (1, 10); (2, 20)].
Definition gcb_ex : list (Z * Z) := [(2, 200); (4, 400); (3, 300)].

(** ** Properties of the master built from two aligned tables *)

Lemma filter_date_unique {B} (gcb : list (Z * B)) (d : Z) :
  List.NoDup (map fst gcb) ->
  (length (filter (fun r => (fst r =? d)%Z) gcb) <= 1)%nat.
Proof.
  induction gcb as [|r gcb IH]; simpl; intros Hnd; [lia|].
  inversion Hnd as [|? ? Hni Hnd']; subst.
  destruct (Z.eqb_spec (fst r) d) as [E|_]; [|now apply IH].
  simpl. assert (Hnone : filter (fun r => fst r =? d) gcb = []).
  { destruct (filter (fun r => fst r =? d) gcb) as [|x l] eqn:Ef; [reflexivity|].
    exfalso. assert (Hx : In x (x :: l)) by now left.
    rewrite <- Ef in Hx. apply filter_In in Hx. destruct Hx as [Hx Hd].
    apply Z.eqb_eq in Hd. apply Hni. rewrite E, <- Hd. now apply in_map. }
  rewrite Hnone. simpl. lia.
Qed.

Lemma merge_inner_dates {A B} (net : list (Z * A)) (gcb : list (Z * B)) :
  List.NoDup (map fst gcb) ->
  map fst (merge_inner net gcb) =
  filter (fun d => existsb (fun r => fst r =? d) gcb) (map fst net).
Proof.
  intros Hnd. unfold merge_inner.
  induction net as [|l net IH]; simpl; [reflexivity|].
  rewrite map_app, IH, map_map. simpl.
  pose proof (@filter_date_unique _ gcb (fst l) Hnd) as Hle.
  destruct (filter (fun r => fst r =? fst l) gcb) as [|x [|y rest]] eqn:Ef;
    simpl in Hle; try lia.
  - assert (E : existsb (fun r => fst r =? fst l) gcb = false).
    { destruct (existsb _ gcb) eqn:Ex; [|reflexivity].
      apply existsb_exists in Ex. destruct Ex as (r & Hr & Hd).
      assert (Hin : In r (filter (fun r => fst r =? fst l) gcb))
        by (apply filter_In; auto).
      rewrite Ef in Hin. destruct Hin. }
    now rewrite E.
  - assert (E : existsb (fun r => fst r =? fst l) gcb = true).
    { apply existsb_exists. exists x.
      assert (Hin : In x (filter (fun r => fst r =? fst l) gcb))
        by (rewrite Ef; now left).
      apply filter_In in Hin. exact Hin. }
    now rewrite E.
Qed.

Lemma length_filter_le {A} (f : A -> bool) (l : list A) :
  (length (filter f l) <= length l)%nat.
Proof.
  induction l as [|x l IH]; simpl; [lia|]. destruct (f x); simpl; lia.
Qed.

(** X22. The feature master has one row per date.  When neither silver
    table repeats a date - as the aligned tables of 03 and 04 do not - the
    master's dates are strictly increasing, it has at most as many rows as
    either table, and a date determines its row: the inner join pairs rows
    one to one and multiplies nothing. *)
Theorem master_has_one_row_per_date {A B}
    (net : list (Z * A)) (gcb : list (Z * B)) :
  List.NoDup (map fst net) -> List.NoDup (map fst gcb) ->
  StronglySorted Z.lt (map fst (build_master net gcb)) /\
  (length (build_master net gcb) <= length net)%nat /\
  (length (build_master net gcb) <= length gcb)%nat /\
  (forall d x y, In (d, x) (build_master net gcb) ->
                 In (d, y) (build_master net gcb) -> x = y).
Proof.
  intros Hn Hg.
  assert (Hperm : Permutation (build_master net gcb) (merge_inner net gcb))
    by apply isort_perm.
  assert (Hnd : List.NoDup (map fst (merge_inner net gcb))).
  { rewrite (@merge_inner_dates _ _ net gcb Hg). now apply List.NoDup_filter. }
  assert (Hnd' : List.NoDup (map fst (build_master net gcb))).
  { eapply Permutation_NoDup; [|exact Hnd].
    apply Permutation_map. now symmetry. }
  assert (Hlen : length (build_master net gcb) = length (merge_inner net gcb))
    by now apply Permutation_length.
  assert (Hlen' : length (merge_inner net gcb) =
                  length (map fst (merge_inner net gcb)))
    by now rewrite length_map.
  split; [|split; [|split]].
  - apply Aligner.sorted_le_NoDup_lt; [apply sort_by_date_sorted|exact Hnd'].
  - rewrite Hlen, Hlen', (@merge_inner_dates _ _ net gcb Hg).
    etransitivity; [apply length_filter_le|]. now rewrite length_map.
  - rewrite Hlen, Hlen'.
    assert (Hincl : incl (map fst (merge_inner net gcb)) (map fst gcb)).
    { intros d Hd. apply in_map_iff in Hd.
      destruct Hd as ([d' [a b]] & <- & Hin). apply merge_inner_In in Hin.
      destruct Hin as [_ Hin]. simpl. apply in_map_iff. exists (d', b). auto. }
    rewrite <- (length_map fst gcb). now apply NoDup_incl_length.
  - intros d x y Hx Hy.
    apply In_nth_error in Hx, Hy. destruct Hx as [i Hi], Hy as [j Hj].
    assert (Hi' : nth_error (map fst (build_master net gcb)) i = Some d)
      by now rewrite nth_error_map, Hi.
    assert (Hj' : nth_error (map fst (build_master net gcb)) j = Some d)
      by now rewrite nth_error_map, Hj.
    assert (i = j).
    { apply (proj1 (NoDup_nth_error _) Hnd'); [|congruence].
      apply nth_error_Some. congruence. }
    subst j. congruence.
Qed.

Lemma master_has_one_row_per_date_witness :
  StronglySorted Z.lt
    (map fst (build_master net_ex gcb_ex)) /\
  (length (build_master net_ex gcb_ex)
   <= 3)%nat /\
  (length (build_master net_ex gcb_ex)
   <= 3)%nat /\
  (forall d x y,
     In (d, x) (build_master net_ex gcb_ex) ->
     In (d, y) (build_master net_ex gcb_ex) ->
     x = y).
Proof.
  apply (@master_has_one_row_per_date Z Z net_ex gcb_ex).
  - repeat constructor; simpl; intuition discriminate.
  - repeat constructor; simpl; intuition discriminate.
Defined.

(** A date the left table holds twice comes out twice. *)
Example repeated_date_is_multiplied :
  build_master [(1, 10); (1, 11)] [(1, 100)] = [(1, (10, 100)); (1, (11, 100))].
Proof. reflexivity. Qed.

End Master.
